(** * Replication- and shard-aware connection pools of sequelize

    A shallow embedding of
      packages/core/src/abstract-dialect/replication-pool.ts,
      packages/core/src/dialects/abstract/replication-pool.ts,
      packages/core/src/dialects/abstract/sharded-replication-pool.ts
      (both revisions kept in that file; the later one is also the unnamed
      source part),
    over an explicit JavaScript heap: option objects, connection objects and
    pool objects live in a store and are referred to by reference, so that
    the in-place writes of the code are visible to every holder of the
    reference. *)

From stdpp Require Import base option list gmap strings.
From Stdlib Require Import Arith Lia Ascii.

Local Open Scope string_scope.
Local Open Scope list_scope.

(** ** Values *)

(** What an [await] or a call can reject or throw with. *)
Inductive JsError : Type :=
  | Error (message : string)
  | TypeError (message : string)
  | TimeoutError (message : string)
  (** [new cls(message, { cause })] for a caller-supplied class [cls] *)
  | CustomError (cls : string) (message : string) (cause : JsError).

(** [error instanceof TimeoutError] *)
Definition instanceofTimeoutError (e : JsError) : bool :=
  match e with
  | TimeoutError _ => true
  | _ => false
  end.

(** [error.message] *)
Definition message_of (e : JsError) : string :=
  match e with
  | Error m | TypeError m | TimeoutError m | CustomError _ m _ => m
  end.

Inductive Completion (A : Type) : Type :=
  | Normal (value : A)
  | Throw (error : JsError).
Arguments Normal {A} value.
Arguments Throw {A} error.

(** A [ConnectionOptions] object: the backend it names and the [shardId]
    field the sharded pool writes into it. *)
Record ConnectionOptions : Type := {
  host : string;
  co_shardId : option string;
}.

Definition ConnectionOptions_set_shardId (s : option string) (o : ConnectionOptions)
  : ConnectionOptions :=
  {| host := host o; co_shardId := s |}.

(** A connection object; the pools only ever touch its [shardId] field. *)
Record Connection : Type := {
  conn_shardId : option string;
}.

(** [AcquireConnectionOptions]: both fields may be absent. [type] is kept as
    the string the runtime check of [acquire] inspects. *)
Record AcquireConnectionOptions : Type := {
  type : option string;
  useMaster : option bool;
}.

(** The adapter's [connect]: given the number of earlier [connect] calls and
    the contents of the options object at the time of the call, [None] when
    it resolves (with a fresh connection object) and [Some e] when it rejects
    with [e]. *)
Definition Connect : Type := nat -> ConnectionOptions -> option JsError.

(** The [create] closures handed to [new Pool({ create, ... })], with the
    variables they capture. [reads] is the captured mutable counter. *)
Inductive CreateClosure : Type :=
  (** replication-pool.ts, read pool *)
  | RPReadCreate (connect : Connect) (readConfig : list nat) (reads : nat)
  (** replication-pool.ts, write pool *)
  | RPWriteCreate (connect : Connect) (writeConfig : nat)
  (** sharded-replication-pool.ts, read pool of one shard *)
  | SRPReadCreate (connect : Connect) (readConfig : list nat) (reads : nat)
      (shardId : string)
  (** sharded-replication-pool.ts, write pool of one shard *)
  | SRPWriteCreate (connect : Connect) (writeConfig : nat) (shardId : string).

(** ** The pool object of the sequelize-pool package *)

Module Pool.

(** Modelled from the spec: the [Pool] class of the external package
    sequelize-pool (spec section 4.1, SubPool), as the options given to
    its constructor and its bookkeeping. *)
Record t : Type := {
  name : string;
  create : CreateClosure;
  destroy : nat -> option JsError;
  validate : nat -> bool;
  max : nat;
  min : nat;
  acquireTimeoutMillis : nat;
  idleTimeoutMillis : nat;
  reapIntervalMillis : nat;
  maxUses : nat;
  availableObjects : list nat;
  inUseObjects : list nat;
  pendingAcquires : nat;
  draining : bool;
}.

Definition available (p : t) : nat := length (availableObjects p).
(** [using] is a reserved word of Rocq *)
Definition using_ (p : t) : nat := length (inUseObjects p).
Definition waiting (p : t) : nat := pendingAcquires p.
Definition size (p : t) : nat := available p + using_ p.

Definition with_create (c : CreateClosure) (p : t) : t :=
  {| name := name p; create := c; destroy := destroy p; validate := validate p;
     max := max p; min := min p;
     acquireTimeoutMillis := acquireTimeoutMillis p;
     idleTimeoutMillis := idleTimeoutMillis p;
     reapIntervalMillis := reapIntervalMillis p; maxUses := maxUses p;
     availableObjects := availableObjects p; inUseObjects := inUseObjects p;
     pendingAcquires := pendingAcquires p; draining := draining p |}.

Definition with_objects (idle inUse : list nat) (p : t) : t :=
  {| name := name p; create := create p; destroy := destroy p;
     validate := validate p; max := max p; min := min p;
     acquireTimeoutMillis := acquireTimeoutMillis p;
     idleTimeoutMillis := idleTimeoutMillis p;
     reapIntervalMillis := reapIntervalMillis p; maxUses := maxUses p;
     availableObjects := idle; inUseObjects := inUse;
     pendingAcquires := pendingAcquires p; draining := draining p |}.

End Pool.

(** The sizing options of a pool manager ([config.pool]). *)
Record ReplicationPoolOptions : Type := {
  opt_max : nat;
  opt_min : nat;
  opt_idle : nat;
  opt_acquire : nat;
  opt_evict : nat;
  opt_maxUses : nat;
}.

(** ** The heap *)

(** Calls received by a pool object. *)
Inductive PoolCall : Type :=
  | CallAcquire
  | CallRelease (connection : nat)
  | CallDestroy (connection : nat)
  | CallDestroyAllNow
  | CallDrain.

Record World : Type := {
  (** the caller's [ConnectionOptions] objects *)
  optionObjects : gmap nat ConnectionOptions;
  (** the connection objects made by the adapter *)
  connectionObjects : gmap nat Connection;
  (** the [Pool] objects *)
  poolObjects : gmap nat Pool.t;
  (** [owningPools] of replication-pool.ts *)
  owningPools : gmap nat string;
  (** [owningPools] of sharded-replication-pool.ts *)
  shardOwningPools : gmap nat string;
  (** next fresh reference *)
  nextRef : nat;
  (** the [connect] calls so far, oldest first: the options object passed
      and its contents at the call *)
  connectLog : list (nat * ConnectionOptions);
  (** the [disconnect] calls so far, oldest first *)
  disconnectLog : list nat;
  (** the calls received by pool objects so far, oldest first *)
  poolLog : list (nat * PoolCall);
}.

Definition emptyWorld : World :=
  {| optionObjects := ∅; connectionObjects := ∅; poolObjects := ∅;
     owningPools := ∅; shardOwningPools := ∅; nextRef := 0;
     connectLog := []; disconnectLog := []; poolLog := [] |}.

Definition set_optionObjects (f : gmap nat ConnectionOptions -> gmap nat ConnectionOptions)
    (w : World) : World :=
  {| optionObjects := f (optionObjects w); connectionObjects := connectionObjects w;
     poolObjects := poolObjects w; owningPools := owningPools w;
     shardOwningPools := shardOwningPools w; nextRef := nextRef w;
     connectLog := connectLog w; disconnectLog := disconnectLog w;
     poolLog := poolLog w |}.

Definition set_connectionObjects (f : gmap nat Connection -> gmap nat Connection)
    (w : World) : World :=
  {| optionObjects := optionObjects w; connectionObjects := f (connectionObjects w);
     poolObjects := poolObjects w; owningPools := owningPools w;
     shardOwningPools := shardOwningPools w; nextRef := nextRef w;
     connectLog := connectLog w; disconnectLog := disconnectLog w;
     poolLog := poolLog w |}.

Definition set_poolObjects (f : gmap nat Pool.t -> gmap nat Pool.t) (w : World) : World :=
  {| optionObjects := optionObjects w; connectionObjects := connectionObjects w;
     poolObjects := f (poolObjects w); owningPools := owningPools w;
     shardOwningPools := shardOwningPools w; nextRef := nextRef w;
     connectLog := connectLog w; disconnectLog := disconnectLog w;
     poolLog := poolLog w |}.

Definition set_owningPools (f : gmap nat string -> gmap nat string) (w : World) : World :=
  {| optionObjects := optionObjects w; connectionObjects := connectionObjects w;
     poolObjects := poolObjects w; owningPools := f (owningPools w);
     shardOwningPools := shardOwningPools w; nextRef := nextRef w;
     connectLog := connectLog w; disconnectLog := disconnectLog w;
     poolLog := poolLog w |}.

Definition set_shardOwningPools (f : gmap nat string -> gmap nat string) (w : World) : World :=
  {| optionObjects := optionObjects w; connectionObjects := connectionObjects w;
     poolObjects := poolObjects w; owningPools := owningPools w;
     shardOwningPools := f (shardOwningPools w); nextRef := nextRef w;
     connectLog := connectLog w; disconnectLog := disconnectLog w;
     poolLog := poolLog w |}.

Definition set_nextRef (n : nat) (w : World) : World :=
  {| optionObjects := optionObjects w; connectionObjects := connectionObjects w;
     poolObjects := poolObjects w; owningPools := owningPools w;
     shardOwningPools := shardOwningPools w; nextRef := n;
     connectLog := connectLog w; disconnectLog := disconnectLog w;
     poolLog := poolLog w |}.

Definition push_connectLog (e : nat * ConnectionOptions) (w : World) : World :=
  {| optionObjects := optionObjects w; connectionObjects := connectionObjects w;
     poolObjects := poolObjects w; owningPools := owningPools w;
     shardOwningPools := shardOwningPools w; nextRef := nextRef w;
     connectLog := connectLog w ++ [e]; disconnectLog := disconnectLog w;
     poolLog := poolLog w |}.

Definition push_disconnectLog (c : nat) (w : World) : World :=
  {| optionObjects := optionObjects w; connectionObjects := connectionObjects w;
     poolObjects := poolObjects w; owningPools := owningPools w;
     shardOwningPools := shardOwningPools w; nextRef := nextRef w;
     connectLog := connectLog w; disconnectLog := disconnectLog w ++ [c];
     poolLog := poolLog w |}.

Definition push_poolLog (e : nat * PoolCall) (w : World) : World :=
  {| optionObjects := optionObjects w; connectionObjects := connectionObjects w;
     poolObjects := poolObjects w; owningPools := owningPools w;
     shardOwningPools := shardOwningPools w; nextRef := nextRef w;
     connectLog := connectLog w; disconnectLog := disconnectLog w;
     poolLog := poolLog w ++ [e] |}.

(** ** Computations: state passing with exceptions

    A call runs to completion before the next one starts (one cooperative
    thread of control); a thrown error keeps the state reached so far. *)

Definition M (A : Type) : Type := World -> Completion A * World.

Definition ret {A} (a : A) : M A := fun w => (Normal a, w).
Definition throw {A} (e : JsError) : M A := fun w => (Throw e, w).

Definition bind {A B} (c : M A) (k : A -> M B) : M B :=
  fun w =>
    match c w with
    | (Normal a, w') => k a w'
    | (Throw e, w') => (Throw e, w')
    end.

(** [try { c } catch (error) { h error }] *)
Definition try_catch {A} (c : M A) (h : JsError -> M A) : M A :=
  fun w =>
    match c w with
    | (Normal a, w') => (Normal a, w')
    | (Throw e, w') => h e w'
    end.

Definition modify (f : World -> World) : M unit := fun w => (Normal tt, f w).
Definition gets {A} (f : World -> A) : M A := fun w => (Normal (f w), w).

Notation "x <~ c ;; k" := (bind c (fun x => k))
  (at level 100, c at next level, right associativity).
Notation "c ;;; k" := (bind c (fun _ => k))
  (at level 100, right associativity).

Definition lift {A} (c : Completion A) : M A := fun w => (c, w).

(** ** Running a [create] closure *)

(** [await connect(o)] for the options object [o]: the call is logged with
    the contents [o] has at that moment; on success the adapter returns a
    fresh connection object. *)
Definition call_connect (connect : Connect) (o : nat) : M nat :=
  fun w =>
    match optionObjects w !! o with
    | None => (Throw (TypeError "no such options object"), w)
    | Some contents =>
        let w1 := push_connectLog (o, contents) w in
        match connect (length (connectLog w)) contents with
        | Some e => (Throw e, w1)
        | None =>
            let c := nextRef w1 in
            (Normal c,
             set_connectionObjects (insert c {| conn_shardId := None |})
               (set_nextRef (S c) w1))
        end
    end.

(** [o.shardId = shardId] on an options object *)
Definition write_options_shardId (o : nat) (shardId : string) : M unit :=
  fun w =>
    match optionObjects w !! o with
    | None => (Throw (TypeError "cannot set properties of undefined"), w)
    | Some contents =>
        (Normal tt,
         set_optionObjects
           (insert o (ConnectionOptions_set_shardId (Some shardId) contents)) w)
    end.

(** One run of a [create] closure: the closure with its captured counter
    after the run, and the effect of the body. [reads++] happens before the
    [await], so the counter advances even when [connect] rejects. *)
Definition runCreate (cl : CreateClosure) : CreateClosure * M nat :=
  match cl with
  | RPReadCreate connect readConfig reads =>
      let nextRead := reads mod length readConfig in
      (RPReadCreate connect readConfig (S reads),
       match readConfig !! nextRead with
       | None => throw (TypeError "readConfig[nextRead] is undefined")
       | Some o =>
           connection <~ call_connect connect o ;;
           modify (set_owningPools (insert connection "read")) ;;;
           ret connection
       end)
  | RPWriteCreate connect writeConfig =>
      (cl,
       connection <~ call_connect connect writeConfig ;;
       modify (set_owningPools (insert connection "write")) ;;;
       ret connection)
  | SRPReadCreate connect readConfig reads shardId =>
      let nextRead := reads mod length readConfig in
      (SRPReadCreate connect readConfig (S reads) shardId,
       match readConfig !! nextRead with
       | None => throw (TypeError "cannot set properties of undefined")
       | Some connectionOptions =>
           write_options_shardId connectionOptions shardId ;;;
           connection <~ call_connect connect connectionOptions ;;
           modify (set_shardOwningPools (insert connection ("read:" +:+ shardId))) ;;;
           ret connection
       end)
  | SRPWriteCreate connect writeConfig shardId =>
      (cl,
       write_options_shardId writeConfig shardId ;;;
       connection <~ call_connect connect writeConfig ;;
       modify (set_shardOwningPools (insert connection ("write:" +:+ shardId))) ;;;
       ret connection)
  end.

(** ** The methods of a pool object *)

(** Modelled from the spec: the methods of the [Pool] class of the external
    package sequelize-pool (spec section 4.1), for one caller at a time: an
    [acquire] that finds no idle connection and no room under [max] can
    only time out, since no other caller releases in the meantime. Idle
    reaping and [maxUses] retirement depend on timers and use counts and
    are left out. *)
Module SubPool.

Definition deref (r : nat) : M Pool.t :=
  fun w =>
    match poolObjects w !! r with
    | Some p => (Normal p, w)
    | None => (Throw (TypeError "no such pool object"), w)
    end.

Definition store (r : nat) (p : Pool.t) : M unit :=
  modify (set_poolObjects (insert r p)).

Definition new (p : Pool.t) : M nat :=
  fun w =>
    let r := nextRef w in
    (Normal r, set_poolObjects (insert r p) (set_nextRef (S r) w)).

(** The idle connections that fail validation before the first valid one,
    that one, and the idle connections after it. *)
Fixpoint takeValid (validate : nat -> bool) (idle : list nat)
  : list nat * option nat * list nat :=
  match idle with
  | [] => ([], None, [])
  | c :: rest =>
      if validate c then ([], Some c, rest)
      else
        let '(bad, found, rest') := takeValid validate rest in
        (c :: bad, found, rest')
  end.

(** invalid idle connections are destroyed silently *)
Fixpoint destroyInvalid (bad : list nat) : M unit :=
  match bad with
  | [] => ret tt
  | c :: rest => modify (push_disconnectLog c) ;;; destroyInvalid rest
  end.

(** run the [create] option, keeping the closure's counter *)
Definition createResource (r : nat) : M nat :=
  p <~ deref r ;;
  let '(cl, body) := runCreate (Pool.create p) in
  store r (Pool.with_create cl p) ;;;
  body.

(** Modelled from the spec: [acquire()] hands out the first idle connection
    that validates, destroying the invalid ones before it; failing that it
    creates one while the pool is below [max]; failing that it times out. *)
Definition acquire (r : nat) : M nat :=
  modify (push_poolLog (r, CallAcquire)) ;;;
  p <~ deref r ;;
  if Pool.draining p then
    throw (Error "pool is draining and cannot accept work")
  else
    let '(bad, found, rest) := takeValid (Pool.validate p) (Pool.availableObjects p) in
    destroyInvalid bad ;;;
    match found with
    | Some c =>
        store r (Pool.with_objects rest (c :: Pool.inUseObjects p) p) ;;;
        ret c
    | None =>
        store r (Pool.with_objects rest (Pool.inUseObjects p) p) ;;;
        if Nat.ltb (length rest + length (Pool.inUseObjects p)) (Pool.max p) then
          c <~ createResource r ;;
          p' <~ deref r ;;
          store r (Pool.with_objects (Pool.availableObjects p')
                     (c :: Pool.inUseObjects p') p') ;;;
          ret c
        else
          throw (TimeoutError "Operation timeout")
    end.

Definition without (c : nat) (l : list nat) : list nat :=
  filter (fun x => x ≠ c) l.

(** Modelled from the spec: [release(connection)] returns a checked-out
    connection to the idle ones. *)
Definition release (r : nat) (c : nat) : M unit :=
  modify (push_poolLog (r, CallRelease c)) ;;;
  p <~ deref r ;;
  if bool_decide (c ∈ Pool.inUseObjects p) then
    store r (Pool.with_objects (Pool.availableObjects p ++ [c])
               (without c (Pool.inUseObjects p)) p)
  else
    ret tt.

(** Modelled from the spec: [destroy(connection)] drops the connection from
    the pool's accounting and closes it with the adapter's [disconnect],
    whose failure propagates. *)
Definition destroy (r : nat) (c : nat) : M unit :=
  modify (push_poolLog (r, CallDestroy c)) ;;;
  p <~ deref r ;;
  store r (Pool.with_objects (without c (Pool.availableObjects p))
             (without c (Pool.inUseObjects p)) p) ;;;
  modify (push_disconnectLog c) ;;;
  match Pool.destroy p c with
  | Some e => throw e
  | None => ret tt
  end.

(** A counter of a pool object, read through its reference. *)
Definition counter (f : Pool.t -> nat) (r : nat) (w : World) : nat :=
  match poolObjects w !! r with
  | Some p => f p
  | None => 0
  end.

End SubPool.

(** [new Pool({ name, create, destroy: disconnect, validate, max: config.pool.max, ... })] *)
Definition poolOf (name : string) (create : CreateClosure)
    (disconnect : nat -> option JsError) (validate : nat -> bool)
    (pool : ReplicationPoolOptions) : Pool.t :=
  {| Pool.name := name; Pool.create := create; Pool.destroy := disconnect;
     Pool.validate := validate;
     Pool.max := opt_max pool; Pool.min := opt_min pool;
     Pool.acquireTimeoutMillis := opt_acquire pool;
     Pool.idleTimeoutMillis := opt_idle pool;
     Pool.reapIntervalMillis := opt_evict pool;
     Pool.maxUses := opt_maxUses pool;
     Pool.availableObjects := []; Pool.inUseObjects := [];
     Pool.pendingAcquires := 0; Pool.draining := false |}.

(** ** Promises on a logical clock

    [drain] and [destroyAllNow] start one operation per pool object and wait
    for them together. A promise is given by the tick at which it settles
    and by how; what a pool's own operation does to its connections, and
    when and how it ends, is the environment's ([Outcomes]). *)

Record Promise : Type := {
  settledAt : nat;
  (** [None]: fulfilled; [Some e]: rejected with [e] *)
  outcome : option JsError;
}.

Definition Outcomes : Type := nat -> PoolCall -> Promise.

(** a value that is no promise ([undefined]) counts as settled at once *)
Definition settledNow : Promise := {| settledAt := 0; outcome := None |}.

(** the first input to reject: the least tick, the earlier input on a tie *)
Fixpoint earliestRejection (ps : list Promise) : option Promise :=
  match ps with
  | [] => None
  | p :: rest =>
      match outcome p, earliestRejection rest with
      | Some _, Some q => if Nat.ltb (settledAt q) (settledAt p) then Some q else Some p
      | Some _, None => Some p
      | None, r => r
      end
  end.

(** [Promise.all(ps)]: rejects as soon as one input rejects, with its
    reason; is fulfilled when every input is. *)
Definition Promise_all (ps : list Promise) : Promise :=
  match earliestRejection ps with
  | Some p => p
  | None => {| settledAt := list_max (map settledAt ps); outcome := None |}
  end.

(** [pool.op()]: the pool object receives the call and hands back the
    promise of the operation. *)
Definition callPool (run : Outcomes) (op : PoolCall) (pool : nat) : M Promise :=
  modify (push_poolLog (pool, op)) ;;;
  ret (run pool op).

(** [pool?.op()] *)
Definition callPoolOpt (run : Outcomes) (op : PoolCall) (pool : option nat) : M Promise :=
  match pool with
  | Some r => callPool run op r
  | None => ret settledNow
  end.

(** [for (const x of xs) promises.push(f(x))] *)
Fixpoint forEach {A B} (f : A -> M B) (xs : list A) : M (list B) :=
  match xs with
  | [] => ret []
  | x :: rest =>
      y <~ f x ;;
      ys <~ forEach f rest ;;
      ret (y :: ys)
  end.

(** ** packages/core/src/abstract-dialect/base-replication-pool.ts *)

Module BaseReplicationPoolConfig.

Record t : Type := {
  readConfig : option (list nat);
  writeConfig : nat;
  pool : ReplicationPoolOptions;
  timeoutErrorClass : option string;
  connect : Connect;
  disconnect : nat -> option JsError;
  validate : nat -> bool;
  (** the hook receives the cloned options object and may write to it *)
  beforeAcquire :
    option (AcquireConnectionOptions -> Completion AcquireConnectionOptions);
  afterAcquire : option (nat -> AcquireConnectionOptions -> option JsError);
}.

End BaseReplicationPoolConfig.

(** ** packages/core/src/abstract-dialect/replication-pool.ts *)

Module ReplicationPool.

Module Config := BaseReplicationPoolConfig.

Record t : Type := {
  read : option nat;
  write : nat;
  timeoutErrorClass : option string;
  beforeAcquire :
    option (AcquireConnectionOptions -> Completion AcquireConnectionOptions);
  afterAcquire : option (nat -> AcquireConnectionOptions -> option JsError);
}.

Definition new (config : Config.t) : M t :=
  read <~ match Config.readConfig config with
          | None | Some [] => ret None
          | Some readConfig =>
              r <~ SubPool.new
                     (poolOf "sequelize:read"
                        (RPReadCreate (Config.connect config) readConfig 0)
                        (Config.disconnect config) (Config.validate config)
                        (Config.pool config)) ;;
              ret (Some r)
          end ;;
  write <~ SubPool.new
             (poolOf "sequelize:write"
                (RPWriteCreate (Config.connect config) (Config.writeConfig config))
                (Config.disconnect config) (Config.validate config)
                (Config.pool config)) ;;
  ret {| read := read; write := write;
         timeoutErrorClass := Config.timeoutErrorClass config;
         beforeAcquire := Config.beforeAcquire config;
         afterAcquire := Config.afterAcquire config |}.

(** [options = options ? shallowClonePojo(options) : pojo();
     await this.beforeAcquire?.(options)]: the options as they stand when
    the hook has run. *)
Definition hookedOptions (this : t) (options : option AcquireConnectionOptions)
  : Completion AcquireConnectionOptions :=
  let options :=
    match options with
    | Some o => o
    | None => {| type := None; useMaster := None |}
    end in
  match beforeAcquire this with
  | Some hook => hook options
  | None => Normal options
  end.

(** [this.read != null && type === 'read' && !useMaster ? this.read : this.write] *)
Definition selectPool (this : t) (type : string) (useMaster : bool) : nat :=
  match read this with
  | Some rd => if (type =? "read") && negb useMaster then rd else write this
  | None => write this
  end.

(** the [catch] clause around [pool.acquire()] *)
Definition rethrow (this : t) (error : JsError) : M nat :=
  match timeoutErrorClass this with
  | Some cls =>
      if instanceofTimeoutError error then
        throw (CustomError cls (message_of error) error)
      else throw error
  | None => throw error
  end.

Definition acquire (this : t) (options : option AcquireConnectionOptions) : M nat :=
  options <~ lift (hookedOptions this options) ;;
  let useMaster := default false (useMaster options) in
  let type := default "write" (type options) in
  if negb (type =? "read") && negb (type =? "write") then
    throw (Error ("Expected queryType to be either read or write. Received " +:+ type))
  else
    let pool := selectPool this type useMaster in
    connection <~ try_catch (SubPool.acquire pool) (rethrow this) ;;
    match afterAcquire this with
    | Some hook =>
        match hook connection options with
        | Some e => throw e
        | None => ret tt
        end
    | None => ret tt
    end ;;;
    ret connection.

Definition getPool (this : t) (poolType : string) : nat :=
  match read this with
  | Some rd => if poolType =? "read" then rd else write this
  | None => write this
  end.

Definition unknownConnection : JsError :=
  Error "Unable to determine to which pool the connection belongs".

(** [!connectionType]: absent, or the empty string *)
Definition falsy (v : option string) : bool :=
  match v with
  | None => true
  | Some s => s =? ""
  end.

Definition release (this : t) (connection : nat) : M unit :=
  connectionType <~ gets (fun w => owningPools w !! connection) ;;
  if falsy connectionType then throw unknownConnection
  else SubPool.release (getPool this (default "" connectionType)) connection.

Definition destroy (this : t) (connection : nat) : M unit :=
  connectionType <~ gets (fun w => owningPools w !! connection) ;;
  if falsy connectionType then throw unknownConnection
  else SubPool.destroy (getPool this (default "" connectionType)) connection.

(** [(this.read?.size ?? 0) + this.write.size] and its siblings *)
Definition aggregate (f : Pool.t -> nat) (this : t) (w : World) : nat :=
  match read this with
  | Some rd => SubPool.counter f rd w
  | None => 0
  end + SubPool.counter f (write this) w.

Definition size := aggregate Pool.size.
Definition available := aggregate Pool.available.
Definition using_ := aggregate Pool.using_.
Definition waiting := aggregate Pool.waiting.

(** [await Promise.all([this.read?.destroyAllNow(), this.write.destroyAllNow()])] *)
Definition destroyAllNow (run : Outcomes) (this : t) : M Promise :=
  r <~ callPoolOpt run CallDestroyAllNow (read this) ;;
  w <~ callPool run CallDestroyAllNow (write this) ;;
  ret (Promise_all [r; w]).

(** [await Promise.all([this.write.drain(), this.read?.drain()])] *)
Definition drain (run : Outcomes) (this : t) : M Promise :=
  w <~ callPool run CallDrain (write this) ;;
  r <~ callPoolOpt run CallDrain (read this) ;;
  ret (Promise_all [w; r]).

End ReplicationPool.

(** ** packages/core/src/dialects/abstract/replication-pool.ts *)

Module LegacyReplicationPool.

Module Config.
Record t : Type := {
  readConfig : option (list nat);
  writeConfig : nat;
  pool : ReplicationPoolOptions;
  connect : Connect;
  disconnect : nat -> option JsError;
  validate : nat -> bool;
}.
End Config.

Record t : Type := {
  read : option nat;
  write : nat;
}.

Definition new (config : Config.t) : M t :=
  read <~ match Config.readConfig config with
          | None | Some [] => ret None
          | Some readConfig =>
              r <~ SubPool.new
                     (poolOf "sequelize:read"
                        (RPReadCreate (Config.connect config) readConfig 0)
                        (Config.disconnect config) (Config.validate config)
                        (Config.pool config)) ;;
              ret (Some r)
          end ;;
  write <~ SubPool.new
             (poolOf "sequelize:write"
                (RPWriteCreate (Config.connect config) (Config.writeConfig config))
                (Config.disconnect config) (Config.validate config)
                (Config.pool config)) ;;
  ret {| read := read; write := write |}.

Definition acquire (this : t) (options : AcquireConnectionOptions) : M nat :=
  let type := default "write" (type options) in
  let useMaster := default false (useMaster options) in
  if negb (type =? "read") && negb (type =? "write") then
    throw (Error ("Expected queryType to be either read or write. Received " +:+ type))
  else
    match read this with
    | Some rd =>
        if (type =? "read") && negb useMaster then SubPool.acquire rd
        else SubPool.acquire (write this)
    | None => SubPool.acquire (write this)
    end.

Definition getPool (this : t) (poolType : string) : nat :=
  match read this with
  | Some rd => if poolType =? "read" then rd else write this
  | None => write this
  end.

Definition release (this : t) (connection : nat) : M unit :=
  connectionType <~ gets (fun w => owningPools w !! connection) ;;
  if ReplicationPool.falsy connectionType then
    throw ReplicationPool.unknownConnection
  else SubPool.release (getPool this (default "" connectionType)) connection.

Definition destroy (this : t) (connection : nat) : M unit :=
  connectionType <~ gets (fun w => owningPools w !! connection) ;;
  if ReplicationPool.falsy connectionType then
    throw ReplicationPool.unknownConnection
  else SubPool.destroy (getPool this (default "" connectionType)) connection.

End LegacyReplicationPool.

(** ** JavaScript [Map] with string keys

    Insertion ordered: [set] on a present key replaces the value in place,
    on a new key appends; [values()] iterates in that order. *)

Module JsMap.

Definition t (V : Type) : Type := list (string * V).

Fixpoint set {V} (k : string) (v : V) (m : t V) : t V :=
  match m with
  | [] => [(k, v)]
  | (k', v') :: m' =>
      if k =? k' then (k, v) :: m' else (k', v') :: set k v m'
  end.

Fixpoint get {V} (k : string) (m : t V) : option V :=
  match m with
  | [] => None
  | (k', v') :: m' => if k =? k' then Some v' else get k m'
  end.

Definition values {V} (m : t V) : list V := map snd m.

End JsMap.

(** ** packages/core/src/dialects/abstract/sharded-replication-pool.ts *)

(** ['a:b:c'.split(':')] *)
Fixpoint split_colon (s : string) : list string :=
  match s with
  | EmptyString => [EmptyString]
  | String c rest =>
      if Ascii.eqb c ":"%char then EmptyString :: split_colon rest
      else
        match split_colon rest with
        | part :: parts => String c part :: parts
        | [] => [String c EmptyString]
        end
  end.

(** [const [type, shardId] = shardValue.split(':'); return [shardId, type]];
    an element the split does not have is [undefined]. *)
Definition shardValueToTuple (shardValue : string) : option string * option string :=
  let parts := split_colon shardValue in
  (parts !! 1, parts !! 0).

Module ShardConfig.
Record t : Type := {
  shardId : string;
  readConfig : option (list nat);
  writeConfig : nat;
}.
End ShardConfig.

Module ShardedReplicationPoolConfig.
Record t : Type := {
  shards : list ShardConfig.t;
  pool : ReplicationPoolOptions;
  timeoutErrorClass : option string;
  connect : Connect;
  disconnect : nat -> option JsError;
  validate : nat -> bool;
  beforeAcquire :
    option (AcquireConnectionOptions -> Completion AcquireConnectionOptions);
  afterAcquire : option (nat -> AcquireConnectionOptions -> option JsError);
}.
End ShardedReplicationPoolConfig.

(** [String(x)] of a possibly absent string, as a template literal prints it *)
Definition show (x : option string) : string := default "undefined" x.

(** [connection.shardId = shardId] on a connection object *)
Definition write_connection_shardId (c : nat) (shardId : string) : M unit :=
  fun w =>
    match connectionObjects w !! c with
    | None => (Throw (TypeError "cannot set properties of undefined"), w)
    | Some _ =>
        (Normal tt,
         set_connectionObjects (insert c {| conn_shardId := Some shardId |}) w)
    end.

(** The parts the two revisions of the sharded pool share word for word. *)
Module ShardedCommon.

Module Config := ShardedReplicationPoolConfig.

(** The body of the constructor's [for (const shard of shards)] loop. *)
Definition addShard (connect : Connect) (disconnect : nat -> option JsError)
    (validate : nat -> bool) (pool : ReplicationPoolOptions)
    (maps : JsMap.t (option nat) * JsMap.t nat) (shard : ShardConfig.t)
  : M (JsMap.t (option nat) * JsMap.t nat) :=
  let '(read, write) := maps in
  let shardId := ShardConfig.shardId shard in
  read <~ match ShardConfig.readConfig shard with
          | None | Some [] => ret (JsMap.set shardId None read)
          | Some readConfig =>
              r <~ SubPool.new
                     (poolOf "sequelize:read"
                        (SRPReadCreate connect readConfig 0 shardId)
                        disconnect validate pool) ;;
              ret (JsMap.set shardId (Some r) read)
          end ;;
  w <~ SubPool.new
         (poolOf "sequelize:write"
            (SRPWriteCreate connect (ShardConfig.writeConfig shard) shardId)
            disconnect validate pool) ;;
  ret (read, JsMap.set shardId w write).

Fixpoint addShards (connect : Connect) (disconnect : nat -> option JsError)
    (validate : nat -> bool) (pool : ReplicationPoolOptions)
    (maps : JsMap.t (option nat) * JsMap.t nat) (shards : list ShardConfig.t)
  : M (JsMap.t (option nat) * JsMap.t nat) :=
  match shards with
  | [] => ret maps
  | shard :: rest =>
      maps' <~ addShard connect disconnect validate pool maps shard ;;
      addShards connect disconnect validate pool maps' rest
  end.

Definition unknownConnection : JsError :=
  Error "Unable to determine to which sharded pool the connection belongs".

(** [m.get(shardId)] where [shardId] may be [undefined]: no key is *)
Definition lookup {V} (shardId : option string) (m : JsMap.t V) : option V :=
  match shardId with
  | Some s => JsMap.get s m
  | None => None
  end.

(** [x?.f ?? 0] for a pool reference [x] that may be [null] *)
Definition counterOrZero (f : Pool.t -> nat) (x : option nat) (w : World) : nat :=
  match x with
  | Some r => SubPool.counter f r w
  | None => 0
  end.

(** The loops of the [size], [available], [using] and [waiting] getters. *)
Definition total (f : Pool.t -> nat) (read : JsMap.t (option nat))
    (write : JsMap.t nat) (w : World) : nat :=
  let acc :=
    fold_left (fun acc pool => acc + counterOrZero f pool w) (JsMap.values read) 0 in
  fold_left (fun acc pool => acc + SubPool.counter f pool w) (JsMap.values write) acc.

(** The two loops of [destroyAllNow] and of [drain], then
    [await Promise.all(promises)]. *)
Definition fanOut (run : Outcomes) (op : PoolCall) (read : JsMap.t (option nat))
    (write : JsMap.t nat) : M Promise :=
  rs <~ forEach (callPoolOpt run op) (JsMap.values read) ;;
  ws <~ forEach (callPool run op) (JsMap.values write) ;;
  ret (Promise_all (rs ++ ws)).

End ShardedCommon.

(** The earlier revision (first document of the file). *)
Module LegacyShardedReplicationPool.

Import ShardedCommon.

Record t : Type := {
  read : JsMap.t (option nat);
  write : JsMap.t nat;
}.

Definition new (config : Config.t) : M t :=
  maps <~ addShards (Config.connect config) (Config.disconnect config)
            (Config.validate config) (Config.pool config) ([], [])
            (Config.shards config) ;;
  ret {| read := fst maps; write := snd maps |}.

(** [this.read] is the map itself and never [null] *)
Definition getPool (this : t) (shardId : option string) (poolType : option string)
  : option nat :=
  if bool_decide (poolType = Some "read") then
    match lookup shardId (read this) with
    | Some (Some r) => Some r
    | _ => None
    end
  else lookup shardId (write this).

Definition acquire (this : t) (shardId : string) (options : AcquireConnectionOptions)
  : M nat :=
  let type := default "write" (type options) in
  let useMaster := default false (useMaster options) in
  if negb (type =? "read") && negb (type =? "write") then
    throw (Error ("Expected queryType to be either read or write. Received " +:+ type))
  else
    match getPool this (Some shardId) (Some type) with
    | None => throw (Error ("No " +:+ type +:+ " pool found for shard " +:+ shardId))
    | Some pool =>
        if (type =? "read") && negb useMaster then
          connection <~ SubPool.acquire pool ;;
          write_connection_shardId connection shardId ;;;
          ret connection
        else
          connection <~ SubPool.acquire pool ;;
          write_connection_shardId connection shardId ;;;
          ret connection
    end.

Definition release (this : t) (connection : nat) : M unit :=
  shardValue <~ gets (fun w => shardOwningPools w !! connection) ;;
  if ReplicationPool.falsy shardValue then throw unknownConnection
  else
    let '(shardId, type) := shardValueToTuple (default "" shardValue) in
    match getPool this shardId type with
    | Some pool => SubPool.release pool connection
    | None => ret tt
    end.

Definition destroy (this : t) (connection : nat) : M unit :=
  shardValue <~ gets (fun w => shardOwningPools w !! connection) ;;
  if ReplicationPool.falsy shardValue then throw unknownConnection
  else
    let '(shardId, type) := shardValueToTuple (default "" shardValue) in
    match getPool this shardId type with
    | Some pool => SubPool.destroy pool connection
    | None => ret tt
    end.

(** [getPool(read)?.f ?? 0 + (getPool(write)?.f ?? 0)]: [+] binds tighter
    than [??], so the sum is the right operand of [??]. *)
Definition shardCounter (f : Pool.t -> nat) (this : t) (shardId : string)
    (w : World) : nat :=
  match getPool this (Some shardId) (Some "read") with
  | Some r => SubPool.counter f r w
  | None => 0 + counterOrZero f (getPool this (Some shardId) (Some "write")) w
  end.

Definition shardSize := shardCounter Pool.size.
Definition shardAvailable := shardCounter Pool.available.
Definition shardUsing := shardCounter Pool.using_.
Definition shardWaiting := shardCounter Pool.waiting.

Definition size (this : t) := total Pool.size (read this) (write this).
Definition available (this : t) := total Pool.available (read this) (write this).
Definition using_ (this : t) := total Pool.using_ (read this) (write this).
Definition waiting (this : t) := total Pool.waiting (read this) (write this).

Definition destroyAllNow (run : Outcomes) (this : t) : M Promise :=
  fanOut run CallDestroyAllNow (read this) (write this).

Definition drain (run : Outcomes) (this : t) : M Promise :=
  fanOut run CallDrain (read this) (write this).

End LegacyShardedReplicationPool.

(** The later revision (second document of the file, and the unnamed part). *)
Module ShardedReplicationPool.

Import ShardedCommon.

Record t : Type := {
  read : JsMap.t (option nat);
  write : JsMap.t nat;
  timeoutErrorClass : option string;
  beforeAcquire :
    option (AcquireConnectionOptions -> Completion AcquireConnectionOptions);
  afterAcquire : option (nat -> AcquireConnectionOptions -> option JsError);
}.

(** The constructor reads [connect], [disconnect], [validate] and [shards]
    from the configuration; the three declared fields are never assigned. *)
Definition new (config : Config.t) : M t :=
  maps <~ addShards (Config.connect config) (Config.disconnect config)
            (Config.validate config) (Config.pool config) ([], [])
            (Config.shards config) ;;
  ret {| read := fst maps; write := snd maps;
         timeoutErrorClass := None; beforeAcquire := None;
         afterAcquire := None |}.

Definition getPool (this : t) (shardId : option string) (poolType : option string)
    (useMaster : bool) : option nat :=
  if bool_decide (poolType = Some "read") && negb useMaster then
    match lookup shardId (read this) with
    | Some (Some r) => Some r
    | _ => None
    end
  else lookup shardId (write this).

Definition acquire (this : t) (shardId : string) (options : AcquireConnectionOptions)
  : M nat :=
  if negb (bool_decide (type options = Some "read"))
     && negb (bool_decide (type options = Some "write")) then
    throw (Error ("Expected queryType to be either read or write. Received "
                  +:+ show (type options)))
  else
    match getPool this (Some shardId) (type options)
            (default false (useMaster options)) with
    | None =>
        throw (Error ("No " +:+ show (type options) +:+ " pool found for shard "
                      +:+ shardId))
    | Some pool =>
        connection <~ SubPool.acquire pool ;;
        write_connection_shardId connection shardId ;;;
        ret connection
    end.

Definition release (this : t) (connection : nat) : M unit :=
  shardValue <~ gets (fun w => shardOwningPools w !! connection) ;;
  if ReplicationPool.falsy shardValue then throw unknownConnection
  else
    let '(shardId, type) := shardValueToTuple (default "" shardValue) in
    match getPool this shardId type false with
    | Some pool => SubPool.release pool connection
    | None => ret tt
    end.

Definition destroy (this : t) (connection : nat) : M unit :=
  shardValue <~ gets (fun w => shardOwningPools w !! connection) ;;
  if ReplicationPool.falsy shardValue then throw unknownConnection
  else
    let '(shardId, type) := shardValueToTuple (default "" shardValue) in
    match getPool this shardId type false with
    | Some pool => SubPool.destroy pool connection
    | None => ret tt
    end.

Definition destroyAllNow (run : Outcomes) (this : t) : M Promise :=
  fanOut run CallDestroyAllNow (read this) (write this).

Definition drain (run : Outcomes) (this : t) : M Promise :=
  fanOut run CallDrain (read this) (write this).

(** [getPool({ read, useMaster: false })?.f ??
     0 + (getPool({ write, useMaster: true })?.f ?? 0)]: [+] binds tighter
    than [??]. *)
Definition shardCounter (f : Pool.t -> nat) (this : t) (shardId : string)
    (w : World) : nat :=
  match getPool this (Some shardId) (Some "read") false with
  | Some r => SubPool.counter f r w
  | None => 0 + counterOrZero f (getPool this (Some shardId) (Some "write") true) w
  end.

Definition shardSize := shardCounter Pool.size.
Definition shardAvailable := shardCounter Pool.available.
Definition shardUsing := shardCounter Pool.using_.
Definition shardWaiting := shardCounter Pool.waiting.

Definition size (this : t) := total Pool.size (read this) (write this).
Definition available (this : t) := total Pool.available (read this) (write this).
Definition using_ (this : t) := total Pool.using_ (read this) (write this).
Definition waiting (this : t) := total Pool.waiting (read this) (write this).

End ShardedReplicationPool.

(** ** Vocabulary of the properties *)

(** The role asked for is one of the two the runtime check lets through,
    [undefined] standing for the default ['write']. *)
Definition validType (o : AcquireConnectionOptions) : Prop :=
  default "write" (type o) = "read" \/ default "write" (type o) = "write".

(** The selection rule in words: the role is ['read'], a read pool exists,
    and [useMaster] is falsy. *)
Definition wantsRead (read : option nat) (o : AcquireConnectionOptions) : Prop :=
  type o = Some "read" /\ is_Some read /\ default false (useMaster o) = false.

(** A computation that leaves the log of pool calls alone. *)
Definition keepsPoolLog {A} (c : M A) : Prop :=
  forall w, poolLog (snd (c w)) = poolLog w.

(** [n] runs in a row of the [create] option of pool object [r], whatever
    each one's outcome. *)
Fixpoint createMany (n : nat) (r : nat) : M unit :=
  match n with
  | 0 => ret tt
  | S n' =>
      try_catch (SubPool.createResource r ;;; ret tt) (fun _ => ret tt) ;;;
      createMany n' r
  end.

(** The references passed to [connect] by the calls logged after the first
    [k] ones. *)
Definition connectedSince (k : nat) (w : World) : list nat :=
  map fst (drop k (connectLog w)).




(** What [Promise.all] is given for a pool reference that may be [null]. *)
Definition promiseOf (run : Outcomes) (op : PoolCall) (pool : option nat) : Promise :=
  match pool with
  | Some r => run r op
  | None => settledNow
  end.

(** The state once the pools among [calls] have received [op], in order. *)
Definition logCalls (op : PoolCall) (calls : list (option nat)) (w : World) : World :=
  fold_left
    (fun w pool =>
       match pool with
       | Some r => push_poolLog (r, op) w
       | None => w
       end)
    calls w.

(** How a fan-out of [op] over the pool objects satisfying [isPool] ends:
    every one of them has received [op]; the result is fulfilled only when
    every operation is, and then not before the last of them; it is
    rejected with the outcome of the operation that rejects first. *)
Definition fansOut (op : PoolCall) (run : Outcomes) (isPool : nat -> Prop)
    (w : World) (result : Completion Promise * World) : Prop :=
  exists p,
    fst result = Normal p
    /\ (forall r, isPool r -> (r, op) ∈ drop (length (poolLog w)) (poolLog (snd result)))
    /\ (outcome p = None ->
        forall r, isPool r ->
          outcome (run r op) = None /\ settledAt (run r op) <= settledAt p)
    /\ (forall e, outcome p = Some e ->
        exists r, isPool r /\ run r op = p
          /\ forall r', isPool r' -> is_Some (outcome (run r' op)) ->
               settledAt p <= settledAt (run r' op)).



(** ** Concrete configurations used to exercise the code *)

Module Scenario.

Definition okConnect : Connect := fun _ _ => None.
Definition okDisconnect : nat -> option JsError := fun _ => None.
Definition allValid : nat -> bool := fun _ => true.

Definition sizing (max : nat) : ReplicationPoolOptions :=
  {| opt_max := max; opt_min := 0; opt_idle := 100; opt_acquire := 50;
     opt_evict := 10; opt_maxUses := 100 |}.

(** Three option objects of the caller: a primary (0) and two replicas
    (1, 2), none with a [shardId] yet. *)
Definition heap : World :=
  set_nextRef 10
    (set_optionObjects
       (fun _ =>
          <[0 := {| host := "primary"; co_shardId := None |}]>
            (<[1 := {| host := "replica-a"; co_shardId := None |}]>
               (<[2 := {| host := "replica-b"; co_shardId := None |}]> ∅)))
       emptyWorld).

Definition replicated (max : nat) (cls : option string)
    (after : option (nat -> AcquireConnectionOptions -> option JsError))
  : BaseReplicationPoolConfig.t :=
  {| BaseReplicationPoolConfig.readConfig := Some [1; 2];
     BaseReplicationPoolConfig.writeConfig := 0;
     BaseReplicationPoolConfig.pool := sizing max;
     BaseReplicationPoolConfig.timeoutErrorClass := cls;
     BaseReplicationPoolConfig.connect := okConnect;
     BaseReplicationPoolConfig.disconnect := okDisconnect;
     BaseReplicationPoolConfig.validate := allValid;
     BaseReplicationPoolConfig.beforeAcquire := None;
     BaseReplicationPoolConfig.afterAcquire := after |}.

Definition legacyReplicated (max : nat) : LegacyReplicationPool.Config.t :=
  {| LegacyReplicationPool.Config.readConfig := Some [1; 2];
     LegacyReplicationPool.Config.writeConfig := 0;
     LegacyReplicationPool.Config.pool := sizing max;
     LegacyReplicationPool.Config.connect := okConnect;
     LegacyReplicationPool.Config.disconnect := okDisconnect;
     LegacyReplicationPool.Config.validate := allValid |}.

Definition sharded (max : nat) (cls : option string) (shards : list ShardConfig.t)
  : ShardedReplicationPoolConfig.t :=
  {| ShardedReplicationPoolConfig.shards := shards;
     ShardedReplicationPoolConfig.pool := sizing max;
     ShardedReplicationPoolConfig.timeoutErrorClass := cls;
     ShardedReplicationPoolConfig.connect := okConnect;
     ShardedReplicationPoolConfig.disconnect := okDisconnect;
     ShardedReplicationPoolConfig.validate := allValid;
     ShardedReplicationPoolConfig.beforeAcquire := None;
     ShardedReplicationPoolConfig.afterAcquire := None |}.

Definition shard (shardId : string) (readConfig : option (list nat)) (writeConfig : nat)
  : ShardConfig.t :=
  {| ShardConfig.shardId := shardId; ShardConfig.readConfig := readConfig;
     ShardConfig.writeConfig := writeConfig |}.

Definition asking (role : string) (master : bool) : AcquireConnectionOptions :=
  {| type := Some role; useMaster := Some master |}.

(** an [afterAcquire] hook that always rejects *)
Definition failingHook : nat -> AcquireConnectionOptions -> option JsError :=
  fun _ _ => Some (Error "afterAcquire failed").

(** the read pool's operation rejects at tick 1, every other one is
    fulfilled at tick 5 *)
Definition readFailsEarly (readPool : nat) : Outcomes :=
  fun pool _ =>
    if Nat.eqb pool readPool then
      {| settledAt := 1; outcome := Some (Error "disconnect failed") |}
    else {| settledAt := 5; outcome := None |}.

(** The replication pool that [new ReplicationPool(replicated ...)] builds
    on [heap]: read pool object 10, write pool object 11. *)
Definition rp (cls : option string)
    (after : option (nat -> AcquireConnectionOptions -> option JsError))
  : ReplicationPool.t :=
  {| ReplicationPool.read := Some 10; ReplicationPool.write := 11;
     ReplicationPool.timeoutErrorClass := cls;
     ReplicationPool.beforeAcquire := None;
     ReplicationPool.afterAcquire := after |}.

Definition rpWorld (max : nat) : World :=
  snd (ReplicationPool.new (replicated max None None) heap).

Definition legacyRp : LegacyReplicationPool.t :=
  {| LegacyReplicationPool.read := Some 10; LegacyReplicationPool.write := 11 |}.

Definition legacyRpWorld (max : nat) : World :=
  snd (LegacyReplicationPool.new (legacyReplicated max) heap).

(** One shard without read backends ([readConfig] absent). *)
Definition unreplicatedShards : list ShardConfig.t := [shard "s1" None 0].

(** The same with an empty [readConfig] array. *)
Definition emptyReadShards : list ShardConfig.t := [shard "s1" (Some []) 0].

(** One shard with two read backends. *)
Definition replicatedShards : list ShardConfig.t := [shard "s1" (Some [1; 2]) 0].

(** [new ShardedReplicationPool(config)], then the given calls. *)
Definition onSharded {A} (config : ShardedReplicationPoolConfig.t)
    (calls : ShardedReplicationPool.t -> M A) : Completion A * World :=
  (this <~ ShardedReplicationPool.new config ;; calls this) heap.

Definition onLegacySharded {A} (config : ShardedReplicationPoolConfig.t)
    (calls : LegacyShardedReplicationPool.t -> M A) : Completion A * World :=
  (this <~ LegacyShardedReplicationPool.new config ;; calls this) heap.

Definition onReplicated {A} (config : BaseReplicationPoolConfig.t)
    (calls : ReplicationPool.t -> M A) : Completion A * World :=
  (this <~ ReplicationPool.new config ;; calls this) heap.

(** A second sharded manager in the same module: the first one, for shard
    [s2], creates connection 11; the second one knows shard [s1] only. *)
Definition twoManagers : Completion (ShardedReplicationPool.t * nat) * World :=
  (first <~ ShardedReplicationPool.new (sharded 5 None [shard "s2" None 0]) ;;
   c <~ ShardedReplicationPool.acquire first "s2" (asking "write" false) ;;
   second <~ ShardedReplicationPool.new (sharded 5 None unreplicatedShards) ;;
   ret (second, c)) heap.

Definition secondManager : ShardedReplicationPool.t :=
  {| ShardedReplicationPool.read := [("s1", None)];
     ShardedReplicationPool.write := [("s1", 12)];
     ShardedReplicationPool.timeoutErrorClass := None;
     ShardedReplicationPool.beforeAcquire := None;
     ShardedReplicationPool.afterAcquire := None |}.



(** The state once [new ShardedReplicationPool] has run for
    [replicatedShards]: read pool object 10, write pool object 11. *)
Definition shardedWorld : World :=
  snd (onSharded (sharded 5 None replicatedShards) (fun _ => ret tt)).

End Scenario.

(** ** packages/core/src/dialects/abstract/shard-pool.ts *)

Module ShardPool.

(** [ReplicationPoolConfig<Resource> & { shardId: string }] *)
Record ShardConfig : Type := {
  shardId : string;
  config : LegacyReplicationPool.Config.t;
}.

Record t : Type := {
  shards : JsMap.t LegacyReplicationPool.t;
}.

(** The constructor's loop:
    [this.shards.set(shardConfig.shardId, new ReplicationPool({ ...shardConfig }))] *)
Fixpoint addShards (shards : JsMap.t LegacyReplicationPool.t)
    (configs : list ShardConfig) : M (JsMap.t LegacyReplicationPool.t) :=
  match configs with
  | [] => ret shards
  | shardConfig :: rest =>
      pool <~ LegacyReplicationPool.new (config shardConfig) ;;
      addShards (JsMap.set (shardId shardConfig) pool shards) rest
  end.

Definition new (configs : list ShardConfig) : M t :=
  shards <~ addShards [] configs ;;
  ret {| shards := shards |}.

(** [this.shards.get(shardId) ?? null] *)
Definition getShardPool (this : t) (shardId : string)
  : option LegacyReplicationPool.t :=
  JsMap.get shardId (shards this).

End ShardPool.

(** ** Vocabulary of the further properties *)

(** The registry a [create] closure records its connections in: the
    [owningPools] of its own module. *)
Definition registryOf (cl : CreateClosure) (w : World) : gmap nat string :=
  match cl with
  | RPReadCreate _ _ _ | RPWriteCreate _ _ => owningPools w
  | SRPReadCreate _ _ _ _ | SRPWriteCreate _ _ _ => shardOwningPools w
  end.

(** The value it records them under. *)
Definition tagOf (cl : CreateClosure) : string :=
  match cl with
  | RPReadCreate _ _ _ => "read"
  | RPWriteCreate _ _ => "write"
  | SRPReadCreate _ _ _ shardId => "read:" +:+ shardId
  | SRPWriteCreate _ _ shardId => "write:" +:+ shardId
  end.

Definition isSharded (cl : CreateClosure) : bool :=
  match cl with
  | RPReadCreate _ _ _ | RPWriteCreate _ _ => false
  | SRPReadCreate _ _ _ _ | SRPWriteCreate _ _ _ => true
  end.

(** The registry of the replication pool's module, or of the sharded
    pool's. *)
Definition registryFor (sharded : bool) (w : World) : gmap nat string :=
  if sharded then shardOwningPools w else owningPools w.

(** The part of the state the pools and registries live in. *)
Definition heapOf (w : World) :=
  (optionObjects w, connectionObjects w, poolObjects w, owningPools w,
   shardOwningPools w, nextRef w, connectLog w, poolLog w).

(** Pool object [r] is consistent with the registry: its closure records
    under [tag], it holds no connection twice, and every connection it
    holds is an allocated reference recorded under [tag]. *)
Definition poolOk (sharded : bool) (tag : string) (w : World) (r : nat) : Prop :=
  exists p,
    poolObjects w !! r = Some p
    /\ isSharded (Pool.create p) = sharded
    /\ tagOf (Pool.create p) = tag
    /\ NoDup (Pool.availableObjects p ++ Pool.inUseObjects p)
    /\ forall c, c ∈ Pool.availableObjects p ++ Pool.inUseObjects p ->
         c < nextRef w /\ registryOf (Pool.create p) w !! c = Some tag.

(** The state of a replication pool is consistent: two distinct pool
    objects, each consistent with [owningPools]. *)
Definition replicationOk (read : option nat) (write : nat) (w : World) : Prop :=
  read ≠ Some write
  /\ poolOk false "write" w write
  /\ forall rd, read = Some rd -> poolOk false "read" w rd.

(** The pool object that holds connection [c] checked out, if one of the two
    does. *)
Definition checkedOutOf (r : nat) (c : nat) (w : World) : Prop :=
  exists p, poolObjects w !! r = Some p /\ c ∈ Pool.inUseObjects p.

(** No [':'] in the string. *)
Fixpoint colonFree (s : string) : bool :=
  match s with
  | EmptyString => true
  | String c rest => negb (Ascii.eqb c ":"%char) && colonFree rest
  end.

(** The part of a string before its first [':']. *)
Definition beforeColon (s : string) : string :=
  hd "" (split_colon s).

(** The last entry of [shards] for [shardId]: the one whose pools the
    constructor's maps end up holding. *)
Fixpoint lastShard (shardId : string) (shards : list ShardConfig.t)
  : option ShardConfig.t :=
  match shards with
  | [] => None
  | shard :: rest =>
      match lastShard shardId rest with
      | Some later => Some later
      | None =>
          if shardId =? ShardConfig.shardId shard then Some shard else None
      end
  end.

(** What the sharded constructor leaves for one shard entry: a write pool
    object, and a read pool object exactly when [readConfig] is a non-empty
    array; both fresh, empty, and closed over the shard's id. *)
Definition shardBuilt (config : ShardedReplicationPoolConfig.t) (shard : ShardConfig.t)
    (readEntry : option (option nat)) (writeEntry : option nat) (w : World) : Prop :=
  let mk name create :=
    poolOf name create (ShardedReplicationPoolConfig.disconnect config)
      (ShardedReplicationPoolConfig.validate config)
      (ShardedReplicationPoolConfig.pool config) in
  exists wr,
    writeEntry = Some wr
    /\ poolObjects w !! wr
       = Some (mk "sequelize:write"
                 (SRPWriteCreate (ShardedReplicationPoolConfig.connect config)
                    (ShardConfig.writeConfig shard) (ShardConfig.shardId shard)))
    /\ match ShardConfig.readConfig shard with
       | None | Some [] => readEntry = Some None
       | Some readConfig =>
           exists rd,
             readEntry = Some (Some rd)
             /\ rd ≠ wr
             /\ poolObjects w !! rd
                = Some (mk "sequelize:read"
                          (SRPReadCreate (ShardedReplicationPoolConfig.connect config)
                             readConfig 0 (ShardConfig.shardId shard)))
       end.

(** What [acquire] returns, given the outcome [r] of the selected pool's
    [acquire]: the [catch] clause on a failure, the [afterAcquire] hook on a
    success. *)
Definition settle (this : ReplicationPool.t) (o : AcquireConnectionOptions)
    (r : Completion nat) : Completion nat :=
  match r with
  | Throw e =>
      match ReplicationPool.timeoutErrorClass this with
      | Some cls =>
          if instanceofTimeoutError e then Throw (CustomError cls (message_of e) e)
          else Throw e
      | None => Throw e
      end
  | Normal c =>
      match ReplicationPool.afterAcquire this with
      | Some hook =>
          match hook c o with
          | Some e => Throw e
          | None => Normal c
          end
      | None => Normal c
      end
  end.

(** The pool references a sharded pool's maps hold. *)
Definition shardedRefs (read : JsMap.t (option nat)) (write : JsMap.t nat) : list nat :=
  omap id (JsMap.values read) ++ JsMap.values write.

(** The state of a sharded pool is consistent: the read pool of shard [s]
    is consistent with the registry under [read:s], its write pool under
    [write:s]. *)
Definition shardedOk (read : JsMap.t (option nat)) (write : JsMap.t nat)
    (w : World) : Prop :=
  (forall s rd, JsMap.get s read = Some (Some rd) -> poolOk true ("read:" +:+ s) w rd)
  /\ (forall s wr, JsMap.get s write = Some wr -> poolOk true ("write:" +:+ s) w wr).

(** The end of the sharded [acquire], once the pool is found:
    [const connection = await pool.acquire(); connection.shardId = shardId;
     return connection]. *)
Definition handOut (pool : nat) (shardId : string) : M nat :=
  connection <~ SubPool.acquire pool ;;
  write_connection_shardId connection shardId ;;;
  ret connection.

(** A pool object nobody has used yet. *)
Definition untouched (w : World) (r : nat) : Prop :=
  exists p,
    poolObjects w !! r = Some p
    /\ Pool.availableObjects p = [] /\ Pool.inUseObjects p = []
    /\ Pool.pendingAcquires p = 0.

(** The read pool of shard [s], when the map has one. *)
Definition readPoolOf (read : JsMap.t (option nat)) (s : string) : option nat :=
  match JsMap.get s read with
  | Some (Some rd) => Some rd
  | _ => None
  end.

(** The last entry of a [ShardPool] configuration for [shardId]. *)
Fixpoint lastConfig (shardId : string) (configs : list ShardPool.ShardConfig)
  : option ShardPool.ShardConfig :=
  match configs with
  | [] => None
  | shardConfig :: rest =>
      match lastConfig shardId rest with
      | Some later => Some later
      | None =>
          if shardId =? ShardPool.shardId shardConfig then Some shardConfig else None
      end
  end.

(** The earlier revision's pool over the same two SubPools. *)
Definition earlier (this : ReplicationPool.t) : LegacyReplicationPool.t :=
  {| LegacyReplicationPool.read := ReplicationPool.read this;
     LegacyReplicationPool.write := ReplicationPool.write this |}.

(** The earlier revision's configuration with the same fields. *)
Definition earlierConfig (config : BaseReplicationPoolConfig.t)
  : LegacyReplicationPool.Config.t :=
  {| LegacyReplicationPool.Config.readConfig := BaseReplicationPoolConfig.readConfig config;
     LegacyReplicationPool.Config.writeConfig :=
       BaseReplicationPoolConfig.writeConfig config;
     LegacyReplicationPool.Config.pool := BaseReplicationPoolConfig.pool config;
     LegacyReplicationPool.Config.connect := BaseReplicationPoolConfig.connect config;
     LegacyReplicationPool.Config.disconnect :=
       BaseReplicationPoolConfig.disconnect config;
     LegacyReplicationPool.Config.validate := BaseReplicationPoolConfig.validate config |}.

(** The earlier revision's sharded pool over the same two maps. *)
Definition earlierSharded (this : ShardedReplicationPool.t)
  : LegacyShardedReplicationPool.t :=
  {| LegacyShardedReplicationPool.read := ShardedReplicationPool.read this;
     LegacyShardedReplicationPool.write := ShardedReplicationPool.write this |}.

(** The options [acquire] starts from:
    [options ? shallowClonePojo(options) : pojo()], a copy of the caller's
    options, or an empty object. *)
Definition requested (options : option AcquireConnectionOptions)
  : AcquireConnectionOptions :=
  default {| type := None; useMaster := None |} options.





(** Modelled from the spec: a sizing the [Pool] constructor accepts
    (section 3: [0 <= min <= max], [max] positive); for any other it
    throws. *)
Definition acceptedSizing (pool : ReplicationPoolOptions) : Prop :=
  0 < opt_max pool /\ opt_min pool <= opt_max pool.

(** ** Further configurations used to exercise the code *)

Module Cases.

(** The sharded pool that [new ShardedReplicationPool] builds for
    [Scenario.replicatedShards]: read pool object 10, write pool object 11. *)
Definition manager : ShardedReplicationPool.t :=
  {| ShardedReplicationPool.read := [("s1", Some 10)];
     ShardedReplicationPool.write := [("s1", 11)];
     ShardedReplicationPool.timeoutErrorClass := None;
     ShardedReplicationPool.beforeAcquire := None;
     ShardedReplicationPool.afterAcquire := None |}.

Definition legacyManager : LegacyShardedReplicationPool.t :=
  {| LegacyShardedReplicationPool.read := [("s1", Some 10)];
     LegacyShardedReplicationPool.write := [("s1", 11)] |}.

(** One shard whose id holds a [':'], without read backends. *)
Definition colonShards : list ShardConfig.t := [Scenario.shard "eu:1" None 0].

Definition colonManager : ShardedReplicationPool.t :=
  {| ShardedReplicationPool.read := [("eu:1", None)];
     ShardedReplicationPool.write := [("eu:1", 10)];
     ShardedReplicationPool.timeoutErrorClass := None;
     ShardedReplicationPool.beforeAcquire := None;
     ShardedReplicationPool.afterAcquire := None |}.

Definition colonWorld : World :=
  snd (Scenario.onSharded (Scenario.sharded 5 None colonShards) (fun _ => ret tt)).

(** A replication pool whose [beforeAcquire] hook always rejects. *)
Definition guarded : ReplicationPool.t :=
  {| ReplicationPool.read := Some 10; ReplicationPool.write := 11;
     ReplicationPool.timeoutErrorClass := None;
     ReplicationPool.beforeAcquire := Some (fun _ => Throw (Error "beforeAcquire failed"));
     ReplicationPool.afterAcquire := None |}.

(** [acquire({ type: 'write' })] on the fresh replication pool. *)
Definition writeAcquired : Completion nat * World :=
  ReplicationPool.acquire (Scenario.rp None None) (Some (Scenario.asking "write" false))
    (Scenario.rpWorld 5).

(** [acquire({ shardId, type: 'read' })] on the fresh sharded pool. *)
Definition readAcquired : Completion nat * World :=
  ShardedReplicationPool.acquire manager "s1" (Scenario.asking "read" false)
    Scenario.shardedWorld.

Definition colonAcquired : Completion nat * World :=
  ShardedReplicationPool.acquire colonManager "eu:1" (Scenario.asking "write" false)
    colonWorld.

(** A replication pool whose [beforeAcquire] hook sets the role to
    ['write'] on the options it is given. *)
Definition rewriting : ReplicationPool.t :=
  {| ReplicationPool.read := Some 10; ReplicationPool.write := 11;
     ReplicationPool.timeoutErrorClass := None;
     ReplicationPool.beforeAcquire :=
       Some (fun o => Normal {| type := Some "write"; useMaster := useMaster o |});
     ReplicationPool.afterAcquire := None |}.



(** Two sharded managers in the same module: the first one, for shard
    [eu:1], creates connection 11; the second one has a shard [eu]. *)
Definition prefixManagers : Completion (ShardedReplicationPool.t * nat) * World :=
  (first <~ ShardedReplicationPool.new (Scenario.sharded 5 None colonShards) ;;
   c <~ ShardedReplicationPool.acquire first "eu:1" (Scenario.asking "write" false) ;;
   second <~ ShardedReplicationPool.new
               (Scenario.sharded 5 None [Scenario.shard "eu" None 0]) ;;
   ret (second, c)) Scenario.heap.

Definition prefixManager : ShardedReplicationPool.t :=
  {| ShardedReplicationPool.read := [("eu", None)];
     ShardedReplicationPool.write := [("eu", 12)];
     ShardedReplicationPool.timeoutErrorClass := None;
     ShardedReplicationPool.beforeAcquire := None;
     ShardedReplicationPool.afterAcquire := None |}.


Definition prefixWorld : World := snd prefixManagers.

(** An entry of a [ShardPool] configuration without read backends. *)
Definition unreplicated (shardId : string) : ShardPool.ShardConfig :=
  {| ShardPool.shardId := shardId;
     ShardPool.config :=
       {| LegacyReplicationPool.Config.readConfig := None;
          LegacyReplicationPool.Config.writeConfig := 0;
          LegacyReplicationPool.Config.pool := Scenario.sizing 5;
          LegacyReplicationPool.Config.connect := Scenario.okConnect;
          LegacyReplicationPool.Config.disconnect := Scenario.okDisconnect;
          LegacyReplicationPool.Config.validate := Scenario.allValid |} |}.

End Cases.

(** * Properties *)

(** ** The log of pool calls *)

Lemma keeps_ret {A} (a : A) : keepsPoolLog (ret a).
Proof. by intros w. Qed.

Lemma keeps_throw {A} e : keepsPoolLog (@throw A e).
Proof. by intros w. Qed.

Lemma keeps_lift {A} (c : Completion A) : keepsPoolLog (lift c).
Proof. by intros w. Qed.

Lemma keeps_gets {A} (f : World -> A) : keepsPoolLog (gets f).
Proof. by intros w. Qed.

Lemma keeps_bind {A B} (c : M A) (k : A -> M B) :
  keepsPoolLog c -> (forall a, keepsPoolLog (k a)) -> keepsPoolLog (bind c k).
Proof.
  intros Hc Hk w. unfold bind. specialize (Hc w).
  destruct (c w) as [[a|e] w1]; simpl in *; [|done].
  by rewrite Hk.
Qed.

Lemma keeps_try_catch {A} (c : M A) (h : JsError -> M A) :
  keepsPoolLog c -> (forall e, keepsPoolLog (h e)) -> keepsPoolLog (try_catch c h).
Proof.
  intros Hc Hh w. unfold try_catch. specialize (Hc w).
  destruct (c w) as [[a|e] w1]; simpl in *; [done|].
  by rewrite Hh.
Qed.

Lemma keeps_modify (f : World -> World) :
  (forall w, poolLog (f w) = poolLog w) -> keepsPoolLog (modify f).
Proof. intros Hf w. apply Hf. Qed.

Lemma keeps_call_connect connect o : keepsPoolLog (call_connect connect o).
Proof.
  intros w. unfold call_connect.
  destruct (optionObjects w !! o); [|done].
  by destruct (connect _ _).
Qed.

Lemma keeps_write_options_shardId o s : keepsPoolLog (write_options_shardId o s).
Proof. intros w. unfold write_options_shardId. by destruct (optionObjects w !! o). Qed.

Lemma keeps_write_connection_shardId c s : keepsPoolLog (write_connection_shardId c s).
Proof. intros w. unfold write_connection_shardId. by destruct (connectionObjects w !! c). Qed.

Create HintDb keeps.
#[export] Hint Resolve keeps_ret keeps_throw keeps_lift keeps_gets keeps_call_connect
  keeps_write_options_shardId keeps_write_connection_shardId : keeps.

Ltac keeps :=
  repeat first
    [ solve [eauto with keeps]
    | apply keeps_modify; by intros []
    | apply keeps_bind; [|intros ?]
    | apply keeps_try_catch; [|intros ?]
    | case_match ].

Lemma keeps_runCreate cl : keepsPoolLog (snd (runCreate cl)).
Proof. destruct cl; simpl; keeps. Qed.

Lemma keeps_deref r : keepsPoolLog (SubPool.deref r).
Proof. intros w. unfold SubPool.deref. by destruct (poolObjects w !! r). Qed.

Lemma keeps_store r p : keepsPoolLog (SubPool.store r p).
Proof. by intros []. Qed.

Lemma keeps_destroyInvalid bad : keepsPoolLog (SubPool.destroyInvalid bad).
Proof. induction bad; simpl; keeps. Qed.

#[export] Hint Resolve keeps_runCreate keeps_deref keeps_store keeps_destroyInvalid : keeps.

Lemma keeps_createResource r : keepsPoolLog (SubPool.createResource r).
Proof.
  unfold SubPool.createResource. apply keeps_bind; [eauto with keeps|].
  intros p. pose proof (keeps_runCreate (Pool.create p)) as H.
  destruct (runCreate (Pool.create p)) as [cl body]. simpl in H. keeps.
Qed.
#[export] Hint Resolve keeps_createResource : keeps.

(** A pool's [acquire] is logged once, whatever its outcome. *)
Lemma acquire_poolLog r w :
  poolLog (snd (SubPool.acquire r w)) = poolLog w ++ [(r, CallAcquire)].
Proof.
  unfold SubPool.acquire. unfold bind at 1. simpl.
  match goal with
  | |- poolLog (snd (?c ?w')) = _ =>
      change (poolLog w ++ [(r, CallAcquire)]) with (poolLog w');
      generalize w'; change (keepsPoolLog c)
  end.
  keeps.
Qed.

(** A connection handed out by a pool is among that pool's checked-out
    connections. *)
Lemma acquire_checked_out r w c w1 :
  SubPool.acquire r w = (Normal c, w1) ->
  exists p, poolObjects w1 !! r = Some p /\ c ∈ Pool.inUseObjects p.
Proof.
  unfold SubPool.acquire, bind, modify, SubPool.store, ret, throw. simpl.
  intros H.
  repeat (case_match; simplify_eq/=);
    eexists; (split; [apply lookup_insert_eq|]); simpl; set_solver.
Qed.

(** ** Which pool serves an [acquire] *)

Lemma selectPool_read_iff this o :
  validType o ->
  ReplicationPool.read this ≠ Some (ReplicationPool.write this) ->
  let pool :=
    ReplicationPool.selectPool this (default "write" (type o))
      (default false (useMaster o)) in
  (ReplicationPool.read this = Some pool <-> wantsRead (ReplicationPool.read this) o)
  /\ (pool = ReplicationPool.write this <-> ~ wantsRead (ReplicationPool.read this) o).
Proof.
  intros Hty Hne. unfold ReplicationPool.selectPool, wantsRead, is_Some.
  destruct o as [ty um]; simpl in *.
  destruct (ReplicationPool.read this) as [rd|] eqn:Hrd; simpl.
  - assert (rd ≠ ReplicationPool.write this) as Hrw by congruence.
    assert (exists x : nat, Some rd = Some x) as Hex by eauto.
    destruct ty as [ty|]; simpl in *;
      [destruct (String.eqb_spec ty "read") as [->|Hr]; simpl;
       [destruct um as [[]|]; simpl|]|];
      intuition (eauto; congruence).
  - assert (~ exists x : nat, None = Some x) as Hno by (intros [x Hx]; discriminate).
    intuition congruence.
Qed.

Lemma valid_passes_check o :
  validType o ->
  negb (default "write" (type o) =? "read")
  && negb (default "write" (type o) =? "write") = false.
Proof. intros [->| ->]; reflexivity. Qed.

Lemma acquire_log_new this options o w :
  ReplicationPool.hookedOptions this options = Normal o ->
  validType o ->
  poolLog (snd (ReplicationPool.acquire this options w))
  = poolLog w
    ++ [(ReplicationPool.selectPool this (default "write" (type o))
           (default false (useMaster o)), CallAcquire)].
Proof.
  intros Hh Hty. unfold ReplicationPool.acquire.
  rewrite Hh. unfold bind at 1, lift. simpl.
  rewrite (valid_passes_check o Hty).
  set (pool := ReplicationPool.selectPool _ _ _).
  unfold bind at 1, try_catch.
  pose proof (acquire_poolLog pool w) as Hlog.
  destruct (SubPool.acquire pool w) as [[c|e] w1]; simpl in *.
  - rewrite <- Hlog.
    match goal with |- poolLog (snd (?c w1)) = _ => generalize w1; change (keepsPoolLog c) end.
    keeps.
  - rewrite <- Hlog. unfold ReplicationPool.rethrow.
    destruct (ReplicationPool.timeoutErrorClass this); [|done].
    by destruct (instanceofTimeoutError e).
Qed.

Lemma acquire_log_legacy this o w :
  validType o ->
  exists pool,
    poolLog (snd (LegacyReplicationPool.acquire this o w))
    = poolLog w ++ [(pool, CallAcquire)]
    /\ pool = ReplicationPool.selectPool
                {| ReplicationPool.read := LegacyReplicationPool.read this;
                   ReplicationPool.write := LegacyReplicationPool.write this;
                   ReplicationPool.timeoutErrorClass := None;
                   ReplicationPool.beforeAcquire := None;
                   ReplicationPool.afterAcquire := None |}
                (default "write" (type o)) (default false (useMaster o)).
Proof.
  intros Hty. unfold LegacyReplicationPool.acquire, ReplicationPool.selectPool. simpl.
  rewrite (valid_passes_check o Hty).
  destruct (LegacyReplicationPool.read this) as [rd|];
    [destruct (_ && _)|]; eexists; (split; [apply acquire_poolLog|done]).
Qed.

Lemma hookedOptions_without_hook this options :
  ReplicationPool.beforeAcquire this = None ->
  ReplicationPool.hookedOptions this options = Normal (requested options).
Proof.
  intros Hnone. unfold ReplicationPool.hookedOptions, requested.
  rewrite Hnone. by destruct options.
Qed.

(** C3, as the code has it. An [acquire] of either replication pool whose
    role passes the check calls [acquire] on exactly one pool object: on the
    read pool if and only if the role is ['read'], a read pool exists and
    [useMaster] is falsy, and on the write pool in every other case. In the
    later revision the role and [useMaster] are those of the options once
    [beforeAcquire] has run on them; they are the ones the caller asked for
    when the pool has no [beforeAcquire] hook, and in the earlier
    revision. *)
Theorem acquire_uses_read_pool_iff :
  (forall this options o w,
      ReplicationPool.hookedOptions this options = Normal o ->
      validType o ->
      ReplicationPool.read this ≠ Some (ReplicationPool.write this) ->
      exists pool,
        poolLog (snd (ReplicationPool.acquire this options w))
        = poolLog w ++ [(pool, CallAcquire)]
        /\ (ReplicationPool.read this = Some pool
            <-> wantsRead (ReplicationPool.read this) o)
        /\ (pool = ReplicationPool.write this
            <-> ~ wantsRead (ReplicationPool.read this) o))
  /\ (forall this options w,
         ReplicationPool.beforeAcquire this = None ->
         validType (requested options) ->
         ReplicationPool.read this ≠ Some (ReplicationPool.write this) ->
         exists pool,
           poolLog (snd (ReplicationPool.acquire this options w))
           = poolLog w ++ [(pool, CallAcquire)]
           /\ (ReplicationPool.read this = Some pool
               <-> wantsRead (ReplicationPool.read this) (requested options))
           /\ (pool = ReplicationPool.write this
               <-> ~ wantsRead (ReplicationPool.read this) (requested options)))
  /\ (forall this o w,
         validType o ->
         LegacyReplicationPool.read this ≠ Some (LegacyReplicationPool.write this) ->
         exists pool,
           poolLog (snd (LegacyReplicationPool.acquire this o w))
           = poolLog w ++ [(pool, CallAcquire)]
           /\ (LegacyReplicationPool.read this = Some pool
               <-> wantsRead (LegacyReplicationPool.read this) o)
           /\ (pool = LegacyReplicationPool.write this
               <-> ~ wantsRead (LegacyReplicationPool.read this) o)).
Proof.
  split; [|split].
  - intros this options o w Hh Hty Hne.
    eexists. split; [by apply acquire_log_new|].
    by apply selectPool_read_iff.
  - intros this options w Hnone Hty Hne.
    eexists. split.
    + apply acquire_log_new; [by apply hookedOptions_without_hook|done].
    + by apply selectPool_read_iff.
  - intros this o w Hty Hne.
    destruct (acquire_log_legacy this o w Hty) as (pool & Hlog & ->).
    eexists. split; [exact Hlog|].
    by apply (selectPool_read_iff
                {| ReplicationPool.read := LegacyReplicationPool.read this;
                   ReplicationPool.write := LegacyReplicationPool.write this;
                   ReplicationPool.timeoutErrorClass := None;
                   ReplicationPool.beforeAcquire := None;
                   ReplicationPool.afterAcquire := None |}).
Qed.

Example scenario_rp_built max cls after :
  ReplicationPool.new (Scenario.replicated max cls after) Scenario.heap
  = (Normal (Scenario.rp cls after), Scenario.rpWorld max).
Proof. reflexivity. Qed.

Example scenario_legacy_built max :
  LegacyReplicationPool.new (Scenario.legacyReplicated max) Scenario.heap
  = (Normal Scenario.legacyRp, Scenario.legacyRpWorld max).
Proof. reflexivity. Qed.

Lemma acquire_uses_read_pool_iff_witness :
  (exists pool,
      poolLog (snd (ReplicationPool.acquire Cases.rewriting
                      (Some (Scenario.asking "read" false)) (Scenario.rpWorld 1)))
      = poolLog (Scenario.rpWorld 1) ++ [(pool, CallAcquire)]
      /\ (ReplicationPool.read Cases.rewriting = Some pool
          <-> wantsRead (ReplicationPool.read Cases.rewriting)
                (Scenario.asking "write" false))
      /\ (pool = ReplicationPool.write Cases.rewriting
          <-> ~ wantsRead (ReplicationPool.read Cases.rewriting)
                  (Scenario.asking "write" false)))
  /\ (exists pool,
         poolLog (snd (ReplicationPool.acquire (Scenario.rp None None)
                         (Some (Scenario.asking "read" false)) (Scenario.rpWorld 1)))
         = poolLog (Scenario.rpWorld 1) ++ [(pool, CallAcquire)]
         /\ (ReplicationPool.read (Scenario.rp None None) = Some pool
             <-> wantsRead (ReplicationPool.read (Scenario.rp None None))
                   (requested (Some (Scenario.asking "read" false))))
         /\ (pool = ReplicationPool.write (Scenario.rp None None)
             <-> ~ wantsRead (ReplicationPool.read (Scenario.rp None None))
                     (requested (Some (Scenario.asking "read" false)))))
  /\ (exists pool,
         poolLog (snd (LegacyReplicationPool.acquire Scenario.legacyRp
                         (Scenario.asking "read" false) (Scenario.legacyRpWorld 1)))
         = poolLog (Scenario.legacyRpWorld 1) ++ [(pool, CallAcquire)]
         /\ (LegacyReplicationPool.read Scenario.legacyRp = Some pool
             <-> wantsRead (LegacyReplicationPool.read Scenario.legacyRp)
                   (Scenario.asking "read" false))
         /\ (pool = LegacyReplicationPool.write Scenario.legacyRp
             <-> ~ wantsRead (LegacyReplicationPool.read Scenario.legacyRp)
                     (Scenario.asking "read" false))).
Proof.
  split; [|split].
  - apply (proj1 acquire_uses_read_pool_iff Cases.rewriting
             (Some (Scenario.asking "read" false)) (Scenario.asking "write" false)).
    + reflexivity.
    + right. reflexivity.
    + discriminate.
  - apply (proj1 (proj2 acquire_uses_read_pool_iff) (Scenario.rp None None)
             (Some (Scenario.asking "read" false))).
    + reflexivity.
    + left. reflexivity.
    + discriminate.
  - apply (proj2 (proj2 acquire_uses_read_pool_iff) Scenario.legacyRp
             (Scenario.asking "read" false)).
    + left. reflexivity.
    + discriminate.
Defined.

(** A read request without [useMaster] on a pool that has a read pool
    (object 10): the read pool is served when the pool has no hook. *)
Example read_request_is_served_by_the_read_pool :
  poolLog (snd (ReplicationPool.acquire (Scenario.rp None None)
                  (Some (Scenario.asking "read" false)) (Scenario.rpWorld 1)))
  = [(10, CallAcquire)].
Proof. vm_compute. reflexivity. Qed.

(** C3 as stated fails: the caller asks for the role ['read'] without
    [useMaster] and a read pool exists (object 10), yet the write pool
    (object 11) is the one called, since [beforeAcquire] has set the role
    of the options to ['write'] before [acquire] reads it. *)
Lemma hook_rewrites_the_requested_role_counterexample :
  let this := Cases.rewriting in
  let asked := Scenario.asking "read" false in
  let run := ReplicationPool.acquire this (Some asked) (Scenario.rpWorld 1) in
  wantsRead (ReplicationPool.read this) asked
  /\ ReplicationPool.read this = Some 10
  /\ ReplicationPool.write this = 11
  /\ fst run = Normal 12
  /\ poolLog (snd run) = [(11, CallAcquire)].
Proof.
  split; [|vm_compute; repeat split].
  split; [reflexivity|]. split; [by eexists|reflexivity].
Qed.

(** ** A failing [afterAcquire] hook *)

(** C2, as the code has it. When [afterAcquire] rejects with [e] for the
    connection [c] that the selected pool handed out, [acquire] rejects
    with [e] in the very state the pool's [acquire] left: [c] is still
    among that pool's checked-out connections, and the pool received no
    call but the [acquire]. *)
Theorem afterAcquire_failure_leaves_connection_checked_out
    this options o w hook pool c w1 e :
  ReplicationPool.afterAcquire this = Some hook ->
  ReplicationPool.hookedOptions this options = Normal o ->
  validType o ->
  pool = ReplicationPool.selectPool this (default "write" (type o))
           (default false (useMaster o)) ->
  SubPool.acquire pool w = (Normal c, w1) ->
  hook c o = Some e ->
  ReplicationPool.acquire this options w = (Throw e, w1)
  /\ (exists p, poolObjects w1 !! pool = Some p /\ c ∈ Pool.inUseObjects p)
  /\ poolLog w1 = poolLog w ++ [(pool, CallAcquire)].
Proof.
  intros Hafter Hh Hty -> Hacq Hhook. split; [|split].
  - unfold ReplicationPool.acquire. rewrite Hh. unfold bind at 1, lift. simpl.
    rewrite (valid_passes_check o Hty).
    unfold bind at 1, try_catch. rewrite Hacq.
    rewrite Hafter, Hhook. reflexivity.
  - by eapply acquire_checked_out.
  - pose proof (acquire_poolLog
                  (ReplicationPool.selectPool this (default "write" (type o))
                     (default false (useMaster o))) w) as Hlog.
    by rewrite Hacq in Hlog.
Qed.

Lemma afterAcquire_failure_leaves_connection_checked_out_witness :
  ReplicationPool.acquire (Scenario.rp None (Some Scenario.failingHook))
    (Some (Scenario.asking "write" false)) (Scenario.rpWorld 1)
  = (Throw (Error "afterAcquire failed"),
     snd (SubPool.acquire 11 (Scenario.rpWorld 1)))
  /\ (exists p,
         poolObjects (snd (SubPool.acquire 11 (Scenario.rpWorld 1))) !! 11 = Some p
         /\ 12 ∈ Pool.inUseObjects p)
  /\ poolLog (snd (SubPool.acquire 11 (Scenario.rpWorld 1)))
     = poolLog (Scenario.rpWorld 1) ++ [(11, CallAcquire)].
Proof.
  apply (afterAcquire_failure_leaves_connection_checked_out
           (Scenario.rp None (Some Scenario.failingHook))
           (Some (Scenario.asking "write" false)) (Scenario.asking "write" false)
           (Scenario.rpWorld 1) Scenario.failingHook 11 12).
  - reflexivity.
  - reflexivity.
  - right. reflexivity.
  - reflexivity.
  - vm_compute. reflexivity.
  - reflexivity.
Defined.

(** C2 as stated fails: with a hook that always rejects, [acquire] on a
    fresh pool rejects while the write pool's [using] counter has gone from
    0 to 1, and no pool has received a [release]. *)
Lemma afterAcquire_failure_releases_counterexample :
  let before := Scenario.rpWorld 1 in
  let this := Scenario.rp None (Some Scenario.failingHook) in
  let run := ReplicationPool.acquire this (Some (Scenario.asking "write" false)) before in
  fst run = Throw (Error "afterAcquire failed")
  /\ ReplicationPool.using_ this before = 0
  /\ ReplicationPool.using_ this (snd run) = 1
  /\ poolLog (snd run) = [(11, CallAcquire)].
Proof. vm_compute. repeat split. Qed.

(** ** Connections the registry does not know *)

(** C9. For a connection that [owningPools] has no entry for, [release]
    throws and [destroy] rejects with the error that the owning pool cannot
    be determined, and the state is the one before the call: no counter of
    any pool object has changed. *)
Theorem unrecorded_connection_is_rejected this connection w :
  owningPools w !! connection = None ->
  ReplicationPool.release this connection w
  = (Throw ReplicationPool.unknownConnection, w)
  /\ ReplicationPool.destroy this connection w
     = (Throw ReplicationPool.unknownConnection, w)
  /\ (forall f r,
         SubPool.counter f r (snd (ReplicationPool.release this connection w))
         = SubPool.counter f r w
         /\ SubPool.counter f r (snd (ReplicationPool.destroy this connection w))
            = SubPool.counter f r w).
Proof.
  intros Hnone.
  assert (ReplicationPool.release this connection w
          = (Throw ReplicationPool.unknownConnection, w)) as Hrel.
  { unfold ReplicationPool.release, bind, gets. by rewrite Hnone. }
  assert (ReplicationPool.destroy this connection w
          = (Throw ReplicationPool.unknownConnection, w)) as Hdes.
  { unfold ReplicationPool.destroy, bind, gets. by rewrite Hnone. }
  rewrite Hrel, Hdes. auto.
Qed.

Lemma unrecorded_connection_is_rejected_witness :
  ReplicationPool.release (Scenario.rp None None) 99 (Scenario.rpWorld 1)
  = (Throw ReplicationPool.unknownConnection, Scenario.rpWorld 1)
  /\ ReplicationPool.destroy (Scenario.rp None None) 99 (Scenario.rpWorld 1)
     = (Throw ReplicationPool.unknownConnection, Scenario.rpWorld 1)
  /\ (forall f r,
         SubPool.counter f r
           (snd (ReplicationPool.release (Scenario.rp None None) 99 (Scenario.rpWorld 1)))
         = SubPool.counter f r (Scenario.rpWorld 1)
         /\ SubPool.counter f r
              (snd (ReplicationPool.destroy (Scenario.rp None None) 99
                      (Scenario.rpWorld 1)))
            = SubPool.counter f r (Scenario.rpWorld 1)).
Proof.
  apply (unrecorded_connection_is_rejected (Scenario.rp None None) 99
           (Scenario.rpWorld 1)).
  reflexivity.
Defined.

(** ** Timeouts and [timeoutErrorClass] *)

(** The replication pool re-throws a timeout of the selected pool as an
    instance of the configured class, with the timeout as its cause. *)
Lemma timeout_is_rethrown_as_configured this options o w cls pool m w1 :
  ReplicationPool.timeoutErrorClass this = Some cls ->
  ReplicationPool.hookedOptions this options = Normal o ->
  validType o ->
  pool = ReplicationPool.selectPool this (default "write" (type o))
           (default false (useMaster o)) ->
  SubPool.acquire pool w = (Throw (TimeoutError m), w1) ->
  ReplicationPool.acquire this options w
  = (Throw (CustomError cls m (TimeoutError m)), w1).
Proof.
  intros Hcls Hh Hty -> Hacq.
  unfold ReplicationPool.acquire. rewrite Hh. unfold bind at 1, lift. simpl.
  rewrite (valid_passes_check o Hty).
  unfold bind at 1, try_catch. rewrite Hacq.
  unfold ReplicationPool.rethrow. by rewrite Hcls.
Qed.

Example replicated_timeout_is_rethrown :
  fst (Scenario.onReplicated
         (Scenario.replicated 1 (Some "PoolExhausted") None)
         (fun this =>
            ReplicationPool.acquire this (Some (Scenario.asking "write" false)) ;;;
            ReplicationPool.acquire this (Some (Scenario.asking "write" false))))
  = Throw (CustomError "PoolExhausted" "Operation timeout"
             (TimeoutError "Operation timeout")).
Proof. vm_compute. reflexivity. Qed.

(** C4, sharded pool. A sharded pool configured with a [timeoutErrorClass]
    and one connection per pool: the constructor leaves the field
    unassigned, and the second [acquire] on the exhausted write pool of
    shard [s1] rejects with the pool's own timeout error, not with an
    instance of the configured class. *)
Theorem sharded_timeout_is_not_rethrown :
  let config := Scenario.sharded 1 (Some "PoolExhausted") Scenario.unreplicatedShards in
  fst (Scenario.onSharded config
         (fun this => ret (ShardedReplicationPool.timeoutErrorClass this)))
  = Normal None
  /\ fst (Scenario.onSharded config
            (fun this =>
               ShardedReplicationPool.acquire this "s1" (Scenario.asking "write" false) ;;;
               ShardedReplicationPool.acquire this "s1" (Scenario.asking "write" false)))
     = Throw (TimeoutError "Operation timeout").
Proof. vm_compute. split; reflexivity. Qed.

(** ** A shard without read backends *)

(** The later revision: a ['read'] request without [useMaster] for a shard
    whose read entry is [null] or missing is refused, in the state it
    found. *)
Lemma read_without_replicas_is_refused this shardId o w :
  type o = Some "read" ->
  default false (useMaster o) = false ->
  (ShardedCommon.lookup (Some shardId) (ShardedReplicationPool.read this) = Some None
   \/ ShardedCommon.lookup (Some shardId) (ShardedReplicationPool.read this) = None) ->
  ShardedReplicationPool.acquire this shardId o w
  = (Throw (Error ("No read pool found for shard " +:+ shardId)), w).
Proof.
  intros Hty Hum Hread.
  unfold ShardedReplicationPool.acquire, ShardedReplicationPool.getPool.
  rewrite Hty, Hum.
  destruct Hread as [H | H]; rewrite H; reflexivity.
Qed.

(** The earlier revision refuses it whatever [useMaster] is. *)
Lemma legacy_read_without_replicas_is_refused this shardId o w :
  type o = Some "read" ->
  (ShardedCommon.lookup (Some shardId) (LegacyShardedReplicationPool.read this) = Some None
   \/ ShardedCommon.lookup (Some shardId) (LegacyShardedReplicationPool.read this) = None) ->
  LegacyShardedReplicationPool.acquire this shardId o w
  = (Throw (Error ("No read pool found for shard " +:+ shardId)), w).
Proof.
  intros Hty Hread.
  unfold LegacyShardedReplicationPool.acquire, LegacyShardedReplicationPool.getPool.
  rewrite Hty.
  destruct Hread as [H | H]; rewrite H; reflexivity.
Qed.

(** C1. On a sharded pool whose only shard [s1] has no read backends
    ([readConfig] absent, or an empty array), [acquire] with role ['read']
    and [useMaster] false for [s1] rejects with "No read pool found for
    shard s1" in both revisions; the write pool of [s1] receives no call. *)
Theorem read_on_unreplicated_shard_is_refused :
  let absent := Scenario.sharded 5 None Scenario.unreplicatedShards in
  let empty := Scenario.sharded 5 None Scenario.emptyReadShards in
  let refused := Throw (Error "No read pool found for shard s1") in
  let ask := Scenario.asking "read" false in
  let later config :=
    Scenario.onSharded config
      (fun this => ShardedReplicationPool.acquire this "s1" ask) in
  let earlier config :=
    Scenario.onLegacySharded config
      (fun this => LegacyShardedReplicationPool.acquire this "s1" ask) in
  (fst (later absent) = refused /\ poolLog (snd (later absent)) = [])
  /\ (fst (later empty) = refused /\ poolLog (snd (later empty)) = [])
  /\ (fst (earlier absent) = refused /\ poolLog (snd (earlier absent)) = [])
  /\ (fst (earlier empty) = refused /\ poolLog (snd (earlier empty)) = []).
Proof. vm_compute. repeat split. Qed.

(** ** The per-shard counters *)

(** When the shard has a read pool, a per-shard accessor returns that
    pool's counter alone. *)
Lemma shardCounter_with_read_pool f this shardId r w :
  ShardedReplicationPool.getPool this (Some shardId) (Some "read") false = Some r ->
  ShardedReplicationPool.shardCounter f this shardId w = SubPool.counter f r w.
Proof. intros H. unfold ShardedReplicationPool.shardCounter. by rewrite H. Qed.

Lemma legacy_shardCounter_with_read_pool f this shardId r w :
  LegacyShardedReplicationPool.getPool this (Some shardId) (Some "read") = Some r ->
  LegacyShardedReplicationPool.shardCounter f this shardId w = SubPool.counter f r w.
Proof. intros H. unfold LegacyShardedReplicationPool.shardCounter. by rewrite H. Qed.

(** C6. Shard [s1] with two read backends, after one ['read'] and one
    ['write'] connection have been acquired: its read pool (object 10) and
    its write pool (object 11) each have size 1 and 1 connection in use, yet
    [shardSize] and [shardUsing] return 1, in both revisions. *)
Theorem shard_counters_drop_the_write_pool :
  let config := Scenario.sharded 5 None Scenario.replicatedShards in
  let later f :=
    Scenario.onSharded config
      (fun this =>
         ShardedReplicationPool.acquire this "s1" (Scenario.asking "read" false) ;;;
         ShardedReplicationPool.acquire this "s1" (Scenario.asking "write" false) ;;;
         w <~ gets id ;;
         ret (SubPool.counter f 10 w, SubPool.counter f 11 w,
              ShardedReplicationPool.shardCounter f this "s1" w)) in
  let earlier f :=
    Scenario.onLegacySharded config
      (fun this =>
         LegacyShardedReplicationPool.acquire this "s1" (Scenario.asking "read" false) ;;;
         LegacyShardedReplicationPool.acquire this "s1" (Scenario.asking "write" false) ;;;
         w <~ gets id ;;
         ret (SubPool.counter f 10 w, SubPool.counter f 11 w,
              LegacyShardedReplicationPool.shardCounter f this "s1" w)) in
  fst (later Pool.size) = Normal (1, 1, 1)
  /\ fst (later Pool.using_) = Normal (1, 1, 1)
  /\ fst (earlier Pool.size) = Normal (1, 1, 1)
  /\ fst (earlier Pool.using_) = Normal (1, 1, 1).
Proof. vm_compute. repeat split. Qed.

(** ** [release] and [destroy] of the sharded pool *)



(** ** [drain] and [destroyAllNow] *)

Lemma earliestRejection_None ps :
  earliestRejection ps = None -> forall p, p ∈ ps -> outcome p = None.
Proof.
  induction ps as [|q ps IH]; simpl; intros H p Hp.
  - by apply elem_of_nil in Hp.
  - destruct (outcome q) eqn:Hq.
    + destruct (earliestRejection ps); [destruct (Nat.ltb _ _)|]; discriminate.
    + apply elem_of_cons in Hp as [->|Hp]; [done|by apply IH].
Qed.

Lemma earliestRejection_Some ps p :
  earliestRejection ps = Some p ->
  p ∈ ps /\ is_Some (outcome p)
  /\ forall q, q ∈ ps -> is_Some (outcome q) -> settledAt p <= settledAt q.
Proof.
  revert p. induction ps as [|a ps IH]; simpl; intros p H; [discriminate|].
  destruct (outcome a) as [e|] eqn:Ha.
  - destruct (earliestRejection ps) as [b|] eqn:Hb.
    + destruct (IH b eq_refl) as (Hin & Hrej & Hmin).
      destruct (Nat.ltb_spec (settledAt b) (settledAt a)) as [Hlt|Hge];
        injection H as <-.
      * split; [by apply elem_of_cons; right|]. split; [done|].
        intros q [->|Hq]%elem_of_cons Hq'; [lia|by apply Hmin].
      * split; [by apply elem_of_cons; left|]. split; [by rewrite Ha|].
        intros q [->|Hq]%elem_of_cons Hq'; [lia|].
        specialize (Hmin q Hq Hq'). lia.
    + injection H as <-.
      split; [by apply elem_of_cons; left|]. split; [by rewrite Ha|].
      intros q [->|Hq]%elem_of_cons Hq'; [lia|].
      rewrite (earliestRejection_None ps Hb q Hq) in Hq'. by destruct Hq'.
  - destruct (IH p H) as (Hin & Hrej & Hmin).
    split; [by apply elem_of_cons; right|]. split; [done|].
    intros q [->|Hq]%elem_of_cons Hq'; [|by apply Hmin].
    rewrite Ha in Hq'. by destruct Hq'.
Qed.

(** [Promise.all] is fulfilled only if every input is, and not before the
    last of them. *)
Lemma Promise_all_fulfilled ps :
  outcome (Promise_all ps) = None ->
  forall p, p ∈ ps -> outcome p = None /\ settledAt p <= settledAt (Promise_all ps).
Proof.
  unfold Promise_all. intros H p Hp.
  destruct (earliestRejection ps) as [q|] eqn:Hq.
  - destruct (earliestRejection_Some ps q Hq) as (_ & [e He] & _). congruence.
  - split; [by eapply earliestRejection_None|]. simpl.
    pose proof (proj1 (List.list_max_le (map settledAt ps) _) (le_n _)) as Hall.
    rewrite List.Forall_forall in Hall. apply Hall.
    apply List.in_map, list_elem_of_In, Hp.
Qed.

(** [Promise.all] is rejected exactly as the input that rejects first. *)
Lemma Promise_all_rejected ps e :
  outcome (Promise_all ps) = Some e ->
  Promise_all ps ∈ ps
  /\ forall q, q ∈ ps -> is_Some (outcome q) ->
       settledAt (Promise_all ps) <= settledAt q.
Proof.
  unfold Promise_all. intros H.
  destruct (earliestRejection ps) as [q|] eqn:Hq; [|discriminate].
  destruct (earliestRejection_Some ps q Hq) as (Hin & _ & Hmin). auto.
Qed.

Lemma logCalls_app op calls calls' w :
  logCalls op (calls ++ calls') w = logCalls op calls' (logCalls op calls w).
Proof. unfold logCalls. apply fold_left_app. Qed.

Lemma poolLog_logCalls op calls w :
  poolLog (logCalls op calls w)
  = poolLog w ++ omap (fun pool => (fun r => (r, op)) <$> pool) calls.
Proof.
  revert w. induction calls as [|[r|] calls IH]; intros w; simpl.
  - by rewrite app_nil_r.
  - rewrite IH. simpl. by rewrite <- app_assoc.
  - apply IH.
Qed.

Lemma forEach_callPoolOpt run op calls w :
  forEach (callPoolOpt run op) calls w
  = (Normal (map (promiseOf run op) calls), logCalls op calls w).
Proof.
  revert w. induction calls as [|[r|] calls IH]; intros w; simpl; [done| |].
  - unfold bind at 1. unfold callPool, bind at 1, modify, ret. simpl.
    unfold bind at 1. by rewrite IH.
  - unfold bind at 1. unfold ret at 1. unfold bind at 1. by rewrite IH.
Qed.

Lemma forEach_callPool run op pools w :
  forEach (callPool run op) pools w
  = (Normal (map (promiseOf run op) (map Some pools)), logCalls op (map Some pools) w).
Proof.
  revert w. induction pools as [|r pools IH]; intros w; simpl; [done|].
  unfold bind at 1. unfold callPool, bind at 1, modify, ret. simpl.
  unfold bind at 1. by rewrite IH.
Qed.

(** The shape shared by the four methods: the calls made, in order, and
    [Promise.all] of what they returned. *)
Lemma fansOut_calls op run calls w :
  fansOut op run (fun r => Some r ∈ calls) w
    (Normal (Promise_all (map (promiseOf run op) calls)), logCalls op calls w).
Proof.
  exists (Promise_all (map (promiseOf run op) calls)). simpl.
  split; [done|]. split; [|split].
  - intros r Hr. rewrite poolLog_logCalls, drop_app_length.
    apply list_elem_of_omap. exists (Some r). by split.
  - intros Hok r Hr.
    apply (Promise_all_fulfilled _ Hok (promiseOf run op (Some r))).
    apply list_elem_of_fmap. by exists (Some r).
  - intros e He.
    destruct (Promise_all_rejected _ e He) as (Hin & Hmin).
    apply list_elem_of_fmap in Hin as ([r|] & Heq & Hr).
    + exists r. split; [done|]. split; [by rewrite Heq|].
      intros r' Hr' Hrej. apply Hmin; [|done].
      apply list_elem_of_fmap. by exists (Some r').
    + rewrite Heq in He. discriminate.
Qed.

Lemma fansOut_ext op run (isPool isPool' : nat -> Prop) w result :
  (forall r, isPool' r <-> isPool r) ->
  fansOut op run isPool w result -> fansOut op run isPool' w result.
Proof.
  intros Hiff (p & Hres & Hlog & Hok & Hrej). exists p.
  split; [done|]. split; [|split].
  - intros r Hr. by apply Hlog, Hiff.
  - intros Hp r Hr. by apply Hok, Hiff.
  - intros e He. destruct (Hrej e He) as (r & Hr & Heq & Hmin).
    exists r. split; [by apply Hiff|]. split; [done|].
    intros r' Hr'. by apply Hmin, Hiff.
Qed.

Lemma fanOut_calls run op read write w :
  ShardedCommon.fanOut run op read write w
  = (Normal (Promise_all
               (map (promiseOf run op) (JsMap.values read ++ map Some (JsMap.values write)))),
     logCalls op (JsMap.values read ++ map Some (JsMap.values write)) w).
Proof.
  unfold ShardedCommon.fanOut. unfold bind at 1. rewrite forEach_callPoolOpt.
  unfold bind at 1. rewrite forEach_callPool. unfold ret.
  by rewrite map_app, logCalls_app.
Qed.

Lemma fansOut_sharded run op read write w :
  fansOut op run
    (fun r => Some r ∈ JsMap.values read \/ r ∈ JsMap.values write) w
    (ShardedCommon.fanOut run op read write w).
Proof.
  rewrite fanOut_calls.
  apply (fansOut_ext op run
           (fun r => Some r ∈ JsMap.values read ++ map Some (JsMap.values write)));
    [|apply fansOut_calls].
  intros r. rewrite elem_of_app, list_elem_of_fmap. split.
  - intros [Hr|Hw]; [by left|]. right. by exists r.
  - intros [Hr|(r' & [= <-] & Hw)]; [by left|by right].
Qed.

(** C8, as the code has it. [destroyAllNow] and [drain], of the replication
    pool and of both revisions of the sharded pool, call the operation on
    every pool object of the manager before waiting for any of them. The
    result is fulfilled only when every operation is, not before the last
    has settled; when operations reject, it is rejected with the outcome of
    the one that rejects first and at that tick, which no other rejection
    precedes, whether or not the remaining operations have settled. *)
Theorem fan_out_settles_like_Promise_all run w :
  (forall this : ReplicationPool.t,
      let isPool r :=
        ReplicationPool.read this = Some r \/ r = ReplicationPool.write this in
      fansOut CallDestroyAllNow run isPool w (ReplicationPool.destroyAllNow run this w)
      /\ fansOut CallDrain run isPool w (ReplicationPool.drain run this w))
  /\ (forall this : LegacyShardedReplicationPool.t,
         let isPool r :=
           Some r ∈ JsMap.values (LegacyShardedReplicationPool.read this)
           \/ r ∈ JsMap.values (LegacyShardedReplicationPool.write this) in
         fansOut CallDestroyAllNow run isPool w
           (LegacyShardedReplicationPool.destroyAllNow run this w)
         /\ fansOut CallDrain run isPool w
              (LegacyShardedReplicationPool.drain run this w))
  /\ (forall this : ShardedReplicationPool.t,
         let isPool r :=
           Some r ∈ JsMap.values (ShardedReplicationPool.read this)
           \/ r ∈ JsMap.values (ShardedReplicationPool.write this) in
         fansOut CallDestroyAllNow run isPool w
           (ShardedReplicationPool.destroyAllNow run this w)
         /\ fansOut CallDrain run isPool w (ShardedReplicationPool.drain run this w)).
Proof.
  split; [|split].
  - intros this isPool. split.
    + apply (fansOut_ext _ run
               (fun r => Some r ∈ [ReplicationPool.read this;
                                   Some (ReplicationPool.write this)])).
      { intros r. subst isPool. simpl. rewrite !elem_of_cons, elem_of_nil.
        intuition congruence. }
      replace (ReplicationPool.destroyAllNow run this w)
        with (Normal (Promise_all
                        (map (promiseOf run CallDestroyAllNow)
                           [ReplicationPool.read this;
                            Some (ReplicationPool.write this)])),
              logCalls CallDestroyAllNow
                [ReplicationPool.read this; Some (ReplicationPool.write this)] w);
        [apply fansOut_calls|].
      unfold ReplicationPool.destroyAllNow.
      by destruct (ReplicationPool.read this).
    + apply (fansOut_ext _ run
               (fun r => Some r ∈ [Some (ReplicationPool.write this);
                                   ReplicationPool.read this])).
      { intros r. subst isPool. simpl. rewrite !elem_of_cons, elem_of_nil.
        intuition congruence. }
      replace (ReplicationPool.drain run this w)
        with (Normal (Promise_all
                        (map (promiseOf run CallDrain)
                           [Some (ReplicationPool.write this);
                            ReplicationPool.read this])),
              logCalls CallDrain
                [Some (ReplicationPool.write this); ReplicationPool.read this] w);
        [apply fansOut_calls|].
      unfold ReplicationPool.drain.
      by destruct (ReplicationPool.read this).
  - intros this isPool. split; apply fansOut_sharded.
  - intros this isPool. split; apply fansOut_sharded.
Qed.

(** C8 as stated fails: on the replication pool with a read pool (object
    10) whose [destroyAllNow] rejects at tick 1 and a write pool (object 11)
    whose [destroyAllNow] settles at tick 5, the manager's [destroyAllNow]
    is rejected at tick 1, before the write pool's operation has settled. *)
Lemma rejection_waits_for_all_counterexample :
  let run := Scenario.readFailsEarly 10 in
  let result :=
    ReplicationPool.destroyAllNow run (Scenario.rp None None) (Scenario.rpWorld 1) in
  fst result
  = Normal {| settledAt := 1; outcome := Some (Error "disconnect failed") |}
  /\ settledAt (run 11 CallDestroyAllNow) = 5
  /\ poolLog (snd result) = [(10, CallDestroyAllNow); (11, CallDestroyAllNow)].
Proof. vm_compute. repeat split. Qed.

(** ** The [create] closures *)



(** The same through [acquire]: the first ['write'] connection of shard
    [s1] leaves [s1] in the caller's [writeConfig] object (object 0), which
    had no [shardId] before. *)
Example acquire_marks_writeConfig :
  optionObjects Scenario.shardedWorld !! 0
  = Some {| host := "primary"; co_shardId := None |}
  /\ optionObjects
       (snd (Scenario.onSharded (Scenario.sharded 5 None Scenario.replicatedShards)
               (fun this =>
                  ShardedReplicationPool.acquire this "s1"
                    (Scenario.asking "write" false)))) !! 0
     = Some {| host := "primary"; co_shardId := Some "s1" |}.
Proof. vm_compute. split; reflexivity. Qed.

(** *** Round robin over the read backends *)











(** The counter of a [create] closure is touched by no other pool method. *)
Lemma release_keeps_create r c w r' p :
  poolObjects w !! r' = Some p ->
  exists p', poolObjects (snd (SubPool.release r c w)) !! r' = Some p'
             /\ Pool.create p' = Pool.create p.
Proof.
  intros Hp. unfold SubPool.release, bind, modify, SubPool.deref, SubPool.store, ret.
  simpl. destruct (poolObjects w !! r) as [q|] eqn:Hq; simpl; [|eauto].
  destruct (bool_decide _); simpl; [|eauto].
  destruct (decide (r = r')) as [->|Hne].
  - rewrite lookup_insert_eq. eexists. split; [done|]. simpl. congruence.
  - rewrite lookup_insert_ne by done. eauto.
Qed.

Lemma destroy_keeps_create r c w r' p :
  poolObjects w !! r' = Some p ->
  exists p', poolObjects (snd (SubPool.destroy r c w)) !! r' = Some p'
             /\ Pool.create p' = Pool.create p.
Proof.
  intros Hp. unfold SubPool.destroy, bind, modify, SubPool.deref, SubPool.store, ret, throw.
  simpl. destruct (poolObjects w !! r) as [q|] eqn:Hq; simpl; [|eauto].
  destruct (decide (r = r')) as [->|Hne].
  - destruct (Pool.destroy q c); simpl; rewrite lookup_insert_eq;
      (eexists; split; [done|]); simpl; congruence.
  - destruct (Pool.destroy q c); simpl; rewrite lookup_insert_ne by done; eauto.
Qed.










(** Five creations on the read pool of shard [s1] over two replicas. *)
Example round_robin_on_shard :
  connectedSince 0 (snd (createMany 5 10 Scenario.shardedWorld)) = [1; 2; 1; 2; 1].
Proof. vm_compute. reflexivity. Qed.

(** * Further properties of the code *)

(** ** What a pool method does to the heap *)

Lemma takeValid_split validate idle bad found rest :
  SubPool.takeValid validate idle = (bad, found, rest) ->
  idle = bad ++ from_option (fun c => [c]) [] found ++ rest.
Proof.
  revert bad found rest. induction idle as [|c idle IH]; simpl; intros bad found rest H.
  - by injection H as <- <- <-.
  - destruct (validate c).
    + by injection H as <- <- <-.
    + destruct (SubPool.takeValid validate idle) as [[bad' found'] rest'].
      injection H as <- <- <-. simpl. f_equal. by apply IH.
Qed.

Lemma destroyInvalid_heap bad w :
  exists w', SubPool.destroyInvalid bad w = (Normal tt, w') /\ heapOf w' = heapOf w.
Proof.
  revert w. induction bad as [|c bad IH]; intros w; simpl.
  - by exists w.
  - unfold bind at 1, modify. simpl.
    destruct (IH (push_disconnectLog c w)) as (w' & -> & Hheap).
    exists w'. split; [done|]. by rewrite Hheap.
Qed.

Lemma runCreate_kind cl :
  isSharded (fst (runCreate cl)) = isSharded cl
  /\ tagOf (fst (runCreate cl)) = tagOf cl
  /\ registryOf (fst (runCreate cl)) = registryOf cl.
Proof. by destruct cl. Qed.

(** One run of the [create] option: the closure's counter is stored back;
    on success the connection is the next fresh reference, recorded under
    the closure's tag in the closure's registry, and nothing else is
    recorded; on failure nothing is recorded. *)
Lemma createResource_effects r p w res w1 :
  poolObjects w !! r = Some p ->
  SubPool.createResource r w = (res, w1) ->
  poolObjects w1
  = <[r := Pool.with_create (fst (runCreate (Pool.create p))) p]> (poolObjects w)
  /\ match res with
     | Normal c =>
         c = nextRef w /\ nextRef w1 = S c
         /\ registryOf (Pool.create p) w1 !! c = Some (tagOf (Pool.create p))
         /\ connectionObjects w1 !! c = Some {| conn_shardId := None |}
         /\ forall k, k ≠ c ->
              owningPools w1 !! k = owningPools w !! k
              /\ shardOwningPools w1 !! k = shardOwningPools w !! k
     | Throw _ =>
         nextRef w1 = nextRef w /\ owningPools w1 = owningPools w
         /\ shardOwningPools w1 = shardOwningPools w
     end.
Proof.
  intros Hp. unfold SubPool.createResource, bind at 1, SubPool.deref. rewrite Hp.
  destruct (Pool.create p) as [connect rc n|connect wc|connect rc n s|connect wc s];
    simpl;
    unfold bind, SubPool.store, modify, throw, ret, write_options_shardId, call_connect;
    simpl; intros H;
    repeat (case_match; simplify_eq/=);
    (split; [done|]);
    rewrite ?lookup_insert_eq;
    repeat split; try done;
    intros; by rewrite ?lookup_insert_ne.
Qed.

Lemma registryOf_set_poolObjects cl f w :
  registryOf cl (set_poolObjects f w) = registryOf cl w.
Proof. by destruct cl. Qed.

(** What [acquire] on pool object [r] does: to [r] itself, to the other
    pool objects, to the registries and to the allocator. *)
Lemma acquire_effects r p w res w1 :
  poolObjects w !! r = Some p ->
  SubPool.acquire r w = (res, w1) ->
  exists p1 gone,
    poolObjects w1 !! r = Some p1
    /\ (forall r', r' ≠ r -> poolObjects w1 !! r' = poolObjects w !! r')
    /\ isSharded (Pool.create p1) = isSharded (Pool.create p)
    /\ tagOf (Pool.create p1) = tagOf (Pool.create p)
    /\ registryOf (Pool.create p1) = registryOf (Pool.create p)
    /\ Pool.availableObjects p = gone ++ Pool.availableObjects p1
    /\ nextRef w <= nextRef w1
    /\ (forall k, k < nextRef w ->
          owningPools w1 !! k = owningPools w !! k
          /\ shardOwningPools w1 !! k = shardOwningPools w !! k)
    /\ match res with
       | Normal c =>
           Pool.inUseObjects p1 = c :: Pool.inUseObjects p
           /\ (c ∈ gone
               \/ (c = nextRef w /\ nextRef w1 = S c
                   /\ registryOf (Pool.create p) w1 !! c = Some (tagOf (Pool.create p))
                   /\ connectionObjects w1 !! c = Some {| conn_shardId := None |}))
       | Throw _ => Pool.inUseObjects p1 = Pool.inUseObjects p
       end.
Proof.
  intros Hp. unfold SubPool.acquire. unfold bind at 1, modify. simpl.
  unfold bind at 1, SubPool.deref. simpl. rewrite Hp.
  destruct (Pool.draining p).
  { intros [= <- <-]. exists p, []. simpl. repeat split; auto. }
  destruct (SubPool.takeValid (Pool.validate p) (Pool.availableObjects p))
    as [[bad found] rest] eqn:Htake.
  apply takeValid_split in Htake.
  unfold bind at 1.
  destruct (destroyInvalid_heap bad (push_poolLog (r, CallAcquire) w))
    as (w' & -> & Hheap).
  injection Hheap as Hopt Hconn Hpools Hown Hshard Hnext Hclog Hplog. simpl in *.
  destruct found as [c|]; simpl in Htake.
  - unfold bind, SubPool.store, modify, ret. simpl. intros [= <- <-].
    eexists _, (bad ++ [c]). simpl. rewrite Hpools, Hown, Hshard, Hnext.
    rewrite lookup_insert_eq. split; [done|].
    split; [intros r' Hr'; by rewrite lookup_insert_ne|].
    repeat split; try done.
    + by rewrite <- app_assoc.
    + left. apply elem_of_app. right. by apply list_elem_of_singleton.
  - unfold bind at 1, SubPool.store, modify. simpl.
    destruct (Nat.ltb _ _); [|intros [= <- <-]].
    + unfold bind at 1.
      set (w2 := set_poolObjects _ w').
      assert (poolObjects w2 !! r
              = Some (Pool.with_objects rest (Pool.inUseObjects p) p)) as Hp2
        by (subst w2; simpl; apply lookup_insert_eq).
      destruct (SubPool.createResource r w2) as [[c|e] w3] eqn:Hcreate;
        destruct (createResource_effects r _ w2 _ w3 Hp2 Hcreate) as (Hpools3 & Hrest);
        simpl in Hpools3, Hrest.
      * destruct Hrest as (-> & Hnext3 & Hreg & Hconn3 & Hothers).
        unfold bind, SubPool.deref, SubPool.store, modify, ret. simpl.
        rewrite Hpools3, lookup_insert_eq. intros [= <- <-]. simpl.
        eexists _, bad. rewrite lookup_insert_eq. split; [done|].
        split.
        { intros r' Hr'. rewrite Hpools3. subst w2. simpl.
          by rewrite !lookup_insert_ne, Hpools. }
        pose proof (runCreate_kind (Pool.create p)) as (Hk1 & Hk2 & Hk3).
        simpl. rewrite Hnext3. subst w2. simpl in *. rewrite Hnext in *.
        repeat split; try done; try lia.
        { rewrite <- Hown. apply Hothers. lia. }
        { rewrite <- Hshard. apply Hothers. lia. }
        { right. by rewrite registryOf_set_poolObjects. }
      * destruct Hrest as (Hnext3 & Hown3 & Hshard3).
        intros [= <- <-]. rewrite Hpools3, Hown3, Hshard3, Hnext3.
        subst w2. simpl. rewrite Hown, Hshard, Hnext, Hpools.
        eexists _, bad. rewrite lookup_insert_eq. split; [done|].
        split; [intros r' Hr'; by rewrite !lookup_insert_ne|].
        pose proof (runCreate_kind (Pool.create p)) as (Hk1 & Hk2 & Hk3).
        simpl. repeat split; try done.
    + simpl. rewrite Hpools, Hown, Hshard, Hnext.
      eexists _, bad. rewrite lookup_insert_eq. split; [done|].
      split; [intros r' Hr'; by rewrite lookup_insert_ne|].
      simpl. repeat split; try done.
Qed.

Lemma release_effects r p c w :
  poolObjects w !! r = Some p ->
  exists w1 p1,
    SubPool.release r c w = (Normal tt, w1)
    /\ heapOf w1
       = (optionObjects w, connectionObjects w, <[r := p1]> (poolObjects w),
          owningPools w, shardOwningPools w, nextRef w, connectLog w,
          poolLog w ++ [(r, CallRelease c)])
    /\ disconnectLog w1 = disconnectLog w
    /\ Pool.create p1 = Pool.create p
    /\ if bool_decide (c ∈ Pool.inUseObjects p) then
         Pool.availableObjects p1 = Pool.availableObjects p ++ [c]
         /\ Pool.inUseObjects p1 = SubPool.without c (Pool.inUseObjects p)
       else p1 = p.
Proof.
  intros Hp. unfold SubPool.release, bind, modify, SubPool.deref, SubPool.store, ret.
  simpl. rewrite Hp. simpl.
  destruct (bool_decide (c ∈ Pool.inUseObjects p)) eqn:Hin; simpl.
  - eexists _, _. split; [reflexivity|]. unfold heapOf. simpl.
    repeat split; reflexivity.
  - exists (push_poolLog (r, CallRelease c) w), p. split; [reflexivity|].
    unfold heapOf. simpl. rewrite (insert_id _ _ _ Hp). repeat split; reflexivity.
Qed.

Lemma destroy_effects r p c w :
  poolObjects w !! r = Some p ->
  exists w1 p1,
    SubPool.destroy r c w
    = (match Pool.destroy p c with Some e => Throw e | None => Normal tt end, w1)
    /\ heapOf w1
       = (optionObjects w, connectionObjects w, <[r := p1]> (poolObjects w),
          owningPools w, shardOwningPools w, nextRef w, connectLog w,
          poolLog w ++ [(r, CallDestroy c)])
    /\ disconnectLog w1 = disconnectLog w ++ [c]
    /\ Pool.create p1 = Pool.create p
    /\ Pool.availableObjects p1 = SubPool.without c (Pool.availableObjects p)
    /\ Pool.inUseObjects p1 = SubPool.without c (Pool.inUseObjects p).
Proof.
  intros Hp. unfold SubPool.destroy, bind, modify, SubPool.deref, SubPool.store, ret, throw.
  simpl. rewrite Hp. simpl.
  destruct (Pool.destroy p c); eexists _, _; (split; [reflexivity|]);
    unfold heapOf; simpl; repeat split; reflexivity.
Qed.

Lemma registry_frame (n : nat) w w1 :
  (forall k, k < n ->
     owningPools w1 !! k = owningPools w !! k
     /\ shardOwningPools w1 !! k = shardOwningPools w !! k) ->
  forall cl k, k < n -> registryOf cl w1 !! k = registryOf cl w !! k.
Proof. intros H cl k Hk. destruct (H k Hk). by destruct cl. Qed.

Lemma registry_same w w1 :
  owningPools w1 = owningPools w ->
  shardOwningPools w1 = shardOwningPools w ->
  forall cl, registryOf cl w1 = registryOf cl w.
Proof. intros H1 H2 cl. by destruct cl. Qed.

(** ** The registry invariant of a pool object *)

(** [acquire] on a consistent pool object leaves it consistent; the
    connection it hands out is checked out of it, recorded under its tag,
    and counted once more in [using]. *)
Lemma poolOk_acquire sharded tag r w res w1 :
  poolOk sharded tag w r ->
  SubPool.acquire r w = (res, w1) ->
  poolOk sharded tag w1 r
  /\ match res with
     | Normal c =>
         checkedOutOf r c w1
         /\ registryFor sharded w1 !! c = Some tag
         /\ SubPool.counter Pool.using_ r w1 = S (SubPool.counter Pool.using_ r w)
     | Throw _ =>
         SubPool.counter Pool.using_ r w1 = SubPool.counter Pool.using_ r w
     end.
Proof.
  intros (p & Hp & Hsh & Htag & Hnodup & Hreg) Hacq.
  destruct (acquire_effects r p w res w1 Hp Hacq)
    as (p1 & gone & Hp1 & _ & Hsh1 & Htag1 & Hreg1 & Havail & Hnext & Hframe & Hres).
  rewrite Havail in Hnodup, Hreg.
  assert (forall c, c ∈ gone ++ Pool.availableObjects p1 ++ Pool.inUseObjects p ->
            c < nextRef w1 /\ registryOf (Pool.create p1) w1 !! c = Some tag) as Hold.
  { intros c Hc. rewrite <- app_assoc in Hreg. destruct (Hreg c Hc) as [Hlt Hc'].
    split; [lia|]. rewrite Hreg1.
    by rewrite (registry_frame (nextRef w) w w1 Hframe). }
  assert (forall cl c, isSharded cl = sharded ->
            registryOf cl w1 !! c = registryFor sharded w1 !! c) as Hpick.
  { intros cl c <-. by destruct cl. }
  unfold SubPool.counter, checkedOutOf. rewrite Hp, Hp1. unfold Pool.using_.
  destruct res as [c|e].
  - destruct Hres as (Hin & Hc).
    assert ((c ∉ Pool.availableObjects p1 ++ Pool.inUseObjects p)
            /\ c < nextRef w1 /\ registryOf (Pool.create p1) w1 !! c = Some tag)
      as (Hfresh & Hlt & Hrec).
    { destruct Hc as [Hgone|(-> & Hnext1 & Hrec & _)].
      - split; [|apply Hold; apply elem_of_app; by left].
        rewrite <- app_assoc in Hnodup.
        apply NoDup_app in Hnodup as (_ & Hdisj & _). by apply Hdisj.
      - split; [|split; [lia|by rewrite Hreg1, Htag in *]].
        intros Hc. rewrite <- app_assoc in Hreg.
        assert (nextRef w ∈ gone ++ Pool.availableObjects p1 ++ Pool.inUseObjects p)
          as Hc' by (apply elem_of_app; by right).
        destruct (Hreg _ Hc'). lia. }
    split; [|split; [|split]].
    + exists p1. rewrite Hin, Hsh1, Htag1.
      split; [done|]. split; [done|]. split; [done|]. split.
      * rewrite <- app_assoc in Hnodup. apply NoDup_app in Hnodup as (_ & _ & Hnd).
        apply NoDup_app in Hnd as (Hnd1 & Hnd2 & Hnd3).
        apply NoDup_app. split; [done|]. split.
        -- intros x Hx [->|Hx']%elem_of_cons.
           ++ apply Hfresh, elem_of_app. by left.
           ++ by apply (Hnd2 x).
        -- apply NoDup_cons. split; [|done].
           intros Hc'. apply Hfresh, elem_of_app. by right.
      * intros x Hx.
        apply elem_of_app in Hx as [Hx|[->|Hx]%elem_of_cons]; [| done |];
          apply Hold; rewrite !elem_of_app; auto.
    + exists p1. split; [done|]. rewrite Hin. by apply elem_of_cons; left.
    + by rewrite <- (Hpick (Pool.create p1) c) by congruence.
    + by rewrite Hin.
  - split; [|by rewrite Hres].
    exists p1. rewrite Hres, Hsh1, Htag1.
    split; [done|]. split; [done|]. split; [done|]. split.
    + rewrite <- app_assoc in Hnodup. by apply NoDup_app in Hnodup as (_ & _ & Hnd).
    + intros x Hx. apply Hold. apply elem_of_app. by right.
Qed.

(** [acquire] on another pool object leaves a consistent pool object
    consistent and untouched. *)
Lemma poolOk_acquire_other sharded tag r r' p w res w1 :
  poolOk sharded tag w r' ->
  r' ≠ r ->
  poolObjects w !! r = Some p ->
  SubPool.acquire r w = (res, w1) ->
  poolOk sharded tag w1 r' /\ poolObjects w1 !! r' = poolObjects w !! r'.
Proof.
  intros (p' & Hp' & Hsh & Htag & Hnodup & Hreg) Hne Hp Hacq.
  destruct (acquire_effects r p w res w1 Hp Hacq)
    as (p1 & gone & _ & Hother & _ & _ & _ & _ & Hnext & Hframe & _).
  split; [|by apply Hother].
  exists p'. rewrite Hother by done.
  split; [done|]. split; [done|]. split; [done|]. split; [done|].
  intros c Hc. destruct (Hreg c Hc) as [Hlt Hc'].
  split; [lia|]. by rewrite (registry_frame (nextRef w) w w1 Hframe).
Qed.

Lemma elem_of_without c x l : x ∈ SubPool.without c l <-> x ≠ c /\ x ∈ l.
Proof. unfold SubPool.without. by rewrite list_elem_of_filter. Qed.

Lemma without_absent c l : c ∉ l -> SubPool.without c l = l.
Proof.
  unfold SubPool.without. induction l as [|x l IH]; intros Hc; [done|].
  apply not_elem_of_cons in Hc as [Hne Hc].
  rewrite filter_cons_True by done. by rewrite IH.
Qed.

Lemma length_without c l :
  NoDup l -> c ∈ l -> S (length (SubPool.without c l)) = length l.
Proof.
  unfold SubPool.without. induction l as [|x l IH]; intros Hnd Hc.
  - by apply elem_of_nil in Hc.
  - apply NoDup_cons in Hnd as [Hx Hnd].
    destruct (decide (x = c)) as [->|Hne].
    + rewrite filter_cons_False by (intros H; by apply H).
      fold (SubPool.without c l). by rewrite without_absent.
    + rewrite filter_cons_True by done. simpl. f_equal. apply IH; [done|].
      apply elem_of_cons in Hc as [->|Hc]; [done|done].
Qed.


Lemma poolOk_release_other sharded tag r r' p c w w1 res :
  poolOk sharded tag w r' ->
  r' ≠ r ->
  poolObjects w !! r = Some p ->
  SubPool.release r c w = (res, w1) ->
  poolOk sharded tag w1 r' /\ poolObjects w1 !! r' = poolObjects w !! r'.
Proof.
  intros (p' & Hp' & Hsh & Htag & Hnodup & Hreg) Hne Hp Hrel.
  destruct (release_effects r p c w Hp) as (w1' & p1 & Hrel' & Hheap & _).
  rewrite Hrel in Hrel'. injection Hrel' as _ <-.
  injection Hheap as Hopt Hconn Hpools Hown Hshard Hnext Hclog Hplog.
  assert (poolObjects w1 !! r' = poolObjects w !! r') as Hsame'
    by (rewrite Hpools; by apply lookup_insert_ne).
  split; [|done]. exists p'. rewrite Hsame', Hnext.
  rewrite (registry_same w w1 Hown Hshard). done.
Qed.

(** [destroy] on a consistent pool object leaves it consistent, whether or
    not [disconnect] rejects, and the connection is in none of its lists. *)
Lemma poolOk_destroy sharded tag r c w :
  poolOk sharded tag w r ->
  exists res w1,
    SubPool.destroy r c w = (res, w1)
    /\ poolOk sharded tag w1 r
    /\ poolLog w1 = poolLog w ++ [(r, CallDestroy c)]
    /\ disconnectLog w1 = disconnectLog w ++ [c]
    /\ (forall r', r' ≠ r -> poolObjects w1 !! r' = poolObjects w !! r')
    /\ nextRef w1 = nextRef w
    /\ owningPools w1 = owningPools w
    /\ shardOwningPools w1 = shardOwningPools w
    /\ ~ checkedOutOf r c w1
    /\ (checkedOutOf r c w ->
        S (SubPool.counter Pool.size r w1) = SubPool.counter Pool.size r w).
Proof.
  intros (p & Hp & Hsh & Htag & Hnodup & Hreg).
  destruct (destroy_effects r p c w Hp)
    as (w1 & p1 & Hdes & Hheap & Hdlog & Hcreate & Hav & Hin).
  injection Hheap as Hopt Hconn Hpools Hown Hshard Hnext Hclog Hplog.
  eexists _, w1. split; [exact Hdes|].
  assert (poolObjects w1 !! r = Some p1) as Hp1
    by (rewrite Hpools; apply lookup_insert_eq).
  apply NoDup_app in Hnodup as (Hnd1 & Hdisj & Hnd2).
  split; [|split; [done|split; [done|split; [|split; [done|split;
    [done|split; [done|split]]]]]]].
  - exists p1. rewrite Hcreate, Hnext, (registry_same w w1 Hown Hshard), Hav, Hin.
    split; [done|]. split; [done|]. split; [done|]. split.
    + apply NoDup_app. split; [by apply NoDup_filter|]. split; [|by apply NoDup_filter].
      intros x [_ Hx]%elem_of_without [_ Hx']%elem_of_without. by apply (Hdisj x).
    + intros x Hx. apply Hreg. rewrite elem_of_app in Hx. rewrite elem_of_app.
      destruct Hx as [[_ Hx]%elem_of_without|[_ Hx]%elem_of_without]; auto.
  - intros r' Hr'. rewrite Hpools. by apply lookup_insert_ne.
  - intros (p2 & Hp2 & Hc). rewrite Hp1 in Hp2. injection Hp2 as <-.
    rewrite Hin in Hc. by apply elem_of_without in Hc as [Hne _].
  - intros (p' & Hp' & Hc). rewrite Hp in Hp'. injection Hp' as <-.
    unfold SubPool.counter, Pool.size, Pool.using_, Pool.available.
    rewrite Hp, Hp1, Hav, Hin.
    assert (c ∉ Pool.availableObjects p) as Hnot
      by (intros Hc'; by apply (Hdisj c)).
    rewrite (without_absent c _ Hnot).
    pose proof (length_without c _ Hnd2 Hc). lia.
Qed.

Lemma poolOk_destroy_other sharded tag r r' p c w w1 res :
  poolOk sharded tag w r' ->
  r' ≠ r ->
  poolObjects w !! r = Some p ->
  SubPool.destroy r c w = (res, w1) ->
  poolOk sharded tag w1 r' /\ poolObjects w1 !! r' = poolObjects w !! r'.
Proof.
  intros (p' & Hp' & Hsh & Htag & Hnodup & Hreg) Hne Hp Hdes.
  destruct (destroy_effects r p c w Hp) as (w1' & p1 & Hdes' & Hheap & _).
  rewrite Hdes in Hdes'. injection Hdes' as _ <-.
  injection Hheap as Hopt Hconn Hpools Hown Hshard Hnext Hclog Hplog.
  assert (poolObjects w1 !! r' = poolObjects w !! r') as Hsame'
    by (rewrite Hpools; by apply lookup_insert_ne).
  split; [|done]. exists p'. rewrite Hsame', Hnext.
  rewrite (registry_same w w1 Hown Hshard). done.
Qed.

(** ** The replication pool *)

Lemma validType_dec o :
  validType o
  \/ (negb (default "write" (type o) =? "read")
      && negb (default "write" (type o) =? "write") = true).
Proof.
  unfold validType.
  destruct (String.eqb_spec (default "write" (type o)) "read") as [->|Hr]; [by left; left|].
  destruct (String.eqb_spec (default "write" (type o)) "write") as [->|Hw]; [by left; right|].
  by right.
Qed.

(** The three ways an [acquire] of the replication pool goes: the
    [beforeAcquire] hook rejects; the role fails the check; or the selected
    pool's [acquire] runs, and the state it leaves is the state [acquire]
    leaves. *)
Lemma acquire_run this options w :
  (exists e,
      ReplicationPool.hookedOptions this options = Throw e
      /\ ReplicationPool.acquire this options w = (Throw e, w))
  \/ (exists o,
         ReplicationPool.hookedOptions this options = Normal o
         /\ ~ validType o
         /\ ReplicationPool.acquire this options w
            = (Throw (Error ("Expected queryType to be either read or write. Received "
                             +:+ default "write" (type o))), w))
  \/ (exists o r w1,
         ReplicationPool.hookedOptions this options = Normal o
         /\ validType o
         /\ SubPool.acquire
              (ReplicationPool.selectPool this (default "write" (type o))
                 (default false (useMaster o))) w = (r, w1)
         /\ ReplicationPool.acquire this options w = (settle this o r, w1)).
Proof.
  destruct (ReplicationPool.hookedOptions this options) as [o|e] eqn:Hh.
  2:{ left. exists e. split; [done|]. unfold ReplicationPool.acquire. by rewrite Hh. }
  right.
  destruct (validType_dec o) as [Hty|Hbad].
  - right.
    set (pool := ReplicationPool.selectPool this (default "write" (type o))
                   (default false (useMaster o))).
    destruct (SubPool.acquire pool w) as [r w1] eqn:Hacq.
    exists o, r, w1. split; [done|]. split; [done|]. split; [done|].
    unfold ReplicationPool.acquire. rewrite Hh. unfold bind at 1, lift. simpl.
    rewrite (valid_passes_check o Hty). fold pool.
    unfold bind at 1, try_catch. rewrite Hacq. unfold settle.
    destruct r as [c|e].
    + unfold bind, ret, throw.
      destruct (ReplicationPool.afterAcquire this) as [hook|]; [|done].
      by destruct (hook c o).
    + unfold ReplicationPool.rethrow, throw.
      destruct (ReplicationPool.timeoutErrorClass this); [|done].
      by destruct (instanceofTimeoutError e).
  - left. exists o. split; [done|]. split.
    + intros [H|H]; rewrite H in Hbad; discriminate.
    + unfold ReplicationPool.acquire. rewrite Hh. unfold bind at 1, lift. simpl.
      by rewrite Hbad.
Qed.

Lemma counter_same f r w w1 :
  poolObjects w1 !! r = poolObjects w !! r ->
  SubPool.counter f r w1 = SubPool.counter f r w.
Proof. intros H. unfold SubPool.counter. by rewrite H. Qed.

Lemma selectPool_cases this ty um :
  ReplicationPool.selectPool this ty um = ReplicationPool.write this
  \/ ReplicationPool.read this
     = Some (ReplicationPool.selectPool this ty um).
Proof.
  unfold ReplicationPool.selectPool.
  destruct (ReplicationPool.read this); [|by left].
  destruct (_ && _); [by right|by left].
Qed.

Lemma settle_Normal this o r c :
  settle this o r = Normal c -> r = Normal c.
Proof.
  unfold settle. destruct r as [c'|e].
  - destruct (ReplicationPool.afterAcquire this) as [hook|]; [|done].
    by destruct (hook c' o).
  - destruct (ReplicationPool.timeoutErrorClass this); [|done].
    by destruct (instanceofTimeoutError e).
Qed.

Lemma settle_Throw_no_hook this o r e :
  ReplicationPool.afterAcquire this = None ->
  settle this o r = Throw e -> exists e', r = Throw e'.
Proof.
  unfold settle. intros ->. destruct r as [c|e']; [done|]. eauto.
Qed.

(** Running the selected pool's [acquire] keeps both pools of a consistent
    replication pool consistent, and leaves the other pool's object as it
    was. *)
Lemma replicationOk_acquire this pool w r w1 :
  replicationOk (ReplicationPool.read this) (ReplicationPool.write this) w ->
  (pool = ReplicationPool.write this \/ ReplicationPool.read this = Some pool) ->
  SubPool.acquire pool w = (r, w1) ->
  replicationOk (ReplicationPool.read this) (ReplicationPool.write this) w1
  /\ (forall f,
         ReplicationPool.aggregate f this w1 + SubPool.counter f pool w
         = ReplicationPool.aggregate f this w + SubPool.counter f pool w1)
  /\ match r with
     | Normal c =>
         checkedOutOf pool c w1
         /\ owningPools w1 !! c
            = Some (if decide (pool = ReplicationPool.write this) then "write"
                    else "read")
         /\ SubPool.counter Pool.using_ pool w1
            = S (SubPool.counter Pool.using_ pool w)
     | Throw _ =>
         SubPool.counter Pool.using_ pool w1 = SubPool.counter Pool.using_ pool w
     end.
Proof.
  intros (Hne & Hw & Hr) Hpool Hacq.
  unfold ReplicationPool.aggregate.
  destruct (decide (pool = ReplicationPool.write this)) as [->|Hnw].
  - pose proof Hw as (pw & Hpw & _).
    destruct (poolOk_acquire false "write" _ w r w1 Hw Hacq) as [Hw1 Hres].
    split; [|split; [|exact Hres]].
    + split; [done|]. split; [done|]. intros rd Hrd.
      eapply (poolOk_acquire_other false "read" (ReplicationPool.write this) rd);
        eauto. congruence.
    + intros f. destruct (ReplicationPool.read this) as [rd|] eqn:Hrd; [|lia].
      assert (rd ≠ ReplicationPool.write this) as Hrw by congruence.
      destruct (poolOk_acquire_other false "read" _ rd pw w r w1 (Hr rd eq_refl)
                  Hrw Hpw Hacq) as [_ Hsame].
      rewrite (counter_same f rd w w1 Hsame). lia.
  - destruct Hpool as [->|Hrd]; [done|].
    pose proof (Hr pool Hrd) as Hrok. pose proof Hrok as (pr & Hpr & _).
    destruct (poolOk_acquire false "read" pool w r w1 Hrok Hacq) as [Hr1 Hres].
    assert (ReplicationPool.write this ≠ pool) as Hwr by congruence.
    destruct (poolOk_acquire_other false "write" pool _ pr w r w1 Hw Hwr Hpr Hacq)
      as [Hw1 Hsame].
    split; [|split; [|exact Hres]].
    + split; [done|]. split; [done|]. intros rd Hrd'.
      rewrite Hrd in Hrd'. by injection Hrd' as <-.
    + intros f. rewrite Hrd. rewrite (counter_same f _ w w1 Hsame). lia.
Qed.

(** X4: [acquire] and the registry. On a consistent replication pool, every
    [acquire] leaves the pool consistent. A connection it returns is
    recorded in [owningPools] under a role whose pool ([getPool] of that
    role) holds it checked out, and the aggregate [using] has gone up by
    exactly one. *)
Theorem acquire_records_the_owner this options w res w1 :
  replicationOk (ReplicationPool.read this) (ReplicationPool.write this) w ->
  ReplicationPool.acquire this options w = (res, w1) ->
  replicationOk (ReplicationPool.read this) (ReplicationPool.write this) w1
  /\ forall c, res = Normal c ->
       exists role,
         owningPools w1 !! c = Some role
         /\ checkedOutOf (ReplicationPool.getPool this role) c w1
         /\ ReplicationPool.using_ this w1 = S (ReplicationPool.using_ this w).
Proof.
  intros Hok Hacq.
  destruct (acquire_run this options w)
    as [(e & _ & Hrun)|[(o & _ & _ & Hrun)|(o & r & w' & _ & _ & Hsub & Hrun)]];
    rewrite Hrun in Hacq; injection Hacq as <- <-; try by split.
  set (pool := ReplicationPool.selectPool this (default "write" (type o))
                 (default false (useMaster o))) in *.
  assert (pool = ReplicationPool.write this \/ ReplicationPool.read this = Some pool)
    as Hpool by apply selectPool_cases.
  destruct (replicationOk_acquire this pool w r w' Hok Hpool Hsub)
    as (Hok' & Hagg & Hres).
  split; [done|]. intros c Hc. apply settle_Normal in Hc as ->.
  destruct Hres as (Hout & Hrec & Husing).
  eexists. split; [exact Hrec|]. split.
  - unfold ReplicationPool.getPool. destruct Hok as (Hne & _).
    destruct (decide (pool = ReplicationPool.write this)) as [Heq|Hnw].
    + rewrite <- Heq. by destruct (ReplicationPool.read this).
    + destruct Hpool as [?|Hrd]; [done|]. by rewrite Hrd.
  - unfold ReplicationPool.using_. specialize (Hagg Pool.using_). lia.
Qed.

Lemma replicationOk_tag this pool w :
  replicationOk (ReplicationPool.read this) (ReplicationPool.write this) w ->
  (pool = ReplicationPool.write this \/ ReplicationPool.read this = Some pool) ->
  exists role,
    poolOk false role w pool
    /\ ReplicationPool.getPool this role = pool
    /\ ReplicationPool.falsy (Some role) = false
    /\ forall other,
         (other = ReplicationPool.write this \/ ReplicationPool.read this = Some other) ->
         other ≠ pool ->
         exists role', poolOk false role' w other.
Proof.
  intros (Hne & Hw & Hr) Hpool. unfold ReplicationPool.getPool.
  destruct (decide (pool = ReplicationPool.write this)) as [->|Hnw].
  - exists "write". split; [done|]. split; [by destruct (ReplicationPool.read this)|].
    split; [done|]. intros other [->|Hrd] Hother; [done|]. exists "read". by apply Hr.
  - destruct Hpool as [->|Hrd]; [done|]. exists "read". split; [by apply Hr|].
    rewrite Hrd. split; [done|]. split; [done|].
    intros other [->|Hrd'] Hother; [by exists "write"|]. congruence.
Qed.

Lemma poolOk_registered sharded tag w r c :
  poolOk sharded tag w r -> checkedOutOf r c w -> registryFor sharded w !! c = Some tag.
Proof.
  intros (p & Hp & Hsh & Htag & _ & Hreg) (p' & Hp' & Hc).
  rewrite Hp in Hp'. injection Hp' as <-.
  destruct (Hreg c) as [_ Hrec]; [apply elem_of_app; by right|].
  rewrite <- Hsh. by destruct (Pool.create p).
Qed.

(** [release] and [destroy] of the replication pool find the pool that
    holds the connection: they are that pool's [release] and [destroy]. *)
Lemma routes_to_owner this pool c w :
  replicationOk (ReplicationPool.read this) (ReplicationPool.write this) w ->
  (pool = ReplicationPool.write this \/ ReplicationPool.read this = Some pool) ->
  checkedOutOf pool c w ->
  ReplicationPool.release this c w = SubPool.release pool c w
  /\ ReplicationPool.destroy this c w = SubPool.destroy pool c w.
Proof.
  intros Hok Hpool Hout.
  destruct (replicationOk_tag this pool w Hok Hpool)
    as (role & Hpok & Hget & Hfalsy & _).
  pose proof (poolOk_registered false role w pool c Hpok Hout) as Hrec.
  simpl in Hrec.
  unfold ReplicationPool.release, ReplicationPool.destroy, bind, gets.
  rewrite Hrec, Hfalsy. simpl. by rewrite Hget.
Qed.

Lemma poolOk_tag_unique sharded tag tag' w r :
  poolOk sharded tag w r -> poolOk sharded tag' w r -> tag' = tag.
Proof.
  intros (q & Hq & _ & Htag & _) (q' & Hq' & _ & Htag' & _). congruence.
Qed.

Lemma poolOk_frame sharded tag w w1 r :
  poolOk sharded tag w r ->
  poolObjects w1 !! r = poolObjects w !! r ->
  nextRef w <= nextRef w1 ->
  (forall k, k < nextRef w ->
     owningPools w1 !! k = owningPools w !! k
     /\ shardOwningPools w1 !! k = shardOwningPools w !! k) ->
  poolOk sharded tag w1 r.
Proof.
  intros (p & Hp & Hsh & Htag & Hnodup & Hreg) Hsame Hnext Hframe.
  exists p. rewrite Hsame.
  split; [done|]. split; [done|]. split; [done|]. split; [done|].
  intros c Hc. destruct (Hreg c Hc) as [Hlt Hrec].
  split; [lia|]. by rewrite (registry_frame (nextRef w) w w1 Hframe).
Qed.

(** A step that works on one pool of a consistent replication pool, keeps
    that pool consistent and leaves the rest of the heap alone, keeps the
    replication pool consistent; the aggregates move as that pool's
    counters do. *)
Lemma replicationOk_frame this pool w w1 :
  replicationOk (ReplicationPool.read this) (ReplicationPool.write this) w ->
  (pool = ReplicationPool.write this \/ ReplicationPool.read this = Some pool) ->
  (forall role, poolOk false role w pool -> poolOk false role w1 pool) ->
  (forall r', r' ≠ pool -> poolObjects w1 !! r' = poolObjects w !! r') ->
  nextRef w <= nextRef w1 ->
  (forall k, k < nextRef w ->
     owningPools w1 !! k = owningPools w !! k
     /\ shardOwningPools w1 !! k = shardOwningPools w !! k) ->
  replicationOk (ReplicationPool.read this) (ReplicationPool.write this) w1
  /\ forall f,
       ReplicationPool.aggregate f this w1 + SubPool.counter f pool w
       = ReplicationPool.aggregate f this w + SubPool.counter f pool w1.
Proof.
  intros (Hne & Hw & Hr) Hpool Hown Hother Hnext Hframe.
  unfold ReplicationPool.aggregate.
  destruct (decide (pool = ReplicationPool.write this)) as [->|Hnw].
  - split.
    + split; [done|]. split; [by apply Hown|]. intros rd Hrd.
      apply (poolOk_frame false "read" w w1 rd); auto.
      apply Hother. congruence.
    + intros f. destruct (ReplicationPool.read this) as [rd|] eqn:Hrd; [|lia].
      rewrite (counter_same f rd w w1); [lia|]. apply Hother. congruence.
  - destruct Hpool as [->|Hrd]; [done|].
    assert (poolObjects w1 !! ReplicationPool.write this
            = poolObjects w !! ReplicationPool.write this) as Hsame
      by (apply Hother; congruence).
    split.
    + split; [done|]. split; [by apply (poolOk_frame false "write" w w1)|].
      intros rd Hrd'. rewrite Hrd in Hrd'. injection Hrd' as <-.
      apply Hown. by apply Hr.
    + intros f. rewrite Hrd, (counter_same f _ w w1 Hsame). lia.
Qed.


(** X6: [destroy] goes to the owner. On a consistent replication pool, a
    connection checked out of one of its pools is destroyed through that
    very pool: the pool receives the [destroy], [disconnect] is called once
    for the connection and its outcome is the outcome of [destroy], the
    connection is gone from the pool, [using] goes down by one, and the
    pool stays consistent. For a pool whose [min] is 0, which is not
    refilled, [size] goes down by one as well. *)
Theorem destroy_goes_to_the_owner this pool c w :
  replicationOk (ReplicationPool.read this) (ReplicationPool.write this) w ->
  (pool = ReplicationPool.write this \/ ReplicationPool.read this = Some pool) ->
  checkedOutOf pool c w ->
  exists p w1,
    poolObjects w !! pool = Some p
    /\ ReplicationPool.destroy this c w
       = (match Pool.destroy p c with Some e => Throw e | None => Normal tt end, w1)
    /\ poolLog w1 = poolLog w ++ [(pool, CallDestroy c)]
    /\ disconnectLog w1 = disconnectLog w ++ [c]
    /\ replicationOk (ReplicationPool.read this) (ReplicationPool.write this) w1
    /\ ~ checkedOutOf pool c w1
    /\ S (ReplicationPool.using_ this w1) = ReplicationPool.using_ this w
    /\ (Pool.min p = 0 ->
        S (ReplicationPool.size this w1) = ReplicationPool.size this w).
Proof.
  intros Hok Hpool Hout.
  destruct (routes_to_owner this pool c w Hok Hpool Hout) as [_ Hroute].
  destruct (replicationOk_tag this pool w Hok Hpool) as (role & Hpok & _).
  pose proof Hpok as (p & Hp & _ & _ & Hnodup & _).
  destruct (destroy_effects pool p c w Hp)
    as (w1 & p1 & Hdes & Hheap & Hdlog & _ & Hav & Hin).
  injection Hheap as Hopt Hconn Hpools Hown Hshard Hnext Hclog Hplog.
  destruct (poolOk_destroy false role pool c w Hpok)
    as (res' & w1' & Hdes' & Hpok1 & _ & _ & Hframe & _ & _ & _ & Hgone & Hsize).
  rewrite Hdes in Hdes'. injection Hdes' as _ <-.
  exists p, w1. rewrite Hroute. split; [done|]. split; [done|].
  split; [done|]. split; [done|].
  destruct (replicationOk_frame this pool w w1 Hok Hpool) as [Hok1 Hagg].
  { intros role' Hrole'. by rewrite (poolOk_tag_unique false role role' w pool). }
  { done. }
  { lia. }
  { intros k _. by rewrite Hown, Hshard. }
  split; [done|]. split; [done|].
  specialize (Hsize Hout).
  unfold ReplicationPool.size, ReplicationPool.using_.
  pose proof (Hagg Pool.size). pose proof (Hagg Pool.using_).
  assert (S (SubPool.counter Pool.using_ pool w1) = SubPool.counter Pool.using_ pool w).
  { destruct Hout as (p' & Hp' & Hc). rewrite Hp in Hp'. injection Hp' as <-.
    unfold SubPool.counter, Pool.using_. rewrite Hp, Hpools, lookup_insert_eq, Hin.
    apply NoDup_app in Hnodup as (_ & _ & Hnd). by apply length_without. }
  split; [lia|intros _; lia].
Qed.


Lemma poolOk_fresh name create disconnect validate sizing w r :
  poolObjects w !! r = Some (poolOf name create disconnect validate sizing) ->
  poolOk (isSharded create) (tagOf create) w r.
Proof.
  intros Hp. eexists. split; [exact Hp|]. simpl.
  split; [done|]. split; [done|]. split; [apply NoDup_nil_2|].
  intros c Hc. by apply elem_of_nil in Hc.
Qed.

Ltac look :=
  repeat first [rewrite lookup_insert_eq | rewrite lookup_insert_ne by lia].

(** X1: the constructor. For a sizing the pools accept,
    [new ReplicationPool(config)] returns a pool. It has no read pool
    exactly when [readConfig] is [null] or empty; otherwise its read pool is
    a fresh pool object over that array with the round-robin counter at 0.
    The write pool is a fresh pool object over [writeConfig]. The result is
    consistent, all four aggregate counters are 0, pool objects allocated
    earlier and the registry are untouched. *)
Theorem new_replication_pool config w :
  acceptedSizing (BaseReplicationPoolConfig.pool config) ->
  let mk name create :=
    poolOf name create (BaseReplicationPoolConfig.disconnect config)
      (BaseReplicationPoolConfig.validate config)
      (BaseReplicationPoolConfig.pool config) in
  exists this w1,
    ReplicationPool.new config w = (Normal this, w1)
    /\ (ReplicationPool.read this = None
        <-> BaseReplicationPoolConfig.readConfig config = None
            \/ BaseReplicationPoolConfig.readConfig config = Some [])
    /\ (forall rd, ReplicationPool.read this = Some rd ->
          exists readConfig,
            BaseReplicationPoolConfig.readConfig config = Some readConfig
            /\ poolObjects w1 !! rd
               = Some (mk "sequelize:read"
                         (RPReadCreate (BaseReplicationPoolConfig.connect config)
                            readConfig 0)))
    /\ poolObjects w1 !! ReplicationPool.write this
       = Some (mk "sequelize:write"
                 (RPWriteCreate (BaseReplicationPoolConfig.connect config)
                    (BaseReplicationPoolConfig.writeConfig config)))
    /\ replicationOk (ReplicationPool.read this) (ReplicationPool.write this) w1
    /\ (ReplicationPool.size this w1 = 0 /\ ReplicationPool.available this w1 = 0
        /\ ReplicationPool.using_ this w1 = 0 /\ ReplicationPool.waiting this w1 = 0)
    /\ (forall r, r < nextRef w -> poolObjects w1 !! r = poolObjects w !! r)
    /\ owningPools w1 = owningPools w.
Proof.
  intros _ mk. unfold ReplicationPool.new.
  destruct (BaseReplicationPoolConfig.readConfig config) as [[|o readConfig]|] eqn:Hrc.
  - unfold bind, ret, SubPool.new. simpl. eexists _, _. split; [reflexivity|]. simpl.
    split; [by split; auto|]. split; [by intros rd [=]|].
    rewrite lookup_insert_eq. split; [done|].
    split.
    { split; [done|]. split; [|by intros rd [=]].
      eapply (poolOk_fresh "sequelize:write" (RPWriteCreate _ _)). simpl.
      apply lookup_insert_eq. }
    unfold ReplicationPool.size, ReplicationPool.available, ReplicationPool.using_,
      ReplicationPool.waiting, ReplicationPool.aggregate, SubPool.counter. simpl.
    rewrite lookup_insert_eq. split; [done|]. split; [|done].
    intros r Hr. rewrite lookup_insert_ne; [done|lia].
  - unfold bind, ret, SubPool.new. simpl. eexists _, _. split; [reflexivity|]. simpl.
    split; [split; [done|by intros [H|H]]|].
    split; [intros rd [= <-]; eexists; split; [done|]; by look|].
    split; [by look|].
    split.
    { split; [intros [= H]; lia|]. split.
      - eapply (poolOk_fresh "sequelize:write" (RPWriteCreate _ _)). simpl. by look.
      - intros rd [= <-].
        eapply (poolOk_fresh "sequelize:read" (RPReadCreate _ _ _)). simpl. by look. }
    unfold ReplicationPool.size, ReplicationPool.available, ReplicationPool.using_,
      ReplicationPool.waiting, ReplicationPool.aggregate, SubPool.counter. simpl.
    split; [by look|]. split; [|done].
    intros r Hr. by look.
  - unfold bind, ret, SubPool.new. simpl. eexists _, _. split; [reflexivity|]. simpl.
    split; [by split; auto|]. split; [by intros rd [=]|].
    rewrite lookup_insert_eq. split; [done|].
    split.
    { split; [done|]. split; [|by intros rd [=]].
      eapply (poolOk_fresh "sequelize:write" (RPWriteCreate _ _)). simpl.
      apply lookup_insert_eq. }
    unfold ReplicationPool.size, ReplicationPool.available, ReplicationPool.using_,
      ReplicationPool.waiting, ReplicationPool.aggregate, SubPool.counter. simpl.
    rewrite lookup_insert_eq. split; [done|]. split; [|done].
    intros r Hr. rewrite lookup_insert_ne; [done|lia].
Qed.

Lemma new_replication_pool_witness :
  exists this w1,
    ReplicationPool.new (Scenario.replicated 5 None None) Scenario.heap
    = (Normal this, w1)
    /\ ReplicationPool.read this ≠ None
    /\ replicationOk (ReplicationPool.read this) (ReplicationPool.write this) w1
    /\ ReplicationPool.size this w1 = 0.
Proof.
  destruct (new_replication_pool (Scenario.replicated 5 None None) Scenario.heap)
    as (this & w1 & Hnew & Hread & _ & _ & Hok & (Hsize & _) & _).
  { split; simpl; lia. }
  exists this, w1. split; [exact Hnew|]. split; [|split; [exact Hok|exact Hsize]].
  intros Hnone. apply Hread in Hnone as [H|H]; discriminate H.
Defined.

(** X2: rejected before any pool is touched. When [beforeAcquire] rejects,
    [acquire] rejects with the same error; when the role, read after the
    hook, is neither ['read'] nor ['write'], it rejects with the
    invalid-role error. In both cases the state is the one before the call:
    no pool has been called and nothing has been created. *)
Theorem acquire_rejected_before_any_pool this options w :
  (forall e,
      ReplicationPool.hookedOptions this options = Throw e ->
      ReplicationPool.acquire this options w = (Throw e, w))
  /\ (forall o,
         ReplicationPool.hookedOptions this options = Normal o ->
         ~ validType o ->
         ReplicationPool.acquire this options w
         = (Throw (Error ("Expected queryType to be either read or write. Received "
                          +:+ default "write" (type o))), w)).
Proof.
  split.
  - intros e He.
    destruct (acquire_run this options w)
      as [(e' & He' & Hrun)|[(o & Ho & _)|(o & r & w' & Ho & _)]]; congruence.
  - intros o Ho Hbad.
    destruct (acquire_run this options w)
      as [(e' & He' & _)|[(o' & Ho' & _ & Hrun)|(o' & r & w' & Ho' & Hty & _)]];
      [congruence| |].
    + rewrite Ho in Ho'. by injection Ho' as <-.
    + rewrite Ho in Ho'. injection Ho' as <-. done.
Qed.

(** X3: errors that are no pool timeout pass through. When the selected
    pool's [acquire] fails with an error that is no [TimeoutError], or when
    no [timeoutErrorClass] is configured, [acquire] rejects with that very
    error, in the state the pool left, and [afterAcquire] plays no part. *)
Theorem pool_errors_pass_through this options o w e w1 :
  ReplicationPool.hookedOptions this options = Normal o ->
  validType o ->
  SubPool.acquire
    (ReplicationPool.selectPool this (default "write" (type o))
       (default false (useMaster o))) w = (Throw e, w1) ->
  ReplicationPool.timeoutErrorClass this = None \/ instanceofTimeoutError e = false ->
  ReplicationPool.acquire this options w = (Throw e, w1).
Proof.
  intros Ho Hty Hsub Hpass.
  destruct (acquire_run this options w)
    as [(e' & He' & _)|[(o' & Ho' & Hbad & _)|(o' & r & w' & Ho' & _ & Hsub' & Hrun)]].
  - congruence.
  - rewrite Ho in Ho'. injection Ho' as <-. done.
  - rewrite Ho in Ho'. injection Ho' as <-. rewrite Hsub in Hsub'.
    injection Hsub' as <- <-. rewrite Hrun. unfold settle.
    destruct Hpass as [-> | HnoT]; [done|].
    rewrite HnoT. by destruct (ReplicationPool.timeoutErrorClass this).
Qed.

(** ** The registry values of the sharded pool *)

Lemma split_colon_nonempty s : exists part parts, split_colon s = part :: parts.
Proof.
  induction s as [|c s (part & parts & IH)]; simpl; [by eexists _, _|].
  destruct (Ascii.eqb c ":"); [by eexists _, _|]. rewrite IH. by eexists _, _.
Qed.

Lemma split_colon_prefix a b :
  colonFree a = true ->
  split_colon (a +:+ ":" +:+ b) = a :: split_colon b.
Proof.
  induction a as [|c a IH]; simpl; intros Hfree; [done|].
  apply andb_true_iff in Hfree as [Hc Hfree].
  apply negb_true_iff in Hc. rewrite Hc.
  change (split_colon (a +:+ String ":" b)) with (split_colon (a +:+ ":" +:+ b)).
  by rewrite IH.
Qed.

Lemma split_colon_colonFree s : colonFree s = true -> split_colon s = [s].
Proof.
  induction s as [|c s IH]; simpl; intros Hfree; [done|].
  apply andb_true_iff in Hfree as [Hc Hfree].
  apply negb_true_iff in Hc. rewrite Hc. by rewrite IH.
Qed.

Lemma colonFree_beforeColon s : colonFree (beforeColon s) = true.
Proof.
  unfold beforeColon. induction s as [|c s IH]; simpl; [done|].
  destruct (Ascii.eqb c ":") eqn:Hc; [done|].
  destruct (split_colon_nonempty s) as (part & parts & Hs).
  rewrite Hs in IH |- *. simpl in *. by rewrite Hc, IH.
Qed.

(** X9: decoding the registry value. For a role without [':'], the value
    [role:shardId] decodes to that role and to the part of [shardId] before
    its first [':']: the shard id comes back exactly when it contains no
    [':']. *)
Theorem shardValueToTuple_decodes role shardId :
  colonFree role = true ->
  shardValueToTuple (role +:+ ":" +:+ shardId)
  = (Some (beforeColon shardId), Some role)
  /\ (beforeColon shardId = shardId <-> colonFree shardId = true).
Proof.
  intros Hrole. split.
  - unfold shardValueToTuple, beforeColon. rewrite split_colon_prefix by done.
    destruct (split_colon_nonempty shardId) as (part & parts & ->). done.
  - split.
    + intros <-. apply colonFree_beforeColon.
    + intros Hfree. unfold beforeColon. by rewrite split_colon_colonFree.
Qed.

(** ** The maps of the sharded pool *)

Lemma JsMap_get_set_eq {V} k (v : V) m : JsMap.get k (JsMap.set k v m) = Some v.
Proof.
  induction m as [|[k' v'] m IH]; simpl.
  - by rewrite String.eqb_refl.
  - destruct (String.eqb_spec k k') as [->|Hne]; simpl.
    + by rewrite String.eqb_refl.
    + by destruct (String.eqb_spec k k').
Qed.

Lemma JsMap_get_set_ne {V} k k' (v : V) m :
  k ≠ k' -> JsMap.get k' (JsMap.set k v m) = JsMap.get k' m.
Proof.
  intros Hne. induction m as [|[k0 v0] m IH]; simpl.
  - by destruct (String.eqb_spec k' k) as [->|].
  - destruct (String.eqb_spec k k0) as [->|Hk]; simpl.
    + by destruct (String.eqb_spec k' k0) as [->|].
    + destruct (String.eqb_spec k' k0); [done|apply IH].
Qed.

Lemma JsMap_values_set {V} k (v : V) m x :
  x ∈ JsMap.values (JsMap.set k v m) -> x = v \/ x ∈ JsMap.values m.
Proof.
  unfold JsMap.values. induction m as [|[k0 v0] m IH]; simpl.
  - intros ->%list_elem_of_singleton. by left.
  - destruct (String.eqb_spec k k0) as [->|Hk]; simpl.
    + intros [->|Hx]%elem_of_cons; [by left|]. right. by apply elem_of_cons; right.
    + intros [->|Hx]%elem_of_cons; [right; by apply elem_of_cons; left|].
      destruct (IH Hx) as [->|Hx']; [by left|]. right. by apply elem_of_cons; right.
Qed.

Lemma JsMap_values_set_NoDup {V} k (v : V) m :
  v ∉ JsMap.values m -> NoDup (JsMap.values m) ->
  NoDup (JsMap.values (JsMap.set k v m)).
Proof.
  unfold JsMap.values. induction m as [|[k0 v0] m IH]; simpl; intros Hv Hnd.
  - apply NoDup_singleton.
  - apply NoDup_cons in Hnd as [Hv0 Hnd]. apply not_elem_of_cons in Hv as [Hne Hv].
    destruct (String.eqb_spec k k0) as [->|Hk]; simpl.
    + apply NoDup_cons. by split.
    + apply NoDup_cons. split; [|by apply IH].
      intros Hin. apply (JsMap_values_set k v m v0) in Hin as [->|Hin]; done.
Qed.

Lemma JsMap_get_values {V} k (v : V) m :
  JsMap.get k m = Some v -> v ∈ JsMap.values m.
Proof.
  unfold JsMap.values. induction m as [|[k0 v0] m IH]; simpl; [done|].
  destruct (String.eqb_spec k k0) as [->|Hk].
  - intros [= ->]. by apply elem_of_cons; left.
  - intros H. apply elem_of_cons. right. by apply IH.
Qed.

(** Two keys of a map whose values are pairwise distinct have distinct
    values. *)
Lemma JsMap_get_distinct {V} k k' (v v' : V) m :
  NoDup (JsMap.values m) -> k ≠ k' ->
  JsMap.get k m = Some v -> JsMap.get k' m = Some v' -> v ≠ v'.
Proof.
  unfold JsMap.values. induction m as [|[k0 v0] m IH]; simpl; [done|].
  intros [Hv0 Hnd]%NoDup_cons Hne.
  destruct (String.eqb_spec k k0) as [->|Hk];
    destruct (String.eqb_spec k' k0) as [->|Hk']; try done.
  - intros [= <-] Hget' <-. apply Hv0. by apply (JsMap_get_values k' v0 m).
  - intros Hget [= <-] ->. apply Hv0. by apply (JsMap_get_values k v0 m).
  - by apply IH.
Qed.

(** ** The constructor of the sharded pool *)

Section AddShards.

Variable config : ShardedReplicationPoolConfig.t.

Local Abbreviation connect := (ShardedReplicationPoolConfig.connect config).
Local Abbreviation disconnect := (ShardedReplicationPoolConfig.disconnect config).
Local Abbreviation validate := (ShardedReplicationPoolConfig.validate config).
Local Abbreviation sizing := (ShardedReplicationPoolConfig.pool config).

(** What one round of the constructor's loop leaves. *)
Lemma addShard_spec read0 write0 shard w :
  exists read write w1,
    ShardedCommon.addShard connect disconnect validate sizing (read0, write0) shard w
    = (Normal (read, write), w1)
    /\ nextRef w < nextRef w1
    /\ (forall r, r < nextRef w -> poolObjects w1 !! r = poolObjects w !! r)
    /\ (owningPools w1 = owningPools w /\ shardOwningPools w1 = shardOwningPools w)
    /\ shardBuilt config shard (JsMap.get (ShardConfig.shardId shard) read)
         (JsMap.get (ShardConfig.shardId shard) write) w1
    /\ (forall r,
          JsMap.get (ShardConfig.shardId shard) write = Some r
          \/ JsMap.get (ShardConfig.shardId shard) read = Some (Some r) ->
          r < nextRef w1)
    /\ (forall s, s ≠ ShardConfig.shardId shard ->
          JsMap.get s read = JsMap.get s read0 /\ JsMap.get s write = JsMap.get s write0)
    /\ (forall r, r ∈ shardedRefs read write ->
          r ∈ shardedRefs read0 write0 \/ (nextRef w <= r < nextRef w1 /\ untouched w1 r)).
Proof.
  unfold ShardedCommon.addShard, shardBuilt.
  assert (forall (v : option nat) x k (m : JsMap.t (option nat)),
            x ∈ omap id (JsMap.values (JsMap.set k v m)) ->
            v = Some x \/ x ∈ omap id (JsMap.values m)) as Homap.
  { intros v x k m [y [Hy Hyx]]%list_elem_of_omap. simpl in Hyx. subst y.
    apply JsMap_values_set in Hy as [<-|Hy]; [by left|].
    right. apply list_elem_of_omap. by exists (Some x). }
  destruct (ShardConfig.readConfig shard) as [[|o readConfig]|] eqn:Hrc.
  - unfold bind, ret, SubPool.new. simpl. eexists _, _, _. split; [reflexivity|].
    simpl. rewrite !JsMap_get_set_eq.
    split; [lia|]. split; [intros r Hr; by look|]. split; [done|].
    split; [eexists; split; [done|]; split; [by look|done]|].
    split; [intros r [[= <-]|[=]]; lia|].
    split; [intros s Hs; by rewrite !JsMap_get_set_ne|].
    intros r [Hr|Hr]%elem_of_app.
    + apply Homap in Hr as [[=]|Hr]. left. apply elem_of_app. by left.
    + apply JsMap_values_set in Hr as [->|Hr]; [|left; apply elem_of_app; by right].
      right. split; [lia|]. eexists. simpl. split; [by look|done].
  - unfold bind, ret, SubPool.new. simpl. eexists _, _, _. split; [reflexivity|].
    simpl. rewrite !JsMap_get_set_eq.
    split; [lia|]. split; [intros r Hr; by look|]. split; [done|].
    split.
    { eexists. split; [done|]. split; [by look|].
      eexists. split; [done|]. split; [lia|by look]. }
    split; [intros r [[= <-]|[= <-]]; lia|].
    split; [intros s Hs; by rewrite !JsMap_get_set_ne|].
    intros r [Hr|Hr]%elem_of_app.
    + apply Homap in Hr as [[= <-]|Hr]; [|left; apply elem_of_app; by left].
      right. split; [lia|]. eexists. simpl. split; [by look|done].
    + apply JsMap_values_set in Hr as [->|Hr]; [|left; apply elem_of_app; by right].
      right. split; [lia|]. eexists. simpl. split; [by look|done].
  - unfold bind, ret, SubPool.new. simpl. eexists _, _, _. split; [reflexivity|].
    simpl. rewrite !JsMap_get_set_eq.
    split; [lia|]. split; [intros r Hr; by look|]. split; [done|].
    split; [eexists; split; [done|]; split; [by look|done]|].
    split; [intros r [[= <-]|[=]]; lia|].
    split; [intros s Hs; by rewrite !JsMap_get_set_ne|].
    intros r [Hr|Hr]%elem_of_app.
    + apply Homap in Hr as [[=]|Hr]. left. apply elem_of_app. by left.
    + apply JsMap_values_set in Hr as [->|Hr]; [|left; apply elem_of_app; by right].
      right. split; [lia|]. eexists. simpl. split; [by look|done].
Qed.

Lemma shardBuilt_frame shard readEntry writeEntry w w1 n :
  shardBuilt config shard readEntry writeEntry w ->
  (forall r, r < n -> poolObjects w1 !! r = poolObjects w !! r) ->
  (forall r, writeEntry = Some r \/ readEntry = Some (Some r) -> r < n) ->
  shardBuilt config shard readEntry writeEntry w1.
Proof.
  unfold shardBuilt. intros (wr & Hwr & Hpw & Hrd) Hframe Hbound.
  exists wr. split; [done|]. split.
  - rewrite Hframe; [done|]. apply Hbound. by left.
  - destruct (ShardConfig.readConfig shard) as [[|o rc]|]; try done.
    destruct Hrd as (rd & Hrd & Hne & Hpr). exists rd. split; [done|]. split; [done|].
    rewrite Hframe; [done|]. apply Hbound. by right.
Qed.

Lemma untouched_frame w w1 r :
  untouched w r -> poolObjects w1 !! r = poolObjects w !! r -> untouched w1 r.
Proof. intros (p & Hp & H) Hsame. exists p. by rewrite Hsame. Qed.

(** What the whole loop leaves: for every shard id, the pools of the last
    entry with that id; the entries of other ids as they were. *)
Lemma addShards_spec shards : forall read0 write0 w,
  exists read write w1,
    ShardedCommon.addShards connect disconnect validate sizing (read0, write0) shards w
    = (Normal (read, write), w1)
    /\ nextRef w <= nextRef w1
    /\ (forall r, r < nextRef w -> poolObjects w1 !! r = poolObjects w !! r)
    /\ (owningPools w1 = owningPools w /\ shardOwningPools w1 = shardOwningPools w)
    /\ (forall s,
          match lastShard s shards with
          | Some shard =>
              ShardConfig.shardId shard = s
              /\ shardBuilt config shard (JsMap.get s read) (JsMap.get s write) w1
          | None =>
              JsMap.get s read = JsMap.get s read0
              /\ JsMap.get s write = JsMap.get s write0
          end)
    /\ (forall r, r ∈ shardedRefs read write ->
          r ∈ shardedRefs read0 write0 \/ (nextRef w <= r < nextRef w1 /\ untouched w1 r)).
Proof.
  induction shards as [|shard rest IH]; intros read0 write0 w.
  - exists read0, write0, w. simpl. unfold ret. repeat (split; [done|]). by left.
  - destruct (addShard_spec read0 write0 shard w)
      as (read' & write' & w' & Hstep & Hnext & Hframe & [Hown Hshard] & Hbuilt
          & Hbound & Hothers & Hrefs).
    destruct (IH read' write' w')
      as (read & write & w1 & Hrest & Hnext1 & Hframe1 & [Hown1 Hshard1] & Hlast & Hrefs1).
    exists read, write, w1. split.
    { cbn [ShardedCommon.addShards]. unfold bind at 1. by rewrite Hstep. }
    split; [lia|]. split.
    { intros r Hr. rewrite Hframe1 by lia. by apply Hframe. }
    split; [by rewrite Hown1, Hshard1|]. split.
    + intros s. specialize (Hlast s). simpl.
      destruct (lastShard s rest) as [later|]; [done|].
      destruct Hlast as [Hr Hw]. rewrite Hr, Hw.
      destruct (String.eqb_spec s (ShardConfig.shardId shard)) as [->|Hne].
      * split; [done|].
        apply (shardBuilt_frame shard _ _ w' w1 (nextRef w')); [done|done|].
        intros r Hr'. apply Hbound. tauto.
      * by apply Hothers.
    + intros r Hr. destruct (Hrefs1 r Hr) as [Hr'|[Hr' Hun]].
      * destruct (Hrefs r Hr') as [Hr0|[Hr0 Hun]]; [by left|].
        right. split; [lia|]. apply (untouched_frame w'); [done|].
        apply Hframe1. lia.
      * right. split; [lia|done].
Qed.

End AddShards.

Lemma fold_left_zero {A} (g : A -> nat) (l : list A) acc :
  (forall x, x ∈ l -> g x = 0) ->
  fold_left (fun acc x => acc + g x) l acc = acc.
Proof.
  revert acc. induction l as [|x l IH]; intros acc Hall; simpl; [done|].
  rewrite (Hall x) by (by apply elem_of_cons; left).
  rewrite Nat.add_0_r. apply IH. intros y Hy. apply Hall. by apply elem_of_cons; right.
Qed.

Lemma total_untouched f read write w :
  (forall p, Pool.availableObjects p = [] -> Pool.inUseObjects p = [] ->
             Pool.pendingAcquires p = 0 -> f p = 0) ->
  (forall r, r ∈ shardedRefs read write -> untouched w r) ->
  ShardedCommon.total f read write w = 0.
Proof.
  intros Hf Hall. unfold ShardedCommon.total.
  rewrite (fold_left_zero (fun pool => ShardedCommon.counterOrZero f pool w)).
  - apply (fold_left_zero (fun pool => SubPool.counter f pool w)).
    intros r Hr. destruct (Hall r) as (p & Hp & Ha & Hi & Hw).
    { apply elem_of_app. by right. }
    unfold SubPool.counter. rewrite Hp. by apply Hf.
  - intros [r|] Hr; [|done]. simpl.
    destruct (Hall r) as (p & Hp & Ha & Hi & Hw).
    { apply elem_of_app. left. apply list_elem_of_omap. by exists (Some r). }
    unfold SubPool.counter. rewrite Hp. by apply Hf.
Qed.

(** X10: the constructor of the sharded pool. For a sizing the pools
    accept, [new ShardedReplicationPool] returns a pool; it ignores the
    configured hooks and [timeoutErrorClass]. For every shard id its maps
    hold the pools of the last entry with that id: a fresh write pool, and a
    fresh read pool exactly when that entry's [readConfig] is a non-empty
    array (a [null] read entry otherwise); for an id without entry both maps
    have nothing. The result is consistent, its four aggregate counters are
    0, and the earlier revision builds the same maps. *)
Theorem new_sharded_pool config w :
  acceptedSizing (ShardedReplicationPoolConfig.pool config) ->
  exists this w1,
    ShardedReplicationPool.new config w = (Normal this, w1)
    /\ LegacyShardedReplicationPool.new config w
       = (Normal {| LegacyShardedReplicationPool.read := ShardedReplicationPool.read this;
                    LegacyShardedReplicationPool.write := ShardedReplicationPool.write this |},
          w1)
    /\ (ShardedReplicationPool.timeoutErrorClass this = None
        /\ ShardedReplicationPool.beforeAcquire this = None
        /\ ShardedReplicationPool.afterAcquire this = None)
    /\ (forall s,
          match lastShard s (ShardedReplicationPoolConfig.shards config) with
          | Some shard =>
              ShardConfig.shardId shard = s
              /\ shardBuilt config shard
                   (JsMap.get s (ShardedReplicationPool.read this))
                   (JsMap.get s (ShardedReplicationPool.write this)) w1
          | None =>
              JsMap.get s (ShardedReplicationPool.read this) = None
              /\ JsMap.get s (ShardedReplicationPool.write this) = None
          end)
    /\ shardedOk (ShardedReplicationPool.read this) (ShardedReplicationPool.write this) w1
    /\ (ShardedReplicationPool.size this w1 = 0
        /\ ShardedReplicationPool.available this w1 = 0
        /\ ShardedReplicationPool.using_ this w1 = 0
        /\ ShardedReplicationPool.waiting this w1 = 0).
Proof.
  intros _.
  destruct (addShards_spec config (ShardedReplicationPoolConfig.shards config) [] [] w)
    as (read & write & w1 & Hrun & _ & _ & _ & Hlast & Hrefs).
  assert (ShardedCommon.addShards (ShardedCommon.Config.connect config)
            (ShardedCommon.Config.disconnect config)
            (ShardedCommon.Config.validate config)
            (ShardedCommon.Config.pool config) ([], [])
            (ShardedCommon.Config.shards config) w
          = (Normal (read, write), w1)) as Hrun' by exact Hrun.
  eexists {| ShardedReplicationPool.read := read;
             ShardedReplicationPool.write := write |}, w1.
  split.
  { unfold ShardedReplicationPool.new, bind. rewrite Hrun'. reflexivity. }
  split.
  { unfold LegacyShardedReplicationPool.new, bind. rewrite Hrun'. reflexivity. }
  simpl. split; [done|]. split; [exact Hlast|]. split.
  - split.
    + intros s rd Hget. specialize (Hlast s).
      destruct (lastShard s _) as [shard|]; [|simpl in Hlast; destruct Hlast; congruence].
      destruct Hlast as (<- & wr & _ & _ & Hread). rewrite Hget in Hread.
      destruct (ShardConfig.readConfig shard) as [[|o rc]|]; try discriminate.
      destruct Hread as (rd' & [= <-] & _ & Hp).
      by eapply (poolOk_fresh "sequelize:read" (SRPReadCreate _ _ _ _)).
    + intros s wr Hget. specialize (Hlast s).
      destruct (lastShard s _) as [shard|]; [|simpl in Hlast; destruct Hlast; congruence].
      destruct Hlast as (<- & wr' & Hwr & Hp & _). rewrite Hget in Hwr.
      injection Hwr as <-.
      by eapply (poolOk_fresh "sequelize:write" (SRPWriteCreate _ _ _)).
  - assert (forall r, r ∈ shardedRefs read write -> untouched w1 r) as Hall.
    { intros r Hr. destruct (Hrefs r Hr) as [Hnil|[_ Hun]]; [|done].
      by apply elem_of_nil in Hnil. }
    unfold ShardedReplicationPool.size, ShardedReplicationPool.available,
      ShardedReplicationPool.using_, ShardedReplicationPool.waiting. simpl.
    repeat split; apply total_untouched; try done;
      unfold Pool.size, Pool.available, Pool.using_, Pool.waiting;
      intros p Ha Hi Hw; by rewrite ?Ha, ?Hi, ?Hw.
Qed.

Lemma new_sharded_pool_witness :
  exists this w1,
    ShardedReplicationPool.new (Scenario.sharded 5 None Scenario.replicatedShards)
      Scenario.heap
    = (Normal this, w1)
    /\ shardedOk (ShardedReplicationPool.read this) (ShardedReplicationPool.write this)
         w1
    /\ ShardedReplicationPool.size this w1 = 0.
Proof.
  destruct (new_sharded_pool (Scenario.sharded 5 None Scenario.replicatedShards)
              Scenario.heap)
    as (this & w1 & Hnew & _ & _ & _ & Hok & (Hsize & _)).
  { split; simpl; lia. }
  exists this, w1. split; [exact Hnew|]. split; [exact Hok|exact Hsize].
Defined.

(** ** [acquire] of the sharded pool *)

(** How the end of the sharded [acquire] goes, given the pool's
    [acquire]. *)
Lemma handOut_run pool s w :
  exists r w',
    SubPool.acquire pool w = (r, w')
    /\ match r with
       | Throw e => handOut pool s w = (Throw e, w')
       | Normal c =>
           match connectionObjects w' !! c with
           | None =>
               handOut pool s w
               = (Throw (TypeError "cannot set properties of undefined"), w')
           | Some _ =>
               handOut pool s w
               = (Normal c,
                  set_connectionObjects (insert c {| conn_shardId := Some s |}) w')
           end
       end.
Proof.
  unfold handOut, bind.
  destruct (SubPool.acquire pool w) as [[c|e] w']; eexists _, _; (split; [done|]);
    [|done].
  unfold write_connection_shardId. by destruct (connectionObjects w' !! c).
Qed.

Lemma handOut_poolLog pool s w :
  poolLog (snd (handOut pool s w)) = poolLog w ++ [(pool, CallAcquire)].
Proof.
  destruct (handOut_run pool s w) as (r & w' & Hacq & Hrun).
  pose proof (acquire_poolLog pool w) as Hlog. rewrite Hacq in Hlog.
  destruct r as [c|e]; [destruct (connectionObjects w' !! c)|]; by rewrite Hrun.
Qed.

Lemma later_acquire_valid this s o w :
  type o = Some "read" \/ type o = Some "write" ->
  ShardedReplicationPool.acquire this s o w
  = match ShardedReplicationPool.getPool this (Some s) (type o)
            (default false (useMaster o)) with
    | Some pool => handOut pool s w
    | None =>
        (Throw (Error ("No " +:+ show (type o) +:+ " pool found for shard " +:+ s)), w)
    end.
Proof.
  intros Hty. unfold ShardedReplicationPool.acquire.
  destruct Hty as [-> | ->]; simpl;
    by destruct (ShardedReplicationPool.getPool _ _ _ _).
Qed.

Lemma legacy_acquire_valid this s o w :
  validType o ->
  LegacyShardedReplicationPool.acquire this s o w
  = match LegacyShardedReplicationPool.getPool this (Some s)
            (Some (default "write" (type o))) with
    | Some pool => handOut pool s w
    | None =>
        (Throw (Error ("No " +:+ default "write" (type o) +:+ " pool found for shard "
                       +:+ s)), w)
    end.
Proof.
  intros Hty. unfold LegacyShardedReplicationPool.acquire.
  rewrite (valid_passes_check o Hty).
  destruct (LegacyShardedReplicationPool.getPool _ _ _); [|done].
  by destruct (_ && _).
Qed.

(** X11: which pool serves a sharded [acquire]. In the later revision the
    role must be given: anything but ['read'] or ['write'] is rejected
    untouched. ['read'] without [useMaster] calls the read pool of the
    shard, and is refused untouched when the shard has none; ['write'], and
    ['read'] with [useMaster], call the write pool of the shard, and are
    refused untouched for an unknown shard. In the earlier revision an
    absent role means ['write'] and [useMaster] plays no part: ['read'] calls
    the read pool even with [useMaster]. *)
Theorem sharded_acquire_routing this legacy s o w :
  let called pool result := poolLog (snd result) = poolLog w ++ [(pool, CallAcquire)] in
  let refused role result :=
    result = (Throw (Error ("No " +:+ role +:+ " pool found for shard " +:+ s)), w) in
  let later := ShardedReplicationPool.acquire this s o w in
  let earlier := LegacyShardedReplicationPool.acquire legacy s o w in
  (type o ≠ Some "read" -> type o ≠ Some "write" ->
   later = (Throw (Error ("Expected queryType to be either read or write. Received "
                          +:+ show (type o))), w))
  /\ (type o = Some "read" -> default false (useMaster o) = false ->
      match JsMap.get s (ShardedReplicationPool.read this) with
      | Some (Some rd) => called rd later
      | _ => refused "read" later
      end)
  /\ (type o = Some "write"
      \/ (type o = Some "read" /\ default false (useMaster o) = true) ->
      match JsMap.get s (ShardedReplicationPool.write this) with
      | Some wr => called wr later
      | None => refused (show (type o)) later
      end)
  /\ (type o = Some "read" ->
      match JsMap.get s (LegacyShardedReplicationPool.read legacy) with
      | Some (Some rd) => called rd earlier
      | _ => refused "read" earlier
      end)
  /\ (type o = Some "write" \/ type o = None ->
      match JsMap.get s (LegacyShardedReplicationPool.write legacy) with
      | Some wr => called wr earlier
      | None => refused "write" earlier
      end).
Proof.
  intros called refused later earlier. subst called refused later earlier. simpl.
  split; [|split; [|split; [|split]]].
  - intros Hr Hw. unfold ShardedReplicationPool.acquire.
    rewrite (bool_decide_eq_false_2 _ Hr), (bool_decide_eq_false_2 _ Hw). done.
  - intros Hty Hum. rewrite later_acquire_valid by auto.
    unfold ShardedReplicationPool.getPool. rewrite Hty, Hum. simpl.
    destruct (JsMap.get s _) as [[rd|]|]; try done. apply handOut_poolLog.
  - intros Hty. rewrite later_acquire_valid by tauto.
    unfold ShardedReplicationPool.getPool.
    assert (bool_decide (type o = Some "read") && negb (default false (useMaster o))
            = false) as ->.
    { destruct Hty as [-> | [-> ->]]; done. }
    simpl. destruct (JsMap.get s _) as [wr|]; [apply handOut_poolLog|done].
  - intros Hty. rewrite legacy_acquire_valid by (left; by rewrite Hty).
    unfold LegacyShardedReplicationPool.getPool. rewrite Hty. simpl.
    destruct (JsMap.get s _) as [[rd|]|]; try done. apply handOut_poolLog.
  - intros Hty. rewrite legacy_acquire_valid by (right; by destruct Hty as [-> | ->]).
    unfold LegacyShardedReplicationPool.getPool.
    assert (default "write" (type o) = "write") as -> by by destruct Hty as [-> | ->].
    simpl. destruct (JsMap.get s _) as [wr|]; [apply handOut_poolLog|done].
Qed.

Lemma shardedOk_frame read write w w1 pool :
  shardedOk read write w ->
  (forall tag, poolOk true tag w pool -> poolOk true tag w1 pool) ->
  (forall r', r' ≠ pool -> poolObjects w1 !! r' = poolObjects w !! r') ->
  nextRef w <= nextRef w1 ->
  (forall k, k < nextRef w ->
     owningPools w1 !! k = owningPools w !! k
     /\ shardOwningPools w1 !! k = shardOwningPools w !! k) ->
  shardedOk read write w1.
Proof.
  intros [Hr Hw] Hown Hother Hnext Hframe.
  assert (forall tag r, poolOk true tag w r -> poolOk true tag w1 r) as Hkeep.
  { intros tag r Hok. destruct (decide (r = pool)) as [->|Hne]; [by apply Hown|].
    apply (poolOk_frame true tag w w1 r); auto. }
  split; intros s r Hget; apply Hkeep; [by apply Hr|by apply Hw].
Qed.

(** Handing out from a consistent pool of a consistent sharded pool. *)
Lemma handOut_keeps read write pool tag s w res w1 :
  shardedOk read write w ->
  poolOk true tag w pool ->
  handOut pool s w = (res, w1) ->
  shardedOk read write w1
  /\ forall c, res = Normal c ->
       shardOwningPools w1 !! c = Some tag
       /\ checkedOutOf pool c w1
       /\ connectionObjects w1 !! c = Some {| conn_shardId := Some s |}
       /\ SubPool.counter Pool.using_ pool w1
          = S (SubPool.counter Pool.using_ pool w).
Proof.
  intros Hok Hpok Hrun.
  destruct (handOut_run pool s w) as (r & w' & Hacq & Hrun').
  pose proof Hpok as (p & Hp & _).
  destruct (acquire_effects pool p w r w' Hp Hacq)
    as (p1 & gone & Hp1 & Hother & _ & _ & _ & _ & Hnext & Hframe & _).
  destruct (poolOk_acquire true tag pool w r w' Hpok Hacq) as [Hpok' Hres].
  assert (shardedOk read write w') as Hok'.
  { apply (shardedOk_frame read write w w' pool); auto.
    intros tag' Htag'. by rewrite (poolOk_tag_unique true tag tag' w pool). }
  destruct r as [c|e].
  - destruct (connectionObjects w' !! c) eqn:Hc;
      rewrite Hrun in Hrun'; injection Hrun' as -> ->; [|by split].
    split.
    + apply (shardedOk_frame read write w' _ pool); auto.
    + intros c' [= <-]. destruct Hres as (Hout & Hrec & Husing). simpl.
      rewrite lookup_insert_eq. repeat split; done.
  - rewrite Hrun in Hrun'. injection Hrun' as -> ->. by split.
Qed.

Lemma later_getPool_role this s ty um pool :
  ShardedReplicationPool.getPool this (Some s) ty um = Some pool ->
  (JsMap.get s (ShardedReplicationPool.read this) = Some (Some pool)
   /\ ShardedReplicationPool.getPool this (Some s) (Some "read") false = Some pool)
  \/ (JsMap.get s (ShardedReplicationPool.write this) = Some pool
      /\ ShardedReplicationPool.getPool this (Some s) (Some "write") false = Some pool).
Proof.
  unfold ShardedReplicationPool.getPool. simpl.
  destruct (_ && _).
  - destruct (JsMap.get s (ShardedReplicationPool.read this)) as [[rd|]|]; try done.
    intros [= ->]. by left.
  - intros H. right. by rewrite H.
Qed.

(** X12: the sharded [acquire] and the registry. On a consistent sharded
    pool, every [acquire] leaves the pool consistent. A connection it
    returns for shard [s] is recorded under [read:s] or [write:s], is checked
    out of the pool that [getPool] finds for that role and shard, carries
    [s] in its [shardId] field, and that pool's [using] has gone up by
    one. *)
Theorem sharded_acquire_records_the_owner this s o w res w1 :
  shardedOk (ShardedReplicationPool.read this) (ShardedReplicationPool.write this) w ->
  ShardedReplicationPool.acquire this s o w = (res, w1) ->
  shardedOk (ShardedReplicationPool.read this) (ShardedReplicationPool.write this) w1
  /\ forall c, res = Normal c ->
       exists role pool,
         (role = "read" \/ role = "write")
         /\ ShardedReplicationPool.getPool this (Some s) (Some role) false = Some pool
         /\ shardOwningPools w1 !! c = Some (role +:+ ":" +:+ s)
         /\ checkedOutOf pool c w1
         /\ connectionObjects w1 !! c = Some {| conn_shardId := Some s |}
         /\ SubPool.counter Pool.using_ pool w1
            = S (SubPool.counter Pool.using_ pool w).
Proof.
  intros Hok Hacq.
  destruct (decide (type o = Some "read" \/ type o = Some "write")) as [Hty|Hty].
  2:{ unfold ShardedReplicationPool.acquire in Hacq.
      rewrite !bool_decide_eq_false_2 in Hacq by tauto.
      injection Hacq as <- <-. by split. }
  rewrite later_acquire_valid in Hacq by done.
  destruct (ShardedReplicationPool.getPool this (Some s) (type o) _) as [pool|] eqn:Hget.
  2:{ injection Hacq as <- <-. by split. }
  destruct Hok as [Hr Hw].
  destruct (later_getPool_role this s _ _ pool Hget) as [[Hmap Hrole]|[Hmap Hrole]].
  - destruct (handOut_keeps _ _ pool ("read:" +:+ s) s w res w1 (conj Hr Hw)
                (Hr s pool Hmap) Hacq) as [Hok1 Hres].
    split; [done|]. intros c Hc. exists "read", pool.
    split; [by left|]. split; [done|]. by apply Hres.
  - destruct (handOut_keeps _ _ pool ("write:" +:+ s) s w res w1 (conj Hr Hw)
                (Hw s pool Hmap) Hacq) as [Hok1 Hres].
    split; [done|]. intros c Hc. exists "write", pool.
    split; [by right|]. split; [done|]. by apply Hres.
Qed.

(** ** [release] of the sharded pool *)

Lemma later_release_recorded this c w role s :
  role = "read" \/ role = "write" ->
  shardOwningPools w !! c = Some (role +:+ ":" +:+ s) ->
  ShardedReplicationPool.release this c w
  = match ShardedReplicationPool.getPool this (Some (beforeColon s)) (Some role) false with
    | Some pool => SubPool.release pool c w
    | None => (Normal tt, w)
    end.
Proof.
  intros Hrole Hrec. unfold ShardedReplicationPool.release, bind, gets.
  rewrite Hrec.
  assert (colonFree role = true) as Hfree by by destruct Hrole as [-> | ->].
  assert (ReplicationPool.falsy (Some (role +:+ ":" +:+ s)) = false) as ->
    by by destruct Hrole as [-> | ->].
  change (default "" (Some (role +:+ ":" +:+ s))) with (role +:+ ":" +:+ s).
  unfold shardValueToTuple. rewrite split_colon_prefix by done.
  unfold beforeColon. destruct (split_colon_nonempty s) as (part & parts & ->). simpl.
  by destruct (ShardedReplicationPool.getPool _ _ _ _).
Qed.

(** What the sharded [acquire] establishes when it returns a connection. *)
Lemma later_acquire_Normal this s o w c w1 :
  shardedOk (ShardedReplicationPool.read this) (ShardedReplicationPool.write this) w ->
  ShardedReplicationPool.acquire this s o w = (Normal c, w1) ->
  exists role pool,
    (role = "read" \/ role = "write")
    /\ ShardedReplicationPool.getPool this (Some s) (Some role) false = Some pool
    /\ poolOk true (role +:+ ":" +:+ s) w1 pool
    /\ shardedOk (ShardedReplicationPool.read this) (ShardedReplicationPool.write this) w1
    /\ shardOwningPools w1 !! c = Some (role +:+ ":" +:+ s)
    /\ checkedOutOf pool c w1
    /\ poolLog w1 = poolLog w ++ [(pool, CallAcquire)]
    /\ SubPool.counter Pool.using_ pool w1 = S (SubPool.counter Pool.using_ pool w).
Proof.
  intros Hok Hacq.
  destruct (decide (type o = Some "read" \/ type o = Some "write")) as [Hty|Hty].
  2:{ unfold ShardedReplicationPool.acquire in Hacq.
      rewrite !bool_decide_eq_false_2 in Hacq by tauto. discriminate. }
  rewrite later_acquire_valid in Hacq by done.
  destruct (ShardedReplicationPool.getPool this (Some s) (type o) _) as [pool|] eqn:Hget;
    [|discriminate].
  pose proof (handOut_poolLog pool s w) as Hlog. rewrite Hacq in Hlog. simpl in Hlog.
  pose proof Hok as [Hr Hw].
  destruct (later_getPool_role this s _ _ pool Hget) as [[Hmap Hrole]|[Hmap Hrole]].
  - destruct (handOut_keeps _ _ pool ("read:" +:+ s) s w _ w1 Hok (Hr s pool Hmap) Hacq)
      as [Hok1 Hres].
    destruct (Hres c eq_refl) as (Hrec & Hout & _ & Husing).
    exists "read", pool. split; [by left|]. split; [done|].
    split; [by apply Hok1|]. done.
  - destruct (handOut_keeps _ _ pool ("write:" +:+ s) s w _ w1 Hok (Hw s pool Hmap) Hacq)
      as [Hok1 Hres].
    destruct (Hres c eq_refl) as (Hrec & Hout & _ & Husing).
    exists "write", pool. split; [by right|]. split; [done|].
    split; [by apply Hok1|]. done.
Qed.


Lemma tag_injective role role' s s' :
  (role = "read" \/ role = "write") -> (role' = "read" \/ role' = "write") ->
  role +:+ ":" +:+ s = role' +:+ ":" +:+ s' -> s = s'.
Proof. intros [-> | ->] [-> | ->]; simpl; by intros [=]. Qed.

(** X14: a [':'] in the shard id. On a consistent sharded pool, a connection
    returned by [acquire] for a shard whose id contains [':'] is not given
    back by [release]: the pool that served it receives no call, the
    connection is still checked out of it and its [using] is unchanged.
    When no shard is named by the part of the id before the first [':'],
    [release] completes normally and changes nothing. *)
Theorem sharded_release_misses_after_colon this s o w c w1 :
  colonFree s = false ->
  shardedOk (ShardedReplicationPool.read this) (ShardedReplicationPool.write this) w ->
  ShardedReplicationPool.acquire this s o w = (Normal c, w1) ->
  exists pool,
    let w2 := snd (ShardedReplicationPool.release this c w1) in
    checkedOutOf pool c w1
    /\ checkedOutOf pool c w2
    /\ SubPool.counter Pool.using_ pool w2 = SubPool.counter Pool.using_ pool w1
    /\ (forall call, (pool, call) ∈ poolLog w2 -> (pool, call) ∈ poolLog w1)
    /\ ((forall role,
           ShardedReplicationPool.getPool this (Some (beforeColon s)) (Some role) false
           = None) ->
        ShardedReplicationPool.release this c w1 = (Normal tt, w1)).
Proof.
  intros Hcolon Hok Hacq.
  destruct (later_acquire_Normal this s o w c w1 Hok Hacq)
    as (role & pool & Hrole & Hget & Hpok & Hok1 & Hrec & Hout & Hlog & Husing).
  exists pool. simpl.
  rewrite (later_release_recorded this c w1 role s Hrole Hrec).
  destruct (ShardedReplicationPool.getPool this (Some (beforeColon s)) (Some role) false)
    as [other|] eqn:Hother.
  2:{ by repeat split. }
  assert (exists role', (role' = "read" \/ role' = "write")
                        /\ poolOk true (role' +:+ ":" +:+ beforeColon s) w1 other)
    as (role' & Hrole' & Hpok').
  { destruct Hok1 as [Hr Hw].
    destruct (later_getPool_role this _ _ _ other Hother) as [[Hmap _]|[Hmap _]].
    - exists "read". split; [by left|]. by apply Hr.
    - exists "write". split; [by right|]. by apply Hw. }
  assert (other ≠ pool) as Hne.
  { intros ->. pose proof (poolOk_tag_unique true _ _ w1 pool Hpok Hpok') as Htag.
    apply tag_injective in Htag; [|done|done].
    pose proof (colonFree_beforeColon s) as Hfree. rewrite Htag in Hfree. congruence. }
  pose proof Hpok' as (q & Hq & _).
  destruct (release_effects other q c w1 Hq) as (w2 & q1 & Hrel & Hheap & _).
  injection Hheap as Hopt Hconn Hpools Hown Hshard Hnext Hclog Hplog.
  assert (poolObjects w2 !! pool = poolObjects w1 !! pool) as Hsame
    by (rewrite Hpools; by apply lookup_insert_ne).
  rewrite Hrel. simpl. split; [done|]. split.
  { destruct Hout as (p & Hp & Hc). exists p. by rewrite Hsame. }
  split; [by apply counter_same|]. split.
  - intros call. rewrite Hplog, elem_of_app, list_elem_of_singleton.
    intros [H|[= H _]]; [done|]. by destruct Hne.
  - intros Hnone. by rewrite Hnone in Hother.
Qed.

(** ** The per-shard counters, exactly *)

(** X17: when the per-shard counters are right. In both revisions a per-shard
    accessor never exceeds the sum of the shard's read and write counters,
    and equals it exactly when the shard has no read pool or its write
    counter is 0. *)
Theorem shardCounter_exact_iff f this legacy s w :
  let sum read write :=
    ShardedCommon.counterOrZero f (readPoolOf read s) w
    + ShardedCommon.counterOrZero f (JsMap.get s write) w in
  let exact read write :=
    readPoolOf read s = None
    \/ ShardedCommon.counterOrZero f (JsMap.get s write) w = 0 in
  (ShardedReplicationPool.shardCounter f this s w
   <= sum (ShardedReplicationPool.read this) (ShardedReplicationPool.write this)
   /\ (ShardedReplicationPool.shardCounter f this s w
       = sum (ShardedReplicationPool.read this) (ShardedReplicationPool.write this)
       <-> exact (ShardedReplicationPool.read this) (ShardedReplicationPool.write this)))
  /\ (LegacyShardedReplicationPool.shardCounter f legacy s w
      <= sum (LegacyShardedReplicationPool.read legacy)
           (LegacyShardedReplicationPool.write legacy)
      /\ (LegacyShardedReplicationPool.shardCounter f legacy s w
          = sum (LegacyShardedReplicationPool.read legacy)
              (LegacyShardedReplicationPool.write legacy)
          <-> exact (LegacyShardedReplicationPool.read legacy)
                (LegacyShardedReplicationPool.write legacy))).
Proof.
  intros sum exact. subst sum exact. simpl.
  unfold ShardedReplicationPool.shardCounter, LegacyShardedReplicationPool.shardCounter,
    ShardedReplicationPool.getPool, LegacyShardedReplicationPool.getPool, readPoolOf.
  simpl. split.
  - destruct (JsMap.get s (ShardedReplicationPool.read this)) as [[rd|]|]; simpl;
      (split; [lia|]); split; try (intros; lia); try (by left); intros [H|H];
      try discriminate; lia.
  - destruct (JsMap.get s (LegacyShardedReplicationPool.read legacy)) as [[rd|]|]; simpl;
      (split; [lia|]); split; try (intros; lia); try (by left); intros [H|H];
      try discriminate; lia.
Qed.

(** ** The pool of replication pools *)

Lemma legacy_new_spec config w :
  exists rp w1,
    LegacyReplicationPool.new config w = (Normal rp, w1)
    /\ (LegacyReplicationPool.read rp = None
        <-> LegacyReplicationPool.Config.readConfig config = None
            \/ LegacyReplicationPool.Config.readConfig config = Some [])
    /\ LegacyReplicationPool.read rp ≠ Some (LegacyReplicationPool.write rp).
Proof.
  unfold LegacyReplicationPool.new.
  destruct (LegacyReplicationPool.Config.readConfig config) as [[|o rc]|];
    unfold bind, ret, SubPool.new; simpl; eexists _, _; (split; [reflexivity|]); simpl.
  - split; [by split; auto|done].
  - split; [split; [done|by intros [H|H]]|]. intros [= H]. lia.
  - split; [by split; auto|done].
Qed.

Lemma addShards_lastConfig configs : forall shards0 w,
  exists shards w1,
    ShardPool.addShards shards0 configs w = (Normal shards, w1)
    /\ forall s,
         match lastConfig s configs with
         | Some shardConfig =>
             ShardPool.shardId shardConfig = s
             /\ exists rp w' w'',
                  JsMap.get s shards = Some rp
                  /\ LegacyReplicationPool.new (ShardPool.config shardConfig) w'
                     = (Normal rp, w'')
         | None => JsMap.get s shards = JsMap.get s shards0
         end.
Proof.
  induction configs as [|shardConfig rest IH]; intros shards0 w.
  - exists shards0, w. by split.
  - destruct (legacy_new_spec (ShardPool.config shardConfig) w) as (rp & w' & Hnew & _).
    destruct (IH (JsMap.set (ShardPool.shardId shardConfig) rp shards0) w')
      as (shards & w1 & Hrest & Hlast).
    exists shards, w1. split.
    { cbn [ShardPool.addShards]. unfold bind at 1. by rewrite Hnew. }
    intros s. specialize (Hlast s). simpl.
    destruct (lastConfig s rest) as [later|]; [done|].
    destruct (String.eqb_spec s (ShardPool.shardId shardConfig)) as [->|Hne].
    + split; [done|]. exists rp, w, w'. by rewrite Hlast, JsMap_get_set_eq.
    + rewrite Hlast. by apply JsMap_get_set_ne.
Qed.

(** X19: the pool of replication pools. When every entry has a sizing the
    pools accept, [new ShardPool(config)] returns a pool. [getShardPool]
    returns [null] for a shard id without entry, and otherwise the
    replication pool built from the last entry with that id. That pool has
    no read pool exactly when the entry's [readConfig] is [null] or empty,
    and then every [acquire] with a valid role, ['read'] included, calls its
    write pool. *)
Theorem shard_pool_serves_reads_from_write configs w :
  (forall shardConfig,
      shardConfig ∈ configs ->
      acceptedSizing (LegacyReplicationPool.Config.pool (ShardPool.config shardConfig))) ->
  exists this w1,
    ShardPool.new configs w = (Normal this, w1)
    /\ forall s,
         match lastConfig s configs with
         | None => ShardPool.getShardPool this s = None
         | Some shardConfig =>
             exists rp,
               ShardPool.getShardPool this s = Some rp
               /\ (LegacyReplicationPool.read rp = None
                   <-> LegacyReplicationPool.Config.readConfig
                         (ShardPool.config shardConfig) = None
                       \/ LegacyReplicationPool.Config.readConfig
                            (ShardPool.config shardConfig) = Some [])
               /\ (LegacyReplicationPool.read rp = None ->
                   forall o w',
                     validType o ->
                     poolLog (snd (LegacyReplicationPool.acquire rp o w'))
                     = poolLog w' ++ [(LegacyReplicationPool.write rp, CallAcquire)])
         end.
Proof.
  intros _.
  destruct (addShards_lastConfig configs [] w) as (shards & w1 & Hrun & Hlast).
  exists {| ShardPool.shards := shards |}, w1. split.
  { unfold ShardPool.new, bind. by rewrite Hrun. }
  intros s. specialize (Hlast s). unfold ShardPool.getShardPool. simpl.
  destruct (lastConfig s configs) as [shardConfig|]; [|done].
  destruct Hlast as (_ & rp & w' & w'' & Hget & Hnew).
  exists rp. split; [done|].
  destruct (legacy_new_spec (ShardPool.config shardConfig) w')
    as (rp' & w2 & Hnew' & Hread & _).
  rewrite Hnew in Hnew'. injection Hnew' as <- <-.
  split; [done|]. intros Hnone o w0 Hty.
  unfold LegacyReplicationPool.acquire. rewrite (valid_passes_check o Hty), Hnone.
  apply acquire_poolLog.
Qed.

Lemma shard_pool_serves_reads_from_write_witness :
  exists this w1 rp,
    ShardPool.new [Cases.unreplicated "s1"] Scenario.heap = (Normal this, w1)
    /\ ShardPool.getShardPool this "s2" = None
    /\ ShardPool.getShardPool this "s1" = Some rp
    /\ LegacyReplicationPool.read rp = None
    /\ poolLog (snd (LegacyReplicationPool.acquire rp (Scenario.asking "read" false) w1))
       = poolLog w1 ++ [(LegacyReplicationPool.write rp, CallAcquire)].
Proof.
  destruct (shard_pool_serves_reads_from_write [Cases.unreplicated "s1"] Scenario.heap)
    as (this & w1 & Hnew & Hget).
  { intros shardConfig Hin. apply list_elem_of_singleton in Hin as ->.
    split; simpl; lia. }
  pose proof (Hget "s2") as Hnone. pose proof (Hget "s1") as Hsome.
  simpl in Hnone, Hsome. destruct Hsome as (rp & Hrp & Hread & Hwrite).
  assert (LegacyReplicationPool.read rp = None) as Hno by (apply Hread; by left).
  exists this, w1, rp. split; [exact Hnew|]. split; [exact Hnone|].
  split; [exact Hrp|]. split; [exact Hno|].
  apply (Hwrite Hno). left. reflexivity.
Defined.

(** ** The properties at concrete configurations *)

Lemma rp_consistent max : replicationOk (Some 10) 11 (Scenario.rpWorld max).
Proof.
  split; [discriminate|]. split.
  - apply (poolOk_fresh "sequelize:write" (RPWriteCreate Scenario.okConnect 0)
             Scenario.okDisconnect Scenario.allValid (Scenario.sizing max)).
    reflexivity.
  - intros rd [= <-].
    apply (poolOk_fresh "sequelize:read" (RPReadCreate Scenario.okConnect [1; 2] 0)
             Scenario.okDisconnect Scenario.allValid (Scenario.sizing max)).
    reflexivity.
Qed.

Lemma writeAcquired_consistent :
  replicationOk (Some 10) 11 (snd Cases.writeAcquired)
  /\ checkedOutOf 11 12 (snd Cases.writeAcquired).
Proof.
  assert (SubPool.acquire 11 (Scenario.rpWorld 5) = (Normal 12, snd Cases.writeAcquired))
    as Hrun by (vm_compute; reflexivity).
  destruct (replicationOk_acquire (Scenario.rp None None) 11 _ _ _ (rp_consistent 5)
              (or_introl eq_refl) Hrun) as (Hok & _ & Hout & _).
  by split.
Qed.

Lemma manager_consistent :
  shardedOk (ShardedReplicationPool.read Cases.manager)
    (ShardedReplicationPool.write Cases.manager) Scenario.shardedWorld.
Proof.
  split; intros s r H; simpl in H; destruct (String.eqb_spec s "s1") as [->|];
    try discriminate; injection H as <-.
  - apply (poolOk_fresh "sequelize:read"
             (SRPReadCreate Scenario.okConnect [1; 2] 0 "s1")
             Scenario.okDisconnect Scenario.allValid (Scenario.sizing 5)).
    vm_compute. reflexivity.
  - apply (poolOk_fresh "sequelize:write" (SRPWriteCreate Scenario.okConnect 0 "s1")
             Scenario.okDisconnect Scenario.allValid (Scenario.sizing 5)).
    vm_compute. reflexivity.
Qed.

Lemma colonManager_consistent :
  shardedOk (ShardedReplicationPool.read Cases.colonManager)
    (ShardedReplicationPool.write Cases.colonManager) Cases.colonWorld.
Proof.
  split; intros s r H; simpl in H; destruct (String.eqb_spec s "eu:1") as [->|];
    try discriminate; injection H as <-.
  apply (poolOk_fresh "sequelize:write" (SRPWriteCreate Scenario.okConnect 0 "eu:1")
           Scenario.okDisconnect Scenario.allValid (Scenario.sizing 5)).
  vm_compute. reflexivity.
Qed.

Lemma shardValueToTuple_decodes_witness :
  shardValueToTuple "write:eu:1" = (Some "eu", Some "write")
  /\ (beforeColon "eu:1" = "eu:1" <-> colonFree "eu:1" = true).
Proof.
  apply (shardValueToTuple_decodes "write" "eu:1").
  reflexivity.
Defined.

Lemma acquire_records_the_owner_witness :
  exists role,
    owningPools (snd Cases.writeAcquired) !! 12 = Some role
    /\ checkedOutOf (ReplicationPool.getPool (Scenario.rp None None) role) 12
         (snd Cases.writeAcquired)
    /\ ReplicationPool.using_ (Scenario.rp None None) (snd Cases.writeAcquired)
       = S (ReplicationPool.using_ (Scenario.rp None None) (Scenario.rpWorld 5)).
Proof.
  refine (proj2 (acquire_records_the_owner (Scenario.rp None None)
                   (Some (Scenario.asking "write" false)) (Scenario.rpWorld 5)
                   (Normal 12) (snd Cases.writeAcquired) (rp_consistent 5) _)
            12 eq_refl).
  vm_compute. reflexivity.
Defined.


Lemma destroy_goes_to_the_owner_witness :
  exists p w1,
    poolObjects (snd Cases.writeAcquired) !! 11 = Some p
    /\ ReplicationPool.destroy (Scenario.rp None None) 12 (snd Cases.writeAcquired)
       = (match Pool.destroy p 12 with Some e => Throw e | None => Normal tt end, w1)
    /\ poolLog w1 = poolLog (snd Cases.writeAcquired) ++ [(11, CallDestroy 12)]
    /\ disconnectLog w1 = disconnectLog (snd Cases.writeAcquired) ++ [12]
    /\ replicationOk (Some 10) 11 w1
    /\ ~ checkedOutOf 11 12 w1
    /\ S (ReplicationPool.using_ (Scenario.rp None None) w1)
       = ReplicationPool.using_ (Scenario.rp None None) (snd Cases.writeAcquired)
    /\ (Pool.min p = 0 ->
        S (ReplicationPool.size (Scenario.rp None None) w1)
        = ReplicationPool.size (Scenario.rp None None) (snd Cases.writeAcquired)).
Proof.
  apply (destroy_goes_to_the_owner (Scenario.rp None None) 11 12
           (snd Cases.writeAcquired)).
  - apply writeAcquired_consistent.
  - left. reflexivity.
  - apply writeAcquired_consistent.
Defined.


Lemma acquire_rejected_before_any_pool_witness :
  ReplicationPool.acquire Cases.guarded None (Scenario.rpWorld 5)
  = (Throw (Error "beforeAcquire failed"), Scenario.rpWorld 5)
  /\ ReplicationPool.acquire (Scenario.rp None None)
       (Some (Scenario.asking "banana" false)) (Scenario.rpWorld 5)
     = (Throw (Error "Expected queryType to be either read or write. Received banana"),
        Scenario.rpWorld 5).
Proof.
  split.
  - apply (proj1 (acquire_rejected_before_any_pool Cases.guarded None
                    (Scenario.rpWorld 5))).
    reflexivity.
  - apply (proj2 (acquire_rejected_before_any_pool (Scenario.rp None None)
                    (Some (Scenario.asking "banana" false)) (Scenario.rpWorld 5))
             (Scenario.asking "banana" false)).
    + reflexivity.
    + intros [H|H]; discriminate H.
Defined.

Lemma pool_errors_pass_through_witness :
  ReplicationPool.acquire (Scenario.rp None None)
    (Some (Scenario.asking "write" false)) (Scenario.rpWorld 0)
  = (Throw (TimeoutError "Operation timeout"),
     snd (SubPool.acquire 11 (Scenario.rpWorld 0))).
Proof.
  apply (pool_errors_pass_through (Scenario.rp None None)
           (Some (Scenario.asking "write" false)) (Scenario.asking "write" false)).
  - reflexivity.
  - right. reflexivity.
  - vm_compute. reflexivity.
  - left. reflexivity.
Defined.

Lemma sharded_acquire_routing_witness :
  ShardedReplicationPool.acquire Cases.manager "s1" (Scenario.asking "banana" false)
    Scenario.shardedWorld
  = (Throw (Error "Expected queryType to be either read or write. Received banana"),
     Scenario.shardedWorld)
  /\ poolLog (snd (ShardedReplicationPool.acquire Cases.manager "s1"
                     (Scenario.asking "read" false) Scenario.shardedWorld))
     = poolLog Scenario.shardedWorld ++ [(10, CallAcquire)]
  /\ poolLog (snd (ShardedReplicationPool.acquire Cases.manager "s1"
                     (Scenario.asking "read" true) Scenario.shardedWorld))
     = poolLog Scenario.shardedWorld ++ [(11, CallAcquire)]
  /\ poolLog (snd (LegacyShardedReplicationPool.acquire Cases.legacyManager "s1"
                     (Scenario.asking "read" true) Scenario.shardedWorld))
     = poolLog Scenario.shardedWorld ++ [(10, CallAcquire)]
  /\ ShardedReplicationPool.acquire Cases.manager "s2" (Scenario.asking "write" false)
       Scenario.shardedWorld
     = (Throw (Error "No write pool found for shard s2"), Scenario.shardedWorld).
Proof.
  split; [|split; [|split; [|split]]].
  - apply (proj1 (sharded_acquire_routing Cases.manager Cases.legacyManager "s1"
                    (Scenario.asking "banana" false) Scenario.shardedWorld));
      discriminate.
  - exact (proj1 (proj2 (sharded_acquire_routing Cases.manager Cases.legacyManager "s1"
                           (Scenario.asking "read" false) Scenario.shardedWorld))
             eq_refl eq_refl).
  - exact (proj1 (proj2 (proj2 (sharded_acquire_routing Cases.manager
                                  Cases.legacyManager "s1"
                                  (Scenario.asking "read" true) Scenario.shardedWorld)))
             (or_intror (conj eq_refl eq_refl))).
  - exact (proj1 (proj2 (proj2 (proj2 (sharded_acquire_routing Cases.manager
                                         Cases.legacyManager "s1"
                                         (Scenario.asking "read" true)
                                         Scenario.shardedWorld))))
             eq_refl).
  - exact (proj1 (proj2 (proj2 (sharded_acquire_routing Cases.manager
                                  Cases.legacyManager "s2"
                                  (Scenario.asking "write" false)
                                  Scenario.shardedWorld)))
             (or_introl eq_refl)).
Defined.

Lemma sharded_acquire_records_the_owner_witness :
  exists role pool,
    (role = "read" \/ role = "write")
    /\ ShardedReplicationPool.getPool Cases.manager (Some "s1") (Some role) false
       = Some pool
    /\ shardOwningPools (snd Cases.readAcquired) !! 12 = Some (role +:+ ":" +:+ "s1")
    /\ checkedOutOf pool 12 (snd Cases.readAcquired)
    /\ connectionObjects (snd Cases.readAcquired) !! 12
       = Some {| conn_shardId := Some "s1" |}
    /\ SubPool.counter Pool.using_ pool (snd Cases.readAcquired)
       = S (SubPool.counter Pool.using_ pool Scenario.shardedWorld).
Proof.
  refine (proj2 (sharded_acquire_records_the_owner Cases.manager "s1"
                   (Scenario.asking "read" false) Scenario.shardedWorld (Normal 12)
                   (snd Cases.readAcquired) manager_consistent _)
            12 eq_refl).
  vm_compute. reflexivity.
Defined.


Lemma sharded_release_misses_after_colon_witness :
  exists pool,
    let w2 :=
      snd (ShardedReplicationPool.release Cases.colonManager 11
             (snd Cases.colonAcquired)) in
    checkedOutOf pool 11 (snd Cases.colonAcquired)
    /\ checkedOutOf pool 11 w2
    /\ SubPool.counter Pool.using_ pool w2
       = SubPool.counter Pool.using_ pool (snd Cases.colonAcquired)
    /\ (forall call,
           (pool, call) ∈ poolLog w2 -> (pool, call) ∈ poolLog (snd Cases.colonAcquired))
    /\ ((forall role,
           ShardedReplicationPool.getPool Cases.colonManager
             (Some (beforeColon "eu:1")) (Some role) false = None) ->
        ShardedReplicationPool.release Cases.colonManager 11 (snd Cases.colonAcquired)
        = (Normal tt, snd Cases.colonAcquired)).
Proof.
  apply (sharded_release_misses_after_colon Cases.colonManager "eu:1"
           (Scenario.asking "write" false) Cases.colonWorld 11
           (snd Cases.colonAcquired)).
  - reflexivity.
  - apply colonManager_consistent.
  - vm_compute. reflexivity.
Defined.

(** ** The two revisions of the replication pool *)

(** X8: the earlier revision agrees with the later one. Over the same two
    SubPools, [release] and [destroy] of
    [dialects/abstract/replication-pool.ts] do what those of
    [abstract-dialect/replication-pool.ts] do, the constructors build the
    same pools from the same configuration, and [acquire] does the same
    whenever the later pool has no hooks and no [timeoutErrorClass]. *)
Theorem earlier_revision_agrees this config w :
  (forall c,
      LegacyReplicationPool.release (earlier this) c w = ReplicationPool.release this c w
      /\ LegacyReplicationPool.destroy (earlier this) c w
         = ReplicationPool.destroy this c w)
  /\ (ReplicationPool.beforeAcquire this = None ->
      ReplicationPool.afterAcquire this = None ->
      ReplicationPool.timeoutErrorClass this = None ->
      forall o,
        LegacyReplicationPool.acquire (earlier this) o w
        = ReplicationPool.acquire this (Some o) w)
  /\ (exists built w1,
         ReplicationPool.new config w = (Normal built, w1)
         /\ LegacyReplicationPool.new (earlierConfig config) w
            = (Normal (earlier built), w1)).
Proof.
  split; [|split].
  - intros c. split; reflexivity.
  - intros Hbefore Hafter Hclass o.
    unfold LegacyReplicationPool.acquire, ReplicationPool.acquire,
      ReplicationPool.hookedOptions, lift, bind at 1.
    rewrite Hbefore. simpl.
    destruct (negb (default "write" (type o) =? "read")
              && negb (default "write" (type o) =? "write")); [done|].
    unfold ReplicationPool.selectPool, bind, try_catch, ReplicationPool.rethrow, ret, throw.
    rewrite Hafter, Hclass.
    destruct (ReplicationPool.read this) as [rd|];
      [destruct ((default "write" (type o) =? "read")
                 && negb (default false (useMaster o)))|];
      by destruct (SubPool.acquire _ w) as [[c|e] w1].
  - unfold ReplicationPool.new, LegacyReplicationPool.new, earlierConfig, earlier. simpl.
    destruct (BaseReplicationPoolConfig.readConfig config) as [[|o rc]|];
      unfold bind, ret, SubPool.new; simpl; by eexists _, _.
Qed.

Lemma earlier_revision_agrees_witness :
  LegacyReplicationPool.acquire (earlier (Scenario.rp None None))
    (Scenario.asking "read" false) (Scenario.rpWorld 5)
  = ReplicationPool.acquire (Scenario.rp None None)
      (Some (Scenario.asking "read" false)) (Scenario.rpWorld 5).
Proof.
  apply (proj1 (proj2 (earlier_revision_agrees (Scenario.rp None None)
                         (Scenario.replicated 5 None None) (Scenario.rpWorld 5))));
    reflexivity.
Defined.

(** ** [destroy] of the sharded pool *)

Lemma later_destroy_recorded this c w role s :
  role = "read" \/ role = "write" ->
  shardOwningPools w !! c = Some (role +:+ ":" +:+ s) ->
  ShardedReplicationPool.destroy this c w
  = match ShardedReplicationPool.getPool this (Some (beforeColon s)) (Some role) false with
    | Some pool => SubPool.destroy pool c w
    | None => (Normal tt, w)
    end.
Proof.
  intros Hrole Hrec. unfold ShardedReplicationPool.destroy, bind, gets.
  rewrite Hrec.
  assert (colonFree role = true) as Hfree by by destruct Hrole as [-> | ->].
  assert (ReplicationPool.falsy (Some (role +:+ ":" +:+ s)) = false) as ->
    by by destruct Hrole as [-> | ->].
  change (default "" (Some (role +:+ ":" +:+ s))) with (role +:+ ":" +:+ s).
  unfold shardValueToTuple. rewrite split_colon_prefix by done.
  unfold beforeColon. destruct (split_colon_nonempty s) as (part & parts & ->). simpl.
  by destruct (ShardedReplicationPool.getPool _ _ _ _).
Qed.

(** X15: the sharded [destroy] goes to the owner. On a consistent sharded
    pool, a connection returned by [acquire] for a shard whose id has no
    [':'] is destroyed through the pool that served the [acquire]: that
    pool receives the [acquire] and then the [destroy], [disconnect] is
    called once for the connection and its outcome is the outcome of
    [destroy], the connection is gone from the pool, and the sharded pool
    stays consistent. For a pool whose [min] is 0, which is not refilled,
    its [size] goes down by one. *)
Theorem sharded_destroy_goes_to_the_owner this s o w c w1 :
  colonFree s = true ->
  shardedOk (ShardedReplicationPool.read this) (ShardedReplicationPool.write this) w ->
  ShardedReplicationPool.acquire this s o w = (Normal c, w1) ->
  exists pool p w2,
    poolObjects w1 !! pool = Some p
    /\ ShardedReplicationPool.destroy this c w1
       = (match Pool.destroy p c with Some e => Throw e | None => Normal tt end, w2)
    /\ poolLog w2 = poolLog w ++ [(pool, CallAcquire); (pool, CallDestroy c)]
    /\ disconnectLog w2 = disconnectLog w1 ++ [c]
    /\ shardedOk (ShardedReplicationPool.read this) (ShardedReplicationPool.write this) w2
    /\ ~ checkedOutOf pool c w2
    /\ (Pool.min p = 0 ->
        S (SubPool.counter Pool.size pool w2) = SubPool.counter Pool.size pool w1).
Proof.
  intros Hfree Hok Hacq.
  destruct (later_acquire_Normal this s o w c w1 Hok Hacq)
    as (role & pool & Hrole & Hget & Hpok & Hok1 & Hrec & Hout & Hlog & Husing).
  pose proof Hpok as (p & Hp & _).
  destruct (destroy_effects pool p c w1 Hp) as (w2 & p1 & Hdes & _).
  destruct (poolOk_destroy true _ pool c w1 Hpok)
    as (res' & w2' & Hdes' & Hpok2 & Hlog2 & Hdlog & Hframe & Hnext & Hown & Hshard
        & Hgone & Hsize).
  rewrite Hdes in Hdes'. injection Hdes' as _ <-.
  exists pool, p, w2. split; [done|]. split.
  { rewrite (later_destroy_recorded this c w1 role s Hrole Hrec).
    unfold beforeColon. rewrite split_colon_colonFree by done. simpl.
    by rewrite Hget. }
  split; [by rewrite Hlog2, Hlog, <- app_assoc|]. split; [done|].
  split; [|split; [done|intros _; by apply Hsize]].
  apply (shardedOk_frame _ _ w1 w2 pool); auto; [|lia|].
  - intros tag Htag. by rewrite (poolOk_tag_unique true _ tag w1 pool Hpok Htag).
  - intros k _. by rewrite Hown, Hshard.
Qed.

Lemma sharded_destroy_goes_to_the_owner_witness :
  exists pool p w2,
    poolObjects (snd Cases.readAcquired) !! pool = Some p
    /\ ShardedReplicationPool.destroy Cases.manager 12 (snd Cases.readAcquired)
       = (match Pool.destroy p 12 with Some e => Throw e | None => Normal tt end, w2)
    /\ poolLog w2
       = poolLog Scenario.shardedWorld ++ [(pool, CallAcquire); (pool, CallDestroy 12)]
    /\ disconnectLog w2 = disconnectLog (snd Cases.readAcquired) ++ [12]
    /\ shardedOk (ShardedReplicationPool.read Cases.manager)
         (ShardedReplicationPool.write Cases.manager) w2
    /\ ~ checkedOutOf pool 12 w2
    /\ (Pool.min p = 0 ->
        S (SubPool.counter Pool.size pool w2)
        = SubPool.counter Pool.size pool (snd Cases.readAcquired)).
Proof.
  apply (sharded_destroy_goes_to_the_owner Cases.manager "s1"
           (Scenario.asking "read" false) Scenario.shardedWorld 12
           (snd Cases.readAcquired)).
  - reflexivity.
  - apply manager_consistent.
  - vm_compute. reflexivity.
Defined.

(** ** The aggregate counters of the sharded pool *)

Lemma JsMap_get_elem {V} k (v : V) m :
  NoDup (map fst m) -> (k, v) ∈ m -> JsMap.get k m = Some v.
Proof.
  induction m as [|[k0 v0] m IH]; simpl; intros Hnd Hin.
  - by apply elem_of_nil in Hin.
  - apply NoDup_cons in Hnd as [Hk0 Hnd].
    apply elem_of_cons in Hin as [[= -> ->]|Hin]; [by rewrite String.eqb_refl|].
    destruct (String.eqb_spec k k0) as [->|Hne]; [|by apply IH].
    destruct Hk0. apply (list_elem_of_fmap_2 fst) in Hin. exact Hin.
Qed.

Lemma refs_NoDup {V} (g : V -> option nat) (m : JsMap.t V) :
  NoDup (map fst m) ->
  (forall k k' v v' r,
      JsMap.get k m = Some v -> JsMap.get k' m = Some v' ->
      g v = Some r -> g v' = Some r -> k = k') ->
  NoDup (omap g (JsMap.values m)).
Proof.
  intros Hnd Hinj.
  assert (forall k k' v v' r,
             (k, v) ∈ m -> (k', v') ∈ m -> g v = Some r -> g v' = Some r -> k = k')
    as Hinj'.
  { intros k k' v v' r Hk Hk'. apply Hinj; by apply JsMap_get_elem. }
  clear Hinj. induction m as [|[k v] m IH]; simpl; [apply NoDup_nil_2|].
  apply NoDup_cons in Hnd as [Hk Hnd].
  assert (NoDup (omap g (JsMap.values m))) as Hrest.
  { apply IH; [done|]. intros k1 k2 v1 v2 r H1 H2.
    apply Hinj'; by apply elem_of_cons; right. }
  destruct (g v) as [r|] eqn:Hg; [|exact Hrest].
  apply NoDup_cons. split; [|exact Hrest].
  intros Hin. apply list_elem_of_omap in Hin as (v' & Hv' & Hg').
  apply list_elem_of_fmap in Hv' as ([k' v''] & -> & Hentry). simpl in Hg'.
  assert (k = k') as ->.
  { apply (Hinj' k k' v v'' r); [by apply elem_of_cons; left| |done|done].
    by apply elem_of_cons; right. }
  destruct Hk. apply (list_elem_of_fmap_2 fst) in Hentry. exact Hentry.
Qed.

Lemma omap_Some (l : list nat) : omap Some l = l.
Proof. induction l as [|x l IH]; [done|]. cbn. by f_equal. Qed.

Lemma shardedOk_NoDup read write w :
  NoDup (map fst read) -> NoDup (map fst write) ->
  shardedOk read write w ->
  NoDup (shardedRefs read write).
Proof.
  intros Hnr Hnw [Hr Hw]. unfold shardedRefs. apply NoDup_app. split; [|split].
  - apply refs_NoDup; [done|].
    intros k k' v v' r Hk Hk' Hv Hv'. simpl in Hv, Hv'. subst v v'.
    pose proof (poolOk_tag_unique true _ _ w r (Hr k r Hk) (Hr k' r Hk')) as Htag.
    simpl in Htag. by injection Htag.
  - intros r Hin Hin'.
    apply list_elem_of_omap in Hin as (v & Hv & Hg). simpl in Hg. subst v.
    apply list_elem_of_fmap in Hv as ([k v] & Hsnd & Hentry). simpl in Hsnd. subst v.
    apply list_elem_of_fmap in Hin' as ([k' v'] & Hsnd & Hentry'). simpl in Hsnd.
    subst v'.
    pose proof (poolOk_tag_unique true _ _ w r
                  (Hr k r (JsMap_get_elem _ _ _ Hnr Hentry))
                  (Hw k' r (JsMap_get_elem _ _ _ Hnw Hentry'))) as Htag.
    simpl in Htag. discriminate Htag.
  - rewrite <- (omap_Some (JsMap.values write)). apply refs_NoDup; [done|].
    intros k k' v v' r Hk Hk' [= ->] [= ->].
    pose proof (poolOk_tag_unique true _ _ w r (Hw k r Hk) (Hw k' r Hk')) as Htag.
    simpl in Htag. by injection Htag.
Qed.

Lemma fold_left_sum {A} (g : A -> nat) (l : list A) : forall acc,
  fold_left (fun acc x => acc + g x) l acc = acc + sum_list_with g l.
Proof.
  induction l as [|x l IH]; intros acc; simpl; [lia|]. rewrite IH. lia.
Qed.

Lemma total_sum f read write w :
  ShardedCommon.total f read write w
  = sum_list_with (fun r => SubPool.counter f r w) (shardedRefs read write).
Proof.
  unfold ShardedCommon.total, shardedRefs.
  rewrite !fold_left_sum, sum_list_with_app. simpl. f_equal.
  induction (JsMap.values read) as [|[r|] l IH]; simpl; by rewrite ?IH.
Qed.

Lemma sum_same (g g' : nat -> nat) l :
  (forall r, r ∈ l -> g' r = g r) -> sum_list_with g' l = sum_list_with g l.
Proof.
  induction l as [|x l IH]; intros H; simpl; [done|].
  rewrite H by (apply elem_of_cons; by left).
  rewrite IH; [done|]. intros r Hr. apply H. apply elem_of_cons. by right.
Qed.

Lemma sum_frame (g g' : nat -> nat) l pool :
  NoDup l -> pool ∈ l -> (forall r, r ≠ pool -> g' r = g r) ->
  sum_list_with g' l + g pool = sum_list_with g l + g' pool.
Proof.
  induction l as [|x l IH]; intros Hnd Hin Hother; [by apply elem_of_nil in Hin|].
  apply NoDup_cons in Hnd as [Hx Hnd]. simpl.
  apply elem_of_cons in Hin as [->|Hin].
  - rewrite (sum_same g g' l); [lia|].
    intros r Hr. apply Hother. by intros ->.
  - rewrite (Hother x) by by intros ->. specialize (IH Hnd Hin Hother). lia.
Qed.

Lemma total_frame f read write pool w w1 :
  NoDup (shardedRefs read write) -> pool ∈ shardedRefs read write ->
  (forall r, r ≠ pool -> poolObjects w1 !! r = poolObjects w !! r) ->
  ShardedCommon.total f read write w1 + SubPool.counter f pool w
  = ShardedCommon.total f read write w + SubPool.counter f pool w1.
Proof.
  intros Hnd Hin Hother. rewrite !total_sum.
  apply (sum_frame (fun r => SubPool.counter f r w) (fun r => SubPool.counter f r w1));
    [done|done|].
  intros r Hr. apply counter_same. by apply Hother.
Qed.

Lemma handOut_frame pool p s w res w1 :
  poolObjects w !! pool = Some p ->
  handOut pool s w = (res, w1) ->
  forall r, r ≠ pool -> poolObjects w1 !! r = poolObjects w !! r.
Proof.
  intros Hp Hrun.
  destruct (handOut_run pool s w) as (r & w' & Hacq & Hrun').
  destruct (acquire_effects pool p w r w' Hp Hacq) as (p1 & gone & _ & Hother & _).
  destruct r as [c|e]; [destruct (connectionObjects w' !! c)|];
    rewrite Hrun in Hrun'; injection Hrun' as -> ->; exact Hother.
Qed.

(** X16: the aggregate [using] counts the acquisition. On a consistent sharded
    pool whose two maps hold every shard id once, an [acquire] that returns
    a connection raises the [using] getter, the sum over every pool of
    every shard, by exactly one. *)
Theorem sharded_using_counts_the_acquire this s o w c w1 :
  NoDup (map fst (ShardedReplicationPool.read this)) ->
  NoDup (map fst (ShardedReplicationPool.write this)) ->
  shardedOk (ShardedReplicationPool.read this) (ShardedReplicationPool.write this) w ->
  ShardedReplicationPool.acquire this s o w = (Normal c, w1) ->
  ShardedReplicationPool.using_ this w1 = S (ShardedReplicationPool.using_ this w).
Proof.
  intros Hnr Hnw Hok Hacq.
  destruct (later_acquire_Normal this s o w c w1 Hok Hacq)
    as (role & pool & Hrole & Hget & Hpok & Hok1 & Hrec & Hout & Hlog & Husing).
  assert (pool ∈ shardedRefs (ShardedReplicationPool.read this)
                  (ShardedReplicationPool.write this)) as Hin.
  { unfold shardedRefs. apply elem_of_app.
    destruct (later_getPool_role this s _ _ pool Hget) as [[Hmap _]|[Hmap _]].
    - left. apply list_elem_of_omap. exists (Some pool). split; [|done].
      by apply (JsMap_get_values s).
    - right. by apply (JsMap_get_values s). }
  assert (forall r, r ≠ pool -> poolObjects w1 !! r = poolObjects w !! r) as Hother.
  { destruct (decide (type o = Some "read" \/ type o = Some "write")) as [Hty|Hty].
    2:{ unfold ShardedReplicationPool.acquire in Hacq.
        rewrite !bool_decide_eq_false_2 in Hacq by tauto. discriminate. }
    rewrite later_acquire_valid in Hacq by done.
    destruct (ShardedReplicationPool.getPool this (Some s) (type o) _) as [pool'|] eqn:Hget';
      [|discriminate].
    assert (pool' = pool) as ->.
    { pose proof (handOut_poolLog pool' s w) as Hlog'. rewrite Hacq in Hlog'.
      simpl in Hlog'. rewrite Hlog in Hlog'. apply app_inv_head in Hlog'.
      by injection Hlog'. }
    destruct (later_getPool_role this s _ _ pool Hget') as [[Hmap _]|[Hmap _]].
    - destruct (proj1 Hok s pool Hmap) as (p & Hp & _).
      exact (handOut_frame pool p s w _ w1 Hp Hacq).
    - destruct (proj2 Hok s pool Hmap) as (p & Hp & _).
      exact (handOut_frame pool p s w _ w1 Hp Hacq). }
  pose proof (total_frame Pool.using_ _ _ pool w w1
                (shardedOk_NoDup _ _ w Hnr Hnw Hok) Hin Hother) as Hsum.
  unfold ShardedReplicationPool.using_. lia.
Qed.

Lemma sharded_using_counts_the_acquire_witness :
  ShardedReplicationPool.using_ Cases.manager (snd Cases.readAcquired)
  = S (ShardedReplicationPool.using_ Cases.manager Scenario.shardedWorld).
Proof.
  apply (sharded_using_counts_the_acquire Cases.manager "s1"
           (Scenario.asking "read" false) Scenario.shardedWorld 12
           (snd Cases.readAcquired)).
  - apply NoDup_singleton.
  - apply NoDup_singleton.
  - apply manager_consistent.
  - vm_compute. reflexivity.
Defined.

(** ** The two revisions of the sharded pool *)

Lemma earlierSharded_getPool this shardId poolType :
  LegacyShardedReplicationPool.getPool (earlierSharded this) shardId poolType
  = ShardedReplicationPool.getPool this shardId poolType false.
Proof.
  unfold LegacyShardedReplicationPool.getPool, ShardedReplicationPool.getPool.
  simpl. by rewrite andb_true_r.
Qed.

(** X18: where the two revisions of the sharded pool agree. Over the same two
    maps, [release], [destroy] and the per-shard counters of the earlier
    revision do what those of the later one do, and so does [acquire] for
    the role ['write'], and for the role ['read'] with a falsy
    [useMaster]. *)
Theorem sharded_revisions_agree this w :
  (forall c,
      LegacyShardedReplicationPool.release (earlierSharded this) c w
      = ShardedReplicationPool.release this c w
      /\ LegacyShardedReplicationPool.destroy (earlierSharded this) c w
         = ShardedReplicationPool.destroy this c w)
  /\ (forall f s,
         LegacyShardedReplicationPool.shardCounter f (earlierSharded this) s w
         = ShardedReplicationPool.shardCounter f this s w)
  /\ (forall s o,
         type o = Some "write"
         \/ (type o = Some "read" /\ default false (useMaster o) = false) ->
         LegacyShardedReplicationPool.acquire (earlierSharded this) s o w
         = ShardedReplicationPool.acquire this s o w).
Proof.
  split; [|split].
  - intros c.
    unfold LegacyShardedReplicationPool.release, ShardedReplicationPool.release,
      LegacyShardedReplicationPool.destroy, ShardedReplicationPool.destroy, bind, gets.
    destruct (ReplicationPool.falsy (shardOwningPools w !! c)); [done|].
    destruct (shardValueToTuple (default "" (shardOwningPools w !! c)))
      as [shardId poolType].
    by rewrite earlierSharded_getPool.
  - intros f s.
    unfold LegacyShardedReplicationPool.shardCounter,
      ShardedReplicationPool.shardCounter.
    rewrite !earlierSharded_getPool.
    by destruct (ShardedReplicationPool.getPool this (Some s) (Some "read") false).
  - intros s o Hty.
    rewrite later_acquire_valid by tauto.
    unfold LegacyShardedReplicationPool.acquire, LegacyShardedReplicationPool.getPool,
      ShardedReplicationPool.getPool, handOut.
    destruct Hty as [Hty|[Hty Hum]]; rewrite Hty; simpl.
    + by destruct (JsMap.get s (ShardedReplicationPool.write this)).
    + rewrite Hum. simpl.
      by destruct (JsMap.get s (ShardedReplicationPool.read this)) as [[rd|]|].
Qed.

Lemma sharded_revisions_agree_witness :
  LegacyShardedReplicationPool.acquire (earlierSharded Cases.manager) "s1"
    (Scenario.asking "read" false) Scenario.shardedWorld
  = ShardedReplicationPool.acquire Cases.manager "s1" (Scenario.asking "read" false)
      Scenario.shardedWorld.
Proof.
  apply (proj2 (proj2 (sharded_revisions_agree Cases.manager Scenario.shardedWorld))).
  right. split; reflexivity.
Defined.

(** ** Connections of a shard the pool does not have *)



Example scenario_prefix_managers :
  fst Cases.prefixManagers = Normal (Cases.prefixManager, 11)
  /\ shardOwningPools Cases.prefixWorld !! 11 = Some "write:eu:1".
Proof. vm_compute. split; reflexivity. Qed.


Example scenario_two_managers :
  fst Scenario.twoManagers = Normal (Scenario.secondManager, 11).
Proof. vm_compute. reflexivity. Qed.


(** The recorded shard [eu:1] is in neither map of the second manager, yet
    its [release] calls the write pool of shard [eu] (object 12), which does
    not hold the connection; the pool that does (object 10) is not
    called. *)
Example release_reaches_the_prefix_shard :
  JsMap.get "eu:1" (ShardedReplicationPool.write Cases.prefixManager) = None
  /\ poolLog (snd (ShardedReplicationPool.release Cases.prefixManager 11
                     Cases.prefixWorld))
     = [(10, CallAcquire); (12, CallRelease 11)]
  /\ poolLog (snd (ShardedReplicationPool.destroy Cases.prefixManager 11
                     Cases.prefixWorld))
     = [(10, CallAcquire); (12, CallDestroy 11)].
Proof. vm_compute. repeat split. Qed.
